(** * db-analyzer-mcp: query safety and controlled execution

    A shallow embedding of the security layer of the repository
    ([src/security/sql-validator.ts], the identifier guard) and of the
    batch export tool ([dbExportBatch] in [src/tools/query.ts]), with the
    properties the specification states about them.

    Strings.  A JavaScript string is modelled as a list of characters
    ([list ascii]).  The model is exact on strings of 7-bit ASCII code
    units: white space is the ASCII part of the class [\s] (which is also
    what [String.prototype.trim] strips), [\w] is [[A-Za-z0-9_]], [\d] is
    [[0-9]], and [toUpperCase] maps [a-z] to [A-Z] and fixes every other
    character.

    Numbers.  Lengths, limits and counters are integers ([Z]); a number
    is printed in decimal, as [String(n)] does for integers below 1e21,
    and [parseInt] is exact, which agrees with the source on every
    comparison with a limit in the range of safe integers.

    Effects.  The batch export is a function of an explicit world (the
    files, the count of queries sent, the trace of events) and of a host
    record for its collaborators (configuration, driver, clock, logger,
    path and JSON functions).  File operations do not fail; the driver
    may raise.  The files the logger keeps for itself are outside the
    world: of a call that logs, what is proved about files is proved
    about the output path.  The loop takes fuel, and a result is [None]
    only when the fuel runs out.

    Other tools.  [dbQuery], [dbExplain], [dbRunFile], [dbExport],
    [dbSample] (with the driver's [getSampleData]) and [dbCompare] are
    functions of a host record as well, and answer with the events they
    cause (statements sent or explained, log entries).  A limit that the
    source passes through [Math.floor] is a rational ([QArith_base.Q])
    and the floor is [Qround.Qfloor].  A JavaScript object used as a map
    (the result of [parseEnvFile], the tables, columns and indexes of a
    snapshot) is an association list without repeated keys, in order of
    first insertion. *)

From Stdlib Require Import Ascii String ZArith NArith Lia Bool Arith List.
From Stdlib Require DecimalN DecimalPos DecimalFacts.
From Stdlib Require QArith Qround.
Import ListNotations.

Local Open Scope list_scope.
Local Open Scope char_scope.

(* ================================================================== *)
(** * Part I: definitions *)
(* ================================================================== *)

(** ** JavaScript strings *)

Definition jsstring := list ascii.

(** A string literal of the source. *)
Definition lit (s : string) : jsstring := list_ascii_of_string s.

Definition code (c : ascii) : N := N_of_ascii c.

Definition in_range (lo hi : N) (c : ascii) : bool :=
  (lo <=? code c)%N && (code c <=? hi)%N.

(** [\s] restricted to ASCII: TAB, LF, VT, FF, CR and SPACE. *)
Definition is_space (c : ascii) : bool :=
  in_range 9 13 c || (code c =? 32)%N.

(** [\d] *)
Definition is_digit (c : ascii) : bool := in_range 48 57 c.

Definition is_upper (c : ascii) : bool := in_range 65 90 c.
Definition is_lower (c : ascii) : bool := in_range 97 122 c.

(** [\w] *)
Definition is_word (c : ascii) : bool :=
  is_upper c || is_lower c || is_digit c || (code c =? 95)%N.

(** [.] without the [s] flag: anything but a line terminator. *)
Definition is_not_newline (c : ascii) : bool :=
  negb ((code c =? 10)%N || (code c =? 13)%N).

Definition upper_char (c : ascii) : ascii :=
  if is_lower c then ascii_of_N (code c - 32) else c.

(** [s.toUpperCase()] on ASCII text.  Outside ASCII JavaScript changes
    other letters too, some of them into two or three code units (the
    sharp s becomes SS), which this function does not do. *)
Definition toUpperCase (s : jsstring) : jsstring := map upper_char s.

(** A string of ASCII code units (below 128) only: the strings on which
    the functions above are those of JavaScript. *)
Definition ascii_only (s : jsstring) : bool :=
  forallb (fun c => (code c <? 128)%N) s.

Definition ascii_eqb (a b : ascii) : bool := (code a =? code b)%N.

Fixpoint drop_while (p : ascii -> bool) (s : jsstring) : jsstring :=
  match s with
  | [] => []
  | c :: t => if p c then drop_while p t else s
  end.

Fixpoint take_while (p : ascii -> bool) (s : jsstring) : jsstring :=
  match s with
  | [] => []
  | c :: t => if p c then c :: take_while p t else []
  end.

Definition trim_start (s : jsstring) : jsstring := drop_while is_space s.

Fixpoint trim_end (s : jsstring) : jsstring :=
  match s with
  | [] => []
  | c :: t =>
      match trim_end t with
      | [] => if is_space c then [] else [c]
      | t' => c :: t'
      end
  end.

(** [s.trim()] *)
Definition trim (s : jsstring) : jsstring := trim_end (trim_start s).

(** [s.startsWith(p)] *)
Fixpoint startsWith (s p : jsstring) {struct p} : bool :=
  match p, s with
  | [], _ => true
  | _ :: _, [] => false
  | a :: p', b :: s' => ascii_eqb a b && startsWith s' p'
  end.

(** [s.endsWith(p)] *)
Definition endsWith (s p : jsstring) : bool :=
  (length p <=? length s)%nat && startsWith (skipn (length s - length p) s) p.

(** [s.includes(p)] *)
Fixpoint includes (s p : jsstring) : bool :=
  startsWith s p ||
  match s with
  | [] => false
  | _ :: t => includes t p
  end.

(** [parts.join(sep)] *)
Fixpoint join (sep : jsstring) (parts : list jsstring) : jsstring :=
  match parts with
  | [] => []
  | [x] => x
  | x :: rest => x ++ sep ++ join sep rest
  end.

(** [s.length] *)
Definition jslength (s : jsstring) : Z := Z.of_nat (length s).

(** ** Numbers and their decimal text *)

Definition digit_char (d : N) : ascii := ascii_of_N (48 + d).

Fixpoint uint_chars (d : Decimal.uint) : jsstring :=
  match d with
  | Decimal.Nil => []
  | Decimal.D0 d => digit_char 0 :: uint_chars d
  | Decimal.D1 d => digit_char 1 :: uint_chars d
  | Decimal.D2 d => digit_char 2 :: uint_chars d
  | Decimal.D3 d => digit_char 3 :: uint_chars d
  | Decimal.D4 d => digit_char 4 :: uint_chars d
  | Decimal.D5 d => digit_char 5 :: uint_chars d
  | Decimal.D6 d => digit_char 6 :: uint_chars d
  | Decimal.D7 d => digit_char 7 :: uint_chars d
  | Decimal.D8 d => digit_char 8 :: uint_chars d
  | Decimal.D9 d => digit_char 9 :: uint_chars d
  end.

Definition digit_cons (c : ascii) (d : Decimal.uint) : Decimal.uint :=
  match (code c - 48)%N with
  | 0%N => Decimal.D0 d
  | 1%N => Decimal.D1 d
  | 2%N => Decimal.D2 d
  | 3%N => Decimal.D3 d
  | 4%N => Decimal.D4 d
  | 5%N => Decimal.D5 d
  | 6%N => Decimal.D6 d
  | 7%N => Decimal.D7 d
  | 8%N => Decimal.D8 d
  | _ => Decimal.D9 d
  end.

Fixpoint chars_uint (s : jsstring) : Decimal.uint :=
  match s with
  | [] => Decimal.Nil
  | c :: t => digit_cons c (chars_uint t)
  end.

(** [String(n)], the text a template literal interpolates for [n], for
    an integer [n]; JavaScript prints the same digits as long as
    [|n| < 1e21]. *)
Definition Number_toString (n : Z) : jsstring :=
  match n with
  | Zneg p => "-" :: uint_chars (Pos.to_uint p)
  | _ => uint_chars (N.to_uint (Z.to_N n))
  end.

(** [parseInt(ds, 10)] on a string of decimal digits, as an exact
    integer.  JavaScript answers the nearest double, which is the same
    number up to [2^53]; above, the two still compare alike with any
    integer below [2^53]. *)
Definition parseInt (ds : jsstring) : Z := Z.of_N (N.of_uint (chars_uint ds)).

(** ** Regular expressions

    The fragment of the regular expressions of the source: literals,
    classes, sequence, alternation, greedy star, one capturing group,
    [\b], [^] and [$].  The matcher is the backtracking matcher of the
    language: alternatives are tried left to right, a star takes as many
    iterations as it can and gives them back one by one, and an iteration
    that consumes nothing is refused. *)

Inductive regex : Type :=
| REmpty
| RChar (c : ascii)
| RClass (p : ascii -> bool)
| RSeq (r1 r2 : regex)
| RAlt (r1 r2 : regex)
| RStar (r : regex)
| RGroup (r : regex)
| RWordB
| RBegin
| REnd.

Definition RPlus (r : regex) : regex := RSeq r (RStar r).
Definition ROpt (r : regex) : regex := RAlt r REmpty.

Fixpoint RLit (s : jsstring) : regex :=
  match s with
  | [] => REmpty
  | c :: t => RSeq (RChar c) (RLit t)
  end.

Fixpoint RSeqs (rs : list regex) : regex :=
  match rs with
  | [] => REmpty
  | [r] => r
  | r :: rest => RSeq r (RSeqs rest)
  end.

Fixpoint RAlts (rs : list regex) : regex :=
  match rs with
  | [] => REmpty
  | [r] => r
  | r :: rest => RAlt r (RAlts rest)
  end.

(** A pattern with its [i] flag. *)
Record pattern : Type := Pattern { pat_re : regex; pat_icase : bool }.

(** Comparison of a pattern character with an input character; under the
    [i] flag both are canonicalized to upper case first. *)
Definition char_match (icase : bool) (c x : ascii) : bool :=
  if icase then ascii_eqb (upper_char c) (upper_char x) else ascii_eqb c x.

Definition is_word_at (c : option ascii) : bool :=
  match c with
  | Some x => is_word x
  | None => false
  end.

(** A continuation of the matcher: the character before the current
    position, what is left of the input, the capture so far. *)
Definition cont (R : Type) : Type :=
  option ascii -> jsstring -> option jsstring -> option R.

(** The iterations of a star whose body is matched by [step]: one more
    iteration first, the continuation [k] when that fails.  At most one
    iteration per character of the input is possible, which bounds
    [fuel]. *)
Fixpoint star_loop {R : Type}
    (step : option ascii -> jsstring -> option jsstring -> cont R -> option R)
    (fuel : nat) (prev : option ascii) (s : jsstring) (cap : option jsstring)
    (k : cont R) {struct fuel} : option R :=
  match fuel with
  | O => k prev s cap
  | S fuel' =>
      match step prev s cap
              (fun prev' s' cap' =>
                 if (length s' <? length s)%nat
                 then star_loop step fuel' prev' s' cap' k
                 else None) with
      | Some x => Some x
      | None => k prev s cap
      end
  end.

(** [rmatch icase r prev s cap k]: match [r] at the head of [s], where
    [prev] is the character before the current position (for [\b] and
    [^]) and [cap] the text captured so far; [k] continues with what is
    left. *)
Fixpoint rmatch {R : Type} (icase : bool) (r : regex) (prev : option ascii)
    (s : jsstring) (cap : option jsstring) (k : cont R)
    {struct r} : option R :=
  match r with
  | REmpty => k prev s cap
  | RChar c =>
      match s with
      | x :: t => if char_match icase c x then k (Some x) t cap else None
      | [] => None
      end
  | RClass p =>
      match s with
      | x :: t => if p x then k (Some x) t cap else None
      | [] => None
      end
  | RSeq r1 r2 =>
      rmatch icase r1 prev s cap
        (fun prev' s' cap' => rmatch icase r2 prev' s' cap' k)
  | RAlt r1 r2 =>
      match rmatch icase r1 prev s cap k with
      | Some x => Some x
      | None => rmatch icase r2 prev s cap k
      end
  | RStar r1 => star_loop (rmatch icase r1) (length s) prev s cap k
  | RGroup r1 =>
      rmatch icase r1 prev s cap
        (fun prev' s' _ =>
           k prev' s' (Some (firstn (length s - length s') s)))
  | RWordB =>
      if xorb (is_word_at prev) (is_word_at (hd_error s))
      then k prev s cap else None
  | RBegin =>
      match prev with
      | None => k prev s cap
      | Some _ => None
      end
  | REnd =>
      match s with
      | [] => k prev s cap
      | _ :: _ => None
      end
  end.

(** Match at the current position: what is left and the capture. *)
Definition match_here (p : pattern) (prev : option ascii) (s : jsstring)
  : option (jsstring * option jsstring) :=
  rmatch (pat_icase p) (pat_re p) prev s None
    (fun _ rest cap => Some (rest, cap)).

(** The character before the position reached after reading [a]. *)
Definition prev_after (a : jsstring) (prev : option ascii) : option ascii :=
  fold_left (fun _ c => Some c) a prev.

(** What the source reads off a match: the text before it, the text
    after it, and the capture. *)
Record match_result : Type := MatchResult {
  m_before : jsstring;
  m_after : jsstring;
  m_group1 : option jsstring
}.

(** Leftmost match, searching from the current position on. *)
Fixpoint search (p : pattern) (prev : option ascii) (before_rev : jsstring)
    (s : jsstring) : option match_result :=
  match match_here p prev s with
  | Some (rest, cap) =>
      Some (MatchResult (rev before_rev) rest cap)
  | None =>
      match s with
      | [] => None
      | c :: t => search p (Some c) (c :: before_rev) t
      end
  end.

(** [re.exec(s)] / [s.match(re)] without the [g] flag. *)
Definition exec (p : pattern) (s : jsstring) : option match_result :=
  search p None [] s.

(** [re.test(s)] *)
Definition test (p : pattern) (s : jsstring) : bool :=
  match exec p s with
  | Some _ => true
  | None => false
  end.

(** [s.replace(re, by)] without the [g] flag; [by] has no [$] pattern. *)
Definition replace (p : pattern) (by_ : jsstring) (s : jsstring) : jsstring :=
  match exec p s with
  | Some m => m_before m ++ by_ ++ m_after m
  | None => s
  end.

(** [s.replace(re, by)] with the [g] flag: every match, left to right,
    the search resuming where the previous match ended (one character
    further after an empty match). *)
Fixpoint replace_from (fuel : nat) (p : pattern) (by_ : jsstring)
    (prev : option ascii) (s : jsstring) : jsstring :=
  match fuel with
  | O => s
  | S fuel' =>
      match match_here p prev s with
      | Some (rest, _) =>
          if (length rest <? length s)%nat
          then by_ ++ replace_from fuel' p by_
                        (prev_after (firstn (length s - length rest) s) prev)
                        rest
          else match s with
               | [] => by_
               | c :: t => by_ ++ c :: replace_from fuel' p by_ (Some c) t
               end
      | None =>
          match s with
          | [] => []
          | c :: t => c :: replace_from fuel' p by_ (Some c) t
          end
      end
  end.

Definition replace_all (p : pattern) (by_ : jsstring) (s : jsstring) : jsstring :=
  replace_from (S (length s)) p by_ None s.

(** Shorthands for the classes of the source. *)
Definition ws : regex := RClass is_space.
Definition digit : regex := RClass is_digit.
Definition any : regex := RClass is_not_newline.
Definition L (s : string) : regex := RLit (lit s).

(** ** src/security/sql-validator.ts *)

Record ValidationResult : Type := mkValidation {
  valid : bool;
  error : option jsstring;
  normalized : option jsstring
}.

Definition rejected (msg : jsstring) : ValidationResult :=
  mkValidation false (Some msg) None.

Definition BLOCKED_KEYWORDS : list jsstring :=
  map lit
    [ "INSERT"; "UPDATE"; "DELETE"; "DROP"; "ALTER"; "TRUNCATE"; "CREATE";
      "GRANT"; "REVOKE"; "EXECUTE"; "CALL"; "COPY"; "VACUUM"; "REINDEX";
      "CLUSTER"; "COMMENT"; "SECURITY"; "OWNER"; "SET ROLE"; "RESET" ]%string.

Definition ALLOWED_PREFIXES : list jsstring :=
  map lit [ "SELECT"; "EXPLAIN"; "SHOW"; "WITH" ]%string.

Definition DANGEROUS_PATTERNS : list pattern :=
  [ Pattern (RSeqs [RChar ";"; RStar ws;
                    RGroup (RAlts [L "INSERT"; L "UPDATE"; L "DELETE"; L "DROP";
                                   L "ALTER"; L "TRUNCATE"; L "CREATE"])]) true;
    Pattern (RSeqs [L "INTO"; RPlus ws; L "OUTFILE"]) true;
    Pattern (RSeqs [L "INTO"; RPlus ws; L "DUMPFILE"]) true;
    Pattern (L "LOAD_FILE") true;
    Pattern (L "pg_read_file") true;
    Pattern (L "pg_write_file") true;
    Pattern (L "lo_import") true;
    Pattern (L "lo_export") true;
    Pattern (RSeqs [L "COPY"; RPlus ws; RStar any; RPlus ws; L "TO"]) true;
    Pattern (L "pg_terminate_backend") true;
    Pattern (L "pg_cancel_backend") true ].

(** [new RegExp(`\\b${keyword}\\b`, 'i')] *)
Definition keyword_pattern (keyword : jsstring) : pattern :=
  Pattern (RSeqs [RWordB; RLit keyword; RWordB]) true.

(** [/\s+/g] *)
Definition WHITESPACE_RUN : pattern := Pattern (RPlus ws) false.

(** [/;/g] *)
Definition SEMICOLON : pattern := Pattern (RChar ";") false.

(** [(s.match(re) || []).length] for a pattern with the [g] flag whose
    matches are never empty. *)
Fixpoint count_from (fuel : nat) (p : pattern) (prev : option ascii)
    (s : jsstring) : Z :=
  match fuel with
  | O => 0
  | S fuel' =>
      match match_here p prev s with
      | Some (rest, _) =>
          if (length rest <? length s)%nat
          then 1 + count_from fuel' p
                     (prev_after (firstn (length s - length rest) s) prev)
                     rest
          else 0
      | None =>
          match s with
          | [] => 0
          | c :: t => count_from fuel' p (Some c) t
          end
      end
  end%Z.

Definition count_matches (p : pattern) (s : jsstring) : Z :=
  count_from (S (length s)) p None s.

(** The first keyword of the list found in the statement. *)
Definition first_blocked (upperNormalized : jsstring) : option jsstring :=
  find (fun keyword => test (keyword_pattern keyword) upperNormalized)
       BLOCKED_KEYWORDS.

Definition validateQuery (sql : jsstring) (allowedStatements : list jsstring)
  : ValidationResult :=
  match sql with
  | [] => rejected (lit "Query must be a non-empty string")
  | _ :: _ =>
      let normalized := replace_all WHITESPACE_RUN (lit " ") (trim sql) in
      if (jslength normalized =? 0)%Z then
        rejected (lit "Query cannot be empty")
      else if (100000 <? jslength normalized)%Z then
        rejected (lit "Query too long (max 100KB)")
      else
        let upperNormalized := toUpperCase normalized in
        if negb (existsb (fun prefix => startsWith upperNormalized prefix)
                         allowedStatements) then
          rejected (lit "Query must start with one of: "
                      ++ join (lit ", ") allowedStatements)
        else
          match first_blocked upperNormalized with
          | Some keyword =>
              rejected (lit "Blocked keyword detected: " ++ keyword
                          ++ lit ". Only read operations are allowed.")
          | None =>
              if existsb (fun pattern => test pattern normalized)
                         DANGEROUS_PATTERNS then
                rejected (lit "Potentially dangerous SQL pattern detected")
              else
                let semiCount := count_matches SEMICOLON normalized in
                if (1 <? semiCount)%Z
                   || ((semiCount =? 1)%Z && negb (endsWith normalized (lit ";")))
                then
                  rejected (lit "Multiple statements not allowed. Execute one query at a time.")
                else
                  mkValidation true None (Some normalized)
          end
  end.

(** [/LIMIT\s+(\d+)/] *)
Definition LIMIT_CAPTURE : pattern :=
  Pattern (RSeqs [L "LIMIT"; RPlus ws; RGroup (RPlus digit)]) false.

(** [/LIMIT\s+\d+/i] *)
Definition LIMIT_CLAUSE : pattern :=
  Pattern (RSeqs [L "LIMIT"; RPlus ws; RPlus digit]) true.

(** [/;$/] *)
Definition TRAILING_SEMI : pattern := Pattern (RSeq (RChar ";") REnd) false.

Definition enforceLimit (sql : jsstring) (maxLimit : Z) : jsstring :=
  let normalized := trim sql in
  let upperNormalized := toUpperCase normalized in
  if includes upperNormalized (lit " LIMIT ") then
    match exec LIMIT_CAPTURE upperNormalized with
    | Some (MatchResult _ _ (Some digits)) =>
        let existingLimit := parseInt digits in
        if (maxLimit <? existingLimit)%Z then
          replace LIMIT_CLAUSE (lit "LIMIT " ++ Number_toString maxLimit) normalized
        else normalized
    | _ => normalized
    end
  else if startsWith upperNormalized (lit "EXPLAIN") then normalized
  else if startsWith upperNormalized (lit "SHOW") then normalized
  else if startsWith upperNormalized (lit "WITH") then
    let withoutSemi := replace TRAILING_SEMI [] normalized in
    withoutSemi ++ lit " LIMIT " ++ Number_toString maxLimit
  else
    let withoutSemi := replace TRAILING_SEMI [] normalized in
    withoutSemi ++ lit " LIMIT " ++ Number_toString maxLimit.

(** ** The identifier guard (security/identifiers) *)

Definition dquote : ascii := ascii_of_N 34.
Definition newline : ascii := ascii_of_N 10.

Definition is_ident_start (c : ascii) : bool :=
  is_lower c || is_upper c || (code c =? 95)%N.

Definition is_ident_char (c : ascii) : bool :=
  is_lower c || is_upper c || is_digit c || (code c =? 95)%N.

(** [/^[a-zA-Z_][a-zA-Z0-9_]*$/] *)
Definition VALID_IDENTIFIER : pattern :=
  Pattern (RSeqs [RBegin; RClass is_ident_start; RStar (RClass is_ident_char); REnd])
          false.

Definition MAX_IDENTIFIER_LENGTH : Z := 63.

Definition RESERVED_KEYWORDS : list jsstring :=
  map lit
    [ "SELECT"; "INSERT"; "UPDATE"; "DELETE"; "DROP"; "ALTER"; "CREATE";
      "TABLE"; "DATABASE"; "INDEX"; "VIEW"; "TRIGGER"; "FUNCTION"; "FROM";
      "WHERE"; "AND"; "OR"; "NOT"; "NULL"; "TRUE"; "FALSE"; "JOIN"; "LEFT";
      "RIGHT"; "INNER"; "OUTER"; "ON"; "AS"; "ORDER"; "BY"; "GROUP";
      "HAVING"; "LIMIT"; "OFFSET"; "UNION"; "INTERSECT"; "EXCEPT"; "ALL";
      "DISTINCT"; "GRANT"; "REVOKE"; "EXECUTE"; "TRUNCATE" ]%string.

Inductive identifier_type : Type := table | column | schema.

Definition type_name (t : identifier_type) : jsstring :=
  match t with
  | table => lit "table"
  | column => lit "column"
  | schema => lit "schema"
  end.

Record IdentifierValidation : Type := mkIdentifier {
  id_valid : bool;
  id_error : option jsstring;
  sanitized : option jsstring
}.

Definition string_eqb (a b : jsstring) : bool :=
  (length a =? length b)%nat && startsWith a b.

Definition validateIdentifier (identifier : jsstring) (type : identifier_type)
  : IdentifierValidation :=
  match identifier with
  | [] => mkIdentifier false
            (Some (type_name type ++ lit " name must be a non-empty string")) None
  | _ :: _ =>
      let trimmed := trim identifier in
      if (jslength trimmed =? 0)%Z then
        mkIdentifier false (Some (type_name type ++ lit " name cannot be empty")) None
      else if (MAX_IDENTIFIER_LENGTH <? jslength trimmed)%Z then
        mkIdentifier false
          (Some (type_name type ++ lit " name too long (max "
                   ++ Number_toString MAX_IDENTIFIER_LENGTH ++ lit " characters)"))
          None
      else if negb (test VALID_IDENTIFIER trimmed) then
        mkIdentifier false
          (Some (lit "Invalid " ++ type_name type ++ lit " name " ++ [dquote]
                   ++ trimmed ++ [dquote]
                   ++ lit ". Only letters, numbers, and underscores allowed. Must start with a letter or underscore."))
          None
      else if existsb (string_eqb (toUpperCase trimmed)) RESERVED_KEYWORDS then
        mkIdentifier true None (Some trimmed)
      else
        mkIdentifier true None (Some trimmed)
  end.

Fixpoint validateIdentifiers_loop (identifiers : list jsstring)
    (type : identifier_type) : option IdentifierValidation :=
  match identifiers with
  | [] => None
  | id :: rest =>
      let result := validateIdentifier id type in
      if negb (id_valid result) then Some result
      else validateIdentifiers_loop rest type
  end.

Definition validateIdentifiers (identifiers : list jsstring)
    (type : identifier_type) : IdentifierValidation :=
  match validateIdentifiers_loop identifiers type with
  | Some result => result
  | None => mkIdentifier true None (Some (join (lit ", ") identifiers))
  end.

(** The global pattern of one double-quote character. *)
Definition DOUBLE_QUOTE : pattern := Pattern (RChar dquote) false.

Definition quoteIdentifier (identifier : jsstring) : jsstring :=
  let escaped := replace_all DOUBLE_QUOTE [dquote; dquote] identifier in
  [dquote] ++ escaped ++ [dquote].

Definition safeIdentifier (identifier : jsstring) (type : identifier_type)
  : option jsstring :=
  let validation := validateIdentifier identifier type in
  if negb (id_valid validation) then None
  else option_map quoteIdentifier (sanitized validation).

(** ** utils/result.ts *)

Inductive jvalue : Type :=
| JString (s : jsstring)
| JNumber (n : Z)
| JBool (b : bool)
| JOpaque (text : jsstring).

(** A tool result: the object handed to [JSON.stringify] and the
    [isError] mark. *)
Record ToolResult : Type := mkToolResult {
  isError : bool;
  data : list (jsstring * jvalue)
}.

Definition success (fields : list (jsstring * jvalue)) : ToolResult :=
  mkToolResult false fields.

Definition tool_error (message : jsstring) (details : option jsstring) : ToolResult :=
  mkToolResult true
    ((lit "error", JString message) ::
     match details with
     | Some d => [(lit "details", JString d)]
     | None => []
     end).

(** [data[key]] *)
Fixpoint field (key : jsstring) (fields : list (jsstring * jvalue)) : option jvalue :=
  match fields with
  | [] => None
  | (k, v) :: rest => if string_eqb k key then Some v else field key rest
  end.

(** ** tools/query.ts: dbExportBatch *)

Inductive export_format : Type := jsonl | json | csv.

Definition format_name (f : export_format) : jsstring :=
  match f with
  | jsonl => lit "jsonl"
  | json => lit "json"
  | csv => lit "csv"
  end.

(** The value of a column of a result row, as the CSV writer tells them
    apart: [null] or [undefined], a string, an object (given by its
    [JSON.stringify] text), anything else (given by its [String] text). *)
Inductive cell : Type :=
| CNull
| CString (s : jsstring)
| CObject (stringified : jsstring)
| COther (text : jsstring).

(** A row: its columns in key order. *)
Definition row : Type := list (jsstring * cell).

Inductive query_result : Type :=
| Rows (rows : list row)
| Throws (message : jsstring).

(** What the call does to the outside world, in order. *)
Inductive event : Type :=
| EMkdir (dir : jsstring)
| EWrite (path data : jsstring)
| EAppend (path data : jsstring)
| EQuery (sql : jsstring)
| ELogInfo (message : jsstring)
| ELogError (message : jsstring).

Inductive node : Type :=
| File (content : jsstring)
| Dir.

Definition filesystem : Type := jsstring -> option node.

Record world : Type := mkWorld {
  w_fs : filesystem;      (* the files, the logger's own apart *)
  w_issued : nat;         (* calls of driver.query so far *)
  w_trace : list event    (* oldest first *)
}.

(** The collaborators of the tool: configuration, driver, clock, logger
    and the library functions the source imports. *)
Record host : Type := mkHost {
  isInitialized : bool;
  dbMcpPath : jsstring;
  connect_error : option jsstring;      (* the driver cannot be obtained *)
  driver_query : nat -> jsstring -> query_result;
  has_logger : bool;
  JSON_stringify : row -> jsstring;
  path_join : jsstring -> jsstring -> jsstring;
  path_dirname : jsstring -> jsstring;
  export_timestamp : jsstring;
  start_time : Z;
  end_time : Z;
  rows_per_second : Z -> Z -> jvalue
}.

Record DbExportBatchInput : Type := mkInput {
  projectPath : jsstring;
  sql : jsstring;
  outputPath : option jsstring;
  format : option export_format;
  batchSize : option Z;
  maxRows : option Z
}.

Definition existsSync (w : world) (path : jsstring) : bool :=
  match w_fs w path with
  | Some _ => true
  | None => false
  end.

Definition fs_set (fs : filesystem) (path : jsstring) (n : node) : filesystem :=
  fun p => if string_eqb p path then Some n else fs p.

Definition file_content (w : world) (path : jsstring) : option jsstring :=
  match w_fs w path with
  | Some (File c) => Some c
  | _ => None
  end.

(** The three file operations of the tools.  They succeed: a call of
    the source that throws (a path that cannot be written) is not a run
    of the model. *)
Definition mkdirSync (path : jsstring) (w : world) : world :=
  mkWorld (fs_set (w_fs w) path Dir) (w_issued w) (w_trace w ++ [EMkdir path]).

Definition writeFileSync (path content : jsstring) (w : world) : world :=
  mkWorld (fs_set (w_fs w) path (File content)) (w_issued w)
          (w_trace w ++ [EWrite path content]).

Definition appendFileSync (path content : jsstring) (w : world) : world :=
  let old := match file_content w path with Some c => c | None => [] end in
  mkWorld (fs_set (w_fs w) path (File (old ++ content))) (w_issued w)
          (w_trace w ++ [EAppend path content]).

Definition ensure_dir (dir : jsstring) (w : world) : world :=
  if existsSync w dir then w else mkdirSync dir w.

(** [logger?.info(message, ...)] and [logger?.error(message, ...)].  The
    logger appends the entry to files of its own ([mcp.log], and
    [errors.log] for an error, in a directory it creates when missing):
    these are not files of [w_fs], which says nothing about them; the
    entry is an event of the trace. *)
Definition log_info (h : host) (message : jsstring) (w : world) : world :=
  if has_logger h
  then mkWorld (w_fs w) (w_issued w) (w_trace w ++ [ELogInfo message])
  else w.

Definition log_error (h : host) (message : jsstring) (w : world) : world :=
  if has_logger h
  then mkWorld (w_fs w) (w_issued w) (w_trace w ++ [ELogError message])
  else w.

(** [await driver.query(q)] *)
Definition run_query (h : host) (q : jsstring) (w : world) : query_result * world :=
  (driver_query h (w_issued w) q,
   mkWorld (w_fs w) (S (w_issued w)) (w_trace w ++ [EQuery q])).

(** [/\bORDER\s+BY\b/i] *)
Definition ORDER_BY : pattern :=
  Pattern (RSeqs [RWordB; L "ORDER"; RPlus ws; L "BY"; RWordB]) true.

(** [/\bLIMIT\s+\d+\s*(OFFSET\s+\d+)?/gi] *)
Definition LIMIT_OFFSET : pattern :=
  Pattern (RSeqs [RWordB; L "LIMIT"; RPlus ws; RPlus digit; RStar ws;
                  ROpt (RGroup (RSeqs [L "OFFSET"; RPlus ws; RPlus digit]))])
          true.

(** [row[h]] *)
Fixpoint row_get (r : row) (key : jsstring) : cell :=
  match r with
  | [] => CNull
  | (k, v) :: rest => if string_eqb k key then v else row_get rest key
  end.

(** Every double quote doubled, the whole wrapped in double quotes. *)
Definition csv_quote (s : jsstring) : jsstring :=
  [dquote] ++ replace_all DOUBLE_QUOTE [dquote; dquote] s ++ [dquote].

Definition csv_cell (v : cell) : jsstring :=
  match v with
  | CNull => []
  | CString s => csv_quote s
  | CObject o => csv_quote o
  | COther t => t
  end.

Definition csv_line (headers : list jsstring) (r : row) : jsstring :=
  join (lit ",") (map (fun h => csv_cell (row_get r h)) headers).

Record job : Type := mkJob {
  totalRows : Z;
  batchCount : Z;
  offset : Z;
  isFirstBatch : bool;
  headers : list jsstring
}.

Inductive loop_end : Type :=
| Finished (j : job) (w : world)
| Threw (message : jsstring) (j : job) (w : world).

(** [maxRows ? ... : ...]: an absent or zero cap is no cap. *)
Definition cap_of (maxRows : option Z) : option Z :=
  match maxRows with
  | Some m => if (m =? 0)%Z then None else Some m
  | None => None
  end.

(** One batch written to the file, by format. *)
Definition write_batch (h : host) (fmt : export_format) (filepath : jsstring)
    (rows : list row) (j : job) (w : world) : list jsstring * world :=
  match fmt with
  | jsonl =>
      let lines := join [newline] (map (JSON_stringify h) rows) in
      (headers j,
       appendFileSync filepath
         ((if (0 <? totalRows j)%Z then [newline] else []) ++ lines) w)
  | csv =>
      let hw :=
        if isFirstBatch j && (0 <? length rows)%nat then
          let hs := match rows with r :: _ => map fst r | [] => [] end in
          (hs, writeFileSync filepath (join (lit ",") hs ++ [newline]) w)
        else (headers j, w) in
      let csvLines := join [newline] (map (csv_line (fst hw)) rows) in
      (fst hw, appendFileSync filepath (csvLines ++ [newline]) (snd hw))
  | json =>
      let jsonRows :=
        join ("," :: [newline])
             (map (fun r => lit "  " ++ JSON_stringify h r) rows) in
      (headers j,
       appendFileSync filepath
         ((if (0 <? totalRows j)%Z then "," :: [newline] else []) ++ jsonRows) w)
  end.

(** [maxRows ? Math.min(batchSize, maxRows - totalRows) : batchSize] *)
Definition effective_limit (batchSize : Z) (maxRows : option Z) (j : job) : Z :=
  match cap_of maxRows with
  | Some m => Z.min batchSize (m - totalRows j)
  | None => batchSize
  end.

(** [`${baseQuery} LIMIT ${effectiveLimit} OFFSET ${offset}`] *)
Definition batch_query (baseQuery : jsstring) (effectiveLimit : Z) (j : job)
  : jsstring :=
  baseQuery ++ lit " LIMIT " ++ Number_toString effectiveLimit
            ++ lit " OFFSET " ++ Number_toString (offset j).

(** The counters after a batch of [n] rows. *)
Definition next_job (j : job) (n : Z) (hs : list jsstring) : job :=
  mkJob (totalRows j + n) (batchCount j + 1) (offset j + n) false hs.

(** The [while (true)] loop; [None] when [fuel] iterations were not
    enough to leave it. *)
Fixpoint batch_loop (fuel : nat) (h : host) (fmt : export_format)
    (filepath baseQuery : jsstring) (batchSize : Z) (maxRows : option Z)
    (j : job) (w : world) : option loop_end :=
  match fuel with
  | O => None
  | S fuel' =>
      let effectiveLimit := effective_limit batchSize maxRows j in
      if (effectiveLimit <=? 0)%Z then Some (Finished j w)
      else
        match run_query h (batch_query baseQuery effectiveLimit j) w with
        | (Throws message, w1) => Some (Threw message j w1)
        | (Rows rows, w1) =>
            if (Z.of_nat (length rows) =? 0)%Z then Some (Finished j w1)
            else
              let '(hs, w2) := write_batch h fmt filepath rows j w1 in
              let j' := next_job j (Z.of_nat (length rows)) hs in
              let w3 := log_info h (lit "Batch exported") w2 in
              if (Z.of_nat (length rows) <? effectiveLimit)%Z
              then Some (Finished j' w3)
              else
                match cap_of maxRows with
                | Some m =>
                    if (m <=? totalRows j')%Z then Some (Finished j' w3)
                    else batch_loop fuel' h fmt filepath baseQuery batchSize maxRows j' w3
                | None =>
                    batch_loop fuel' h fmt filepath baseQuery batchSize maxRows j' w3
                end
        end
  end.

Definition JSONL_HINT : jsstring :=
  lit "JSONL files can be read line-by-line. Use: bun -e " ++ [dquote]
  ++ lit "for await (const line of Bun.file('path').stream()) console.log(JSON.parse(line))"
  ++ [dquote].

(** [format = 'jsonl'] and [batchSize = 10000] by default. *)
Definition format_of (input : DbExportBatchInput) : export_format :=
  match format input with
  | Some f => f
  | None => jsonl
  end.

Definition batchSize_of (input : DbExportBatchInput) : Z :=
  match batchSize input with
  | Some b => b
  | None => 10000%Z
  end.

(** The output file path, and the world once its directory exists. *)
Definition resolve_output (h : host) (input : DbExportBatchInput) (w : world)
  : jsstring * world :=
  match outputPath input with
  | Some (c :: p) =>
      let out := c :: p in
      let filepath :=
        if startsWith out (lit "/") then out
        else path_join h (projectPath input) out in
      (filepath, ensure_dir (path_dirname h filepath) w)
  | _ =>
      let exportDir := path_join h (dbMcpPath h) (lit "exports") in
      (path_join h exportDir
         (lit "batch_export_" ++ export_timestamp h ++ lit "."
            ++ format_name (format_of input)),
       ensure_dir exportDir w)
  end.

(** The statement without its own [LIMIT]/[OFFSET] and trailing [;]. *)
Definition base_query (sql : jsstring) : jsstring :=
  trim (replace TRAILING_SEMI [] (trim (replace_all LIMIT_OFFSET [] sql))).

(** The framing of the JSON array around the batches. *)
Definition open_output (fmt : export_format) (filepath : jsstring) (w : world)
  : world :=
  match fmt with
  | json => writeFileSync filepath ("[" :: [newline]) w
  | _ => w
  end.

Definition close_output (fmt : export_format) (filepath : jsstring) (w : world)
  : world :=
  match fmt with
  | json => appendFileSync filepath (newline :: ["]"]) w
  | _ => w
  end.

Definition initial_job : job := mkJob 0 0 0 true [].

(** The object of a completed export. *)
Definition export_summary (h : host) (fmt : export_format) (filepath : jsstring)
    (size : Z) (j : job) : list (jsstring * jvalue) :=
  let duration := (end_time h - start_time h)%Z in
  [ (lit "success", JBool true);
    (lit "filepath", JString filepath);
    (lit "format", JString (format_name fmt));
    (lit "totalRows", JNumber (totalRows j));
    (lit "batchCount", JNumber (batchCount j));
    (lit "batchSize", JNumber size);
    (lit "durationMs", JNumber duration);
    (lit "rowsPerSecond", rows_per_second h (totalRows j) duration) ]
  ++ match fmt with
     | jsonl => [(lit "hint", JString JSONL_HINT)]
     | _ => []
     end.

(** The [catch] block of the tool. *)
Definition export_failed (h : host) (message : jsstring) (w : world)
  : ToolResult * world :=
  (tool_error (lit "Failed to export data") (Some message),
   log_error h (lit "Batch export failed") w).

(** [dbExportBatch(input)]: the result and the world after the call;
    [None] when the loop did not end within [fuel] iterations. *)
Definition dbExportBatch (fuel : nat) (h : host) (input : DbExportBatchInput)
    (w : world) : option (ToolResult * world) :=
  let fmt := format_of input in
  let size := batchSize_of input in
  if negb (isInitialized h) then
    Some (tool_error (lit "Project not initialized. Run db_init first.") None, w)
  else
    let validation := validateQuery (sql input) ALLOWED_PREFIXES in
    if negb (valid validation) then
      Some (tool_error
              (lit "Invalid query: "
                 ++ match error validation with Some e => e | None => lit "undefined" end)
              None, w)
    else if negb (test ORDER_BY (sql input)) then
      Some (tool_error
              (lit "Query must include ORDER BY clause for consistent pagination")
              None, w)
    else
      match connect_error h with
      | Some message => Some (export_failed h message w)
      | None =>
          let '(filepath, w0) := resolve_output h input w in
          let baseQuery := base_query (sql input) in
          let w1 := open_output fmt filepath w0 in
          match batch_loop fuel h fmt filepath baseQuery size (maxRows input)
                  initial_job w1 with
          | None => None
          | Some (Threw message _ w2) => Some (export_failed h message w2)
          | Some (Finished j w2) =>
              let w3 := close_output fmt filepath w2 in
              let w4 := log_info h (lit "Batch export completed") w3 in
              Some (success (export_summary h fmt filepath size j), w4)
          end
      end.

(** ** Collaborators and inputs of the worked examples *)

Definition empty_world : world := mkWorld (fun _ => None) 0 [].

(** A host whose driver answers the query of each index as [answers]
    says, and with no rows after that. *)
Definition example_host (answers : list query_result) : host :=
  mkHost true (lit "/project/.db-mcp") None
         (fun i _ => nth i answers (Rows []))
         true
         (fun r => lit "{" ++ join (lit ",") (map fst r) ++ lit "}")
         (fun a b => a ++ lit "/" ++ b)
         (fun _ => lit "/out")
         (lit "2024-01-01T00-00-00-000Z")
         1000 1250
         (fun total _ => JNumber total).

Definition example_row (id : string) : row := [(lit "id", COther (lit id))].

Definition example_input (sql : string) (fmt : export_format) (size : Z)
  : DbExportBatchInput :=
  mkInput (lit "/project") (lit sql) (Some (lit "/out/rows")) (Some fmt)
          (Some size) None.

(** The events after the last query sent to the driver. *)
Definition is_query (e : event) : bool :=
  match e with
  | EQuery _ => true
  | _ => false
  end.

Fixpoint until_query (rev_trace : list event) : list event :=
  match rev_trace with
  | [] => []
  | e :: t => if is_query e then [] else e :: until_query t
  end.

Definition after_last_query (trace : list event) : list event :=
  rev (until_query (rev trace)).

(** ** Functions used to state and prove the properties

    Direct, structurally recursive readings of what the matcher does on
    the patterns of the source; each is proved equal to the matcher
    below. *)

(** A star over a class, with its backtracking written out. *)
Fixpoint star_class {R : Type} (p : ascii -> bool) (prev : option ascii)
    (s : jsstring) (cap : option jsstring) (k : cont R) : option R :=
  match s with
  | x :: t =>
      if p x then
        match star_class p (Some x) t cap k with
        | Some r => Some r
        | None => k prev s cap
        end
      else k prev s cap
  | [] => k prev s cap
  end.

(** A literal read off the head of the input: what follows it. *)
Fixpoint strip_prefix (icase : bool) (kw : jsstring) (s : jsstring)
  : option jsstring :=
  match kw with
  | [] => Some s
  | c :: kw' =>
      match s with
      | x :: t => if char_match icase c x then strip_prefix icase kw' t else None
      | [] => None
      end
  end.

Definition nonempty (s : jsstring) : bool :=
  match s with
  | [] => false
  | _ :: _ => true
  end.

(** [LIMIT\s+\d+] at the head of the input: what follows the clause, and
    its digits. *)
Definition limit_here (icase : bool) (s : jsstring) : option (jsstring * jsstring) :=
  match strip_prefix icase (lit "LIMIT") s with
  | Some r1 =>
      let r2 := drop_while is_space r1 in
      let ds := take_while is_digit r2 in
      if nonempty (take_while is_space r1) && nonempty ds
      then Some (drop_while is_digit r2, ds)
      else None
  | None => None
  end.

(** Leftmost position at which [f] succeeds. *)
Fixpoint find_first {A : Type} (f : jsstring -> option (jsstring * A))
    (before_rev : jsstring) (s : jsstring) : option (jsstring * jsstring * A) :=
  match f s with
  | Some (rest, a) => Some (rev before_rev, rest, a)
  | None =>
      match s with
      | [] => None
      | c :: t => find_first f (c :: before_rev) t
      end
  end.

(** [replace(/;$/, '')] *)
Fixpoint strip_semi (s : jsstring) : jsstring :=
  match s with
  | [] => []
  | c :: t =>
      match t with
      | [] => if ascii_eqb ";" c then [] else [c]
      | _ :: _ => c :: strip_semi t
      end
  end.

(** [replace(/\s+/g, ' ')], one character at a time: [in_run] tells that
    the previous character was white space. *)
Fixpoint collapse (in_run : bool) (s : jsstring) : jsstring :=
  match s with
  | [] => []
  | c :: t =>
      if is_space c
      then (if in_run then collapse true t else " " :: collapse true t)
      else c :: collapse false t
  end.

(** Every double quote doubled. *)
Definition double_quotes (s : jsstring) : jsstring :=
  flat_map (fun c => if ascii_eqb c dquote then [dquote; dquote] else [c]) s.

(** The first white-space-delimited token. *)
Definition leading_token (s : jsstring) : jsstring :=
  take_while (fun c => negb (is_space c)) s.

(** The last character, if any, is not white space. *)
Fixpoint no_trailing (s : jsstring) : bool :=
  match s with
  | [] => true
  | c :: t =>
      match t with
      | [] => negb (is_space c)
      | _ :: _ => no_trailing t
      end
  end.

(** Every white-space character is one space and is followed by a
    character that is not white space. *)
Fixpoint tidy (s : jsstring) : bool :=
  match s with
  | [] => true
  | c :: t =>
      if is_space c then
        ascii_eqb c " "
        && match t with
           | d :: _ => negb (is_space d)
           | [] => false
           end
        && tidy t
      else tidy t
  end.



(** [ds] is the number of a [LIMIT <digits>] token of [s]: the word
    [LIMIT], white space, digits. *)
Definition limit_token (s ds : jsstring) : Prop :=
  exists pre w post,
    s = pre ++ lit "LIMIT" ++ w ++ ds ++ post /\
    w <> [] /\ forallb is_space w = true /\
    ds <> [] /\ forallb is_digit ds = true.

Definition has_limit_token (s : jsstring) : Prop := exists ds, limit_token s ds.

(** A text that cannot continue a [LIMIT <digits>] clause begun before
    it: it starts with neither a digit nor one of the letters I, M, T,
    and its first character after white space is not a digit. *)
Definition tail_ok (y : jsstring) : bool :=
  match y with
  | [] => true
  | c :: _ =>
      negb (is_digit c)
      && negb (ascii_eqb (upper_char c) "I")
      && negb (ascii_eqb (upper_char c) "M")
      && negb (ascii_eqb (upper_char c) "T")
  end
  && match drop_while is_space y with
     | [] => true
     | c :: _ => negb (is_digit c)
     end.

(** One full turn of the loop on a batch [rows]: the counters and the
    world after the query, the write and the log. *)
Definition after_batch (h : host) (fmt : export_format)
    (filepath baseQuery : jsstring) (batchSize : Z) (maxRows : option Z)
    (rows : list row) (j : job) (w : world) : job * world :=
  let q := batch_query baseQuery (effective_limit batchSize maxRows j) j in
  let written := write_batch h fmt filepath rows j (snd (run_query h q w)) in
  (next_job j (Z.of_nat (length rows)) (fst written),
   log_info h (lit "Batch exported") (snd written)).

Definition end_job (e : loop_end) : job :=
  match e with
  | Finished j _ => j
  | Threw _ j _ => j
  end.

Definition end_world (e : loop_end) : world :=
  match e with
  | Finished _ w => w
  | Threw _ _ w => w
  end.

(** The events of a completed export after its loop. *)
Definition closing_events (h : host) (fmt : export_format) (filepath : jsstring)
  : list event :=
  match fmt with
  | json => [EAppend filepath (newline :: ["]"])]
  | _ => []
  end
  ++ (if has_logger h then [ELogInfo (lit "Batch export completed")] else []).

(** The names of the server functions the validator looks for
    anywhere in a statement (the patterns of [DANGEROUS_PATTERNS] that
    are plain names). *)
Definition DANGEROUS_NAMES : list jsstring :=
  map lit
    [ "LOAD_FILE"; "pg_read_file"; "pg_write_file"; "lo_import"; "lo_export";
      "pg_terminate_backend"; "pg_cancel_backend" ]%string.

(** The number of semicolons of a string. *)
Definition semicolons (s : jsstring) : nat := length (filter (ascii_eqb ";") s).

(** ** tools/query.ts: dbQuery and dbExplain *)

(** [formatQueryResult(rows, rowCount, duration)] of utils/result.ts. *)
Definition formatQueryResult (rows : jvalue) (rowCount duration : Z) : ToolResult :=
  success [ (lit "success", JBool true);
            (lit "rowCount", JNumber rowCount);
            (lit "duration", JString (Number_toString duration ++ lit "ms"));
            (lit "rows", rows) ].

(** [config.security], as far as the query tools read it. *)
Record SecurityConfig : Type := mkSecurity {
  allowedStatements : list jsstring;
  maxRowLimit : Z
}.

(** What [driver.query] resolves to. *)
Record QueryResult : Type := mkQueryResult {
  qr_rows : jvalue;
  qr_rowCount : Z;
  qr_duration : Z
}.

(** The collaborators of the query tools: the configuration manager, the
    driver and the clock.  A call that can throw answers [inl message]
    when it does. *)
Record query_host : Type := mkQueryHost {
  q_initialized : bool;                      (* configManager.isInitialized() *)
  q_load : jsstring + SecurityConfig;        (* configManager.load() *)
  q_connect : option jsstring;               (* the connection or the driver throws *)
  q_query : jsstring -> jsstring + QueryResult;   (* driver.query(sql) *)
  q_explain : jsstring -> jsstring + jvalue;      (* driver.explain(sql) *)
  q_elapsed : Z                              (* Math.round(performance.now() - startTime) *)
}.

Inductive log_level : Type := level_info | level_warn | level_error.

(** What a query tool does to the outside world, in order. *)
Inductive query_event : Type :=
| QEnsureLogger
| QSent (sql : jsstring)                         (* driver.query *)
| QExplained (sql : jsstring)                    (* driver.explain *)
| QLog (level : log_level) (message : jsstring)  (* logger.info, warn, error *)
| QLogQuery (sql : jsstring) (ok : bool).        (* logger.query *)

Record DbQueryInput : Type := mkQueryInput {
  query_projectPath : jsstring;
  query_sql : jsstring;
  query_limit : option Z
}.

Definition NOT_INITIALIZED : jsstring :=
  lit "Project not initialized. Run db_init first.".

(** The text a template literal interpolates for [validation.error]. *)
Definition error_text (validation : ValidationResult) : jsstring :=
  match error validation with
  | Some e => e
  | None => lit "undefined"
  end.

(** [validation.normalized || rawSql] *)
Definition normalized_or (validation : ValidationResult) (rawSql : jsstring)
  : jsstring :=
  match normalized validation with
  | Some (c :: n) => c :: n
  | _ => rawSql
  end.

Definition dbQuery (h : query_host) (input : DbQueryInput)
  : ToolResult * list query_event :=
  let rawSql := query_sql input in
  let limit := match query_limit input with Some l => l | None => 100%Z end in
  if negb (q_initialized h) then (tool_error NOT_INITIALIZED None, [])
  else
    match q_load h with
    | inl message => (tool_error (lit "Query execution failed") (Some message), [])
    | inr config =>
        let validation := validateQuery rawSql (allowedStatements config) in
        if negb (valid validation) then
          (tool_error (lit "Query validation failed: " ++ error_text validation) None,
           [QEnsureLogger; QLog level_warn (lit "Query validation failed")])
        else
          let effectiveLimit := Z.min limit (maxRowLimit config) in
          let safeSql := enforceLimit (normalized_or validation rawSql) effectiveLimit in
          let failed message before :=
            (tool_error (lit "Query execution failed") (Some message),
             QEnsureLogger :: before
               ++ [QLogQuery rawSql false;
                   QLog level_error (lit "Query execution failed")]) in
          match q_connect h with
          | Some message => failed message []
          | None =>
              match q_query h safeSql with
              | inl message => failed message [QSent safeSql]
              | inr result =>
                  (formatQueryResult (qr_rows result) (qr_rowCount result) (q_elapsed h),
                   [QEnsureLogger; QSent safeSql; QLogQuery safeSql true])
              end
          end
    end.

Record DbExplainInput : Type := mkExplainInput {
  explain_projectPath : jsstring;
  explain_sql : jsstring
}.

(** The prefixes [dbExplain] allows, whatever the configuration says. *)
Definition EXPLAINABLE : list jsstring := map lit [ "SELECT"; "WITH" ]%string.

Definition dbExplain (h : query_host) (input : DbExplainInput)
  : ToolResult * list query_event :=
  let rawSql := explain_sql input in
  if negb (q_initialized h) then (tool_error NOT_INITIALIZED None, [])
  else
    match q_load h with
    | inl message => (tool_error (lit "Explain execution failed") (Some message), [])
    | inr config =>
        let validation := validateQuery rawSql EXPLAINABLE in
        if negb (valid validation) then
          (tool_error (lit "Query validation failed: " ++ error_text validation) None,
           [QEnsureLogger])
        else
          let statement := normalized_or validation rawSql in
          let failed message before :=
            (tool_error (lit "Explain execution failed") (Some message),
             QEnsureLogger :: before
               ++ [QLog level_error (lit "Explain execution failed")]) in
          match q_connect h with
          | Some message => failed message []
          | None =>
              match q_explain h statement with
              | inl message => failed message [QExplained statement]
              | inr plan =>
                  (success [ (lit "success", JBool true);
                             (lit "sql", JString statement);
                             (lit "plan", plan) ],
                   [QEnsureLogger; QExplained statement;
                    QLog level_info (lit "Explain executed")])
              end
          end
    end.

(** The statements handed to [driver.query] and to [driver.explain]. *)
Definition sent (events : list query_event) : list jsstring :=
  flat_map (fun e => match e with QSent q => [q] | _ => [] end) events.

Definition explained (events : list query_event) : list jsstring :=
  flat_map (fun e => match e with QExplained q => [q] | _ => [] end) events.

(** A host for the worked examples: an initialized project with the
    default security settings and a driver that answers every statement
    with no rows. *)
Definition example_query_host : query_host :=
  mkQueryHost true (inr (mkSecurity ALLOWED_PREFIXES 10000)) None
    (fun _ => inr (mkQueryResult (JOpaque (lit "[]")) 0 1))
    (fun _ => inr (JOpaque (lit "Seq Scan")))
    5.

(** ** The rows an export fetches *)

(** The statements given to [driver.query], in order. *)
Definition queries (trace : list event) : list jsstring :=
  flat_map (fun e => match e with EQuery q => [q] | _ => [] end) trace.

(** The rows the driver answers to the statements [qs], the first of
    which is the query of index [i]; a query that throws brings none. *)
Fixpoint fetched (h : host) (i : nat) (qs : list jsstring) : list row :=
  match qs with
  | [] => []
  | q :: rest =>
      match driver_query h i q with
      | Rows rows => rows
      | Throws _ => []
      end ++ fetched h (S i) rest
  end.

(** The content of a file, empty when there is none. *)
Definition content_or_empty (w : world) (path : jsstring) : jsstring :=
  match file_content w path with
  | Some c => c
  | None => []
  end.

(** A run of the loop from the counters [j] and the world [w] to its end
    [e], for a format that writes one text per row, the texts joined by
    [sep]: the events of the run, the queries counted, the rows fetched
    counted and written. *)
Definition lines_written (h : host) (fp sep : jsstring) (line : row -> jsstring)
    (j : job) (w : world) (e : loop_end) : Prop :=
  exists evs,
    w_trace (end_world e) = w_trace w ++ evs /\
    w_issued (end_world e) = (w_issued w + length (queries evs))%nat /\
    let F := fetched h (w_issued w) (queries evs) in
    totalRows (end_job e) = (totalRows j + Z.of_nat (length F))%Z /\
    match F with
    | [] => w_fs (end_world e) = w_fs w
    | _ :: _ =>
        file_content (end_world e) fp
        = Some (content_or_empty w fp
                  ++ (if (0 <? totalRows j)%Z then sep else [])
                  ++ join sep (map line F))
    end.

(** The driver of the worked examples of this part: a table of three
    rows, read by pages of two. *)
Definition example_pages : host :=
  example_host [Rows [example_row "1"; example_row "2"]; Rows [example_row "3"]].

Definition example_export (fmt : export_format) : DbExportBatchInput :=
  example_input "SELECT id FROM t ORDER BY id" fmt 2.

(** What a run of the loop from [j] and [w] to [e] writes in the CSV
    format: a line for the keys of the first row when the run starts
    with the first batch, then a line per row. *)
Definition csv_written (h : host) (fp : jsstring) (j : job) (w : world)
    (e : loop_end) : Prop :=
  exists evs,
    w_trace (end_world e) = w_trace w ++ evs /\
    w_issued (end_world e) = (w_issued w + length (queries evs))%nat /\
    let F := fetched h (w_issued w) (queries evs) in
    totalRows (end_job e) = (totalRows j + Z.of_nat (length F))%Z /\
    match F with
    | [] => w_fs (end_world e) = w_fs w
    | r0 :: _ =>
        let hs := if isFirstBatch j then map fst r0 else headers j in
        file_content (end_world e) fp
        = Some ((if isFirstBatch j then join (lit ",") hs ++ [newline]
                 else content_or_empty w fp)
                  ++ concat (map (fun r => csv_line hs r ++ [newline]) F))
    end.

(** A driver that answers one row to every query, and an export of its
    table by batches of one row, capped at three rows. *)
Definition example_endless : host :=
  mkHost true (lit "/project/.db-mcp") None
         (fun _ _ => Rows [example_row "7"])
         true
         (fun r => lit "{" ++ join (lit ",") (map fst r) ++ lit "}")
         (fun a b => a ++ lit "/" ++ b)
         (fun _ => lit "/out")
         (lit "2024-01-01T00-00-00-000Z")
         1000 1250
         (fun total _ => JNumber total).

Definition example_capped : DbExportBatchInput :=
  mkInput (lit "/project") (lit "SELECT id FROM t ORDER BY id")
          (Some (lit "/out/rows")) (Some jsonl) (Some 1%Z) (Some 3%Z).

(** A host whose database cannot be reached: the driver is not
    obtained. *)
Definition example_unreachable : host :=
  mkHost true (lit "/project/.db-mcp") (Some (lit "connect ECONNREFUSED"))
         (fun _ _ => Rows [example_row "7"])
         true
         (fun r => lit "{" ++ join (lit ",") (map fst r) ++ lit "}")
         (fun a b => a ++ lit "/" ++ b)
         (fun _ => lit "/out")
         (lit "2024-01-01T00-00-00-000Z")
         1000 1250
         (fun total _ => JNumber total).

(** ** tools/query.ts: dbExport *)

(** [Math.min(Math.max(1, Math.floor(limit)), cap)], for a finite
    number [limit]. *)
Definition safe_limit (limit : QArith_base.Q) (cap : Z) : Z :=
  Z.min (Z.max 1 (Qround.Qfloor limit)) cap.

(** The characters the WHERE clause of [dbExport] may have: letters,
    digits, the underscore, white space, and the signs equal, less,
    greater, exclamation mark, single and double quote, full stop,
    comma, parentheses and hyphen. *)
Definition is_where_char (c : ascii) : bool :=
  is_lower c || is_upper c || is_digit c || (code c =? 95)%N || is_space c
  || existsb (ascii_eqb c) ("=" :: "<" :: ">" :: "!" :: "'" :: dquote :: "."
                              :: "," :: "(" :: ")" :: ["-"]).

(** The pattern of the WHERE clause: one or more of these characters,
    from the beginning to the end. *)
Definition WHERE_SAFE : pattern :=
  Pattern (RSeqs [RBegin; RPlus (RClass is_where_char); REnd]) false.

(** The two formats of [dbExport]. *)
Inductive table_format : Type := as_json | as_csv.

Definition table_format_name (f : table_format) : jsstring :=
  match f with
  | as_json => lit "json"
  | as_csv => lit "csv"
  end.

Record DbExportInput : Type := mkExportInput {
  export_projectPath : jsstring;
  export_table : jsstring;
  export_fmt : option table_format;
  export_columns : option (list jsstring);
  export_where : option jsstring;
  export_limit : option QArith_base.Q
}.

(** What [dbExport] needs besides the collaborators of the batch export:
    the configured schema, the driver's answer on the existence of a
    table (which can throw), the row count the driver reports with its
    rows, and [JSON.stringify(rows, null, 2)].  To answer
    [tableExists] the driver asks the catalog of the database; that
    lookup is no call of [driver.query], and it is neither counted in
    [w_issued] nor an event of the trace. *)
Record export_host : Type := mkExportHost {
  e_host : host;
  e_schema : jsstring;
  e_tableExists : jsstring -> jsstring -> jsstring + bool;
  e_rowCount : list row -> Z;
  e_stringify : list row -> jsstring
}.

(** The column list of the statement: every column between double
    quotes, its own double quotes doubled, joined by a comma and a
    space; a star when no column is given. *)
Definition column_list (columns : option (list jsstring)) : jsstring :=
  match columns with
  | Some (c :: cs) =>
      join (lit ", ")
        (map (fun c => [dquote] ++ replace_all DOUBLE_QUOTE [dquote; dquote] c ++ [dquote])
             (c :: cs))
  | _ => lit "*"
  end.

(** The text exported, by format. *)
Definition export_output (eh : export_host) (fmt : table_format) (rows : list row)
  : jsstring :=
  match fmt with
  | as_csv =>
      match rows with
      | [] => []
      | r0 :: _ =>
          let headers := map fst r0 in
          join [newline] (join (lit ",") headers :: map (csv_line headers) rows)
      end
  | as_json => e_stringify eh rows
  end.

(** The [catch] block of [dbExport]. *)
Definition table_export_failed (h : host) (message : jsstring) (w : world)
  : ToolResult * world :=
  (tool_error (lit "Failed to export data") (Some message),
   log_error h (lit "Export failed") w).

(** The statement of [dbExport]; [None] when the WHERE clause is
    refused. *)
Definition export_statement (schema table_name : jsstring)
    (columns : option (list jsstring)) (where_ : option jsstring)
    (limit : QArith_base.Q) : option jsstring :=
  let columnList := column_list columns in
  let safeLimit := safe_limit limit 10000 in
  let sql0 := lit "SELECT " ++ columnList ++ lit " FROM " ++ [dquote]
                ++ schema ++ [dquote] ++ lit "." ++ [dquote]
                ++ table_name ++ [dquote] in
  let checked :=
    match where_ with
    | Some (c :: wh) =>
        if negb (test WHERE_SAFE (c :: wh)) then None
        else Some (sql0 ++ lit " WHERE " ++ (c :: wh))
    | _ => Some sql0
    end in
  match checked with
  | None => None
  | Some sql1 => Some (sql1 ++ lit " LIMIT " ++ Number_toString safeLimit)
  end.

(** The statement run and its rows saved to a file. *)
Definition export_rows (eh : export_host) (table_name : jsstring)
    (fmt : table_format) (sql : jsstring) (w : world) : ToolResult * world :=
  let h := e_host eh in
  match run_query h sql w with
  | (Throws message, w1) => table_export_failed h message w1
  | (Rows rows, w1) =>
      let output := export_output eh fmt rows in
      let exportDir := path_join h (dbMcpPath h) (lit "exports") in
      let w2 := ensure_dir exportDir w1 in
      let filename := table_name ++ lit "_" ++ export_timestamp h
                        ++ lit "." ++ table_format_name fmt in
      let filepath := path_join h exportDir filename in
      let w3 := writeFileSync filepath output w2 in
      let w4 := log_info h (lit "Data exported") w3 in
      (success
         [ (lit "success", JBool true);
           (lit "table", JString table_name);
           (lit "format", JString (table_format_name fmt));
           (lit "rowCount", JNumber (e_rowCount eh rows));
           (lit "filepath", JString filepath);
           (lit "preview",
            JString (firstn 500 output
                       ++ (if (500 <? jslength output)%Z then lit "..." else []))) ],
       w4)
  end.

Definition dbExport (eh : export_host) (input : DbExportInput) (w : world)
  : ToolResult * world :=
  let h := e_host eh in
  let table_name := export_table input in
  let fmt := match export_fmt input with Some f => f | None => as_json end in
  let limit := match export_limit input with
               | Some l => l
               | None => QArith_base.inject_Z 1000
               end in
  if negb (isInitialized h) then (tool_error NOT_INITIALIZED None, w)
  else
    let tableValidation := validateIdentifier table_name table in
    if negb (id_valid tableValidation) then
      (tool_error (match id_error tableValidation with
                   | Some e => e
                   | None => lit "undefined"
                   end) None, w)
    else
      let colValidation :=
        match export_columns input with
        | Some (c :: cs) => validateIdentifiers (c :: cs) column
        | _ => mkIdentifier true None None
        end in
      if negb (id_valid colValidation) then
        (tool_error (match id_error colValidation with
                     | Some e => e
                     | None => lit "undefined"
                     end) None, w)
      else
        match connect_error h with
        | Some message => table_export_failed h message w
        | None =>
            match e_tableExists eh table_name (e_schema eh) with
            | inl message => table_export_failed h message w
            | inr false =>
                (tool_error (lit "Table '" ++ table_name ++ lit "' not found in schema '"
                               ++ e_schema eh ++ lit "'") None, w)
            | inr true =>
                match export_statement (e_schema eh) table_name
                        (export_columns input) (export_where input) limit with
                | None =>
                    (tool_error
                       (lit "Invalid WHERE clause. Only simple conditions allowed.")
                       None, w)
                | Some sql => export_rows eh table_name fmt sql w
                end
            end
        end.

(** A name as the guard lets it through: letters, digits, underscores,
    and white space (around them). *)
Definition clean_name (s : jsstring) : bool :=
  forallb (fun c => is_ident_char c || is_space c) s.

(** A host for the worked examples of the table export: the schema
    [public], every table there, and the driver of [example_pages]. *)
Definition example_export_host : export_host :=
  mkExportHost example_pages (lit "public") (fun _ _ => inr true)
    (fun rows => Z.of_nat (length rows))
    (fun rows => lit "[" ++ join (lit ",") (map (JSON_stringify example_pages) rows)
                   ++ lit "]").

(** ** drivers/base.ts: getSampleData, and tools/schema.ts: dbSample *)

(** [BaseDriver.getSampleData(table, limit, schema)], for a driver whose
    [query] method is [query]: the statement it builds goes to that
    method. *)
Definition getSampleData {A : Type} (query : jsstring -> A) (table_name : jsstring)
    (limit : QArith_base.Q) (schema_name : jsstring) : A :=
  let safeTable := replace_all DOUBLE_QUOTE [dquote; dquote] table_name in
  let safeSchema := replace_all DOUBLE_QUOTE [dquote; dquote] schema_name in
  let qualifiedTable := [dquote] ++ safeSchema ++ [dquote] ++ lit "." ++ [dquote]
                          ++ safeTable ++ [dquote] in
  let safeLimit := safe_limit limit 10000 in
  query (lit "SELECT * FROM " ++ qualifiedTable ++ lit " LIMIT "
           ++ Number_toString safeLimit).

Record DbSampleInput : Type := mkSampleInput {
  sample_projectPath : jsstring;
  sample_table : jsstring;
  sample_limit : option QArith_base.Q;
  sample_schema : option jsstring
}.

(** The collaborators of [dbSample]: those of the query tools, the
    driver's answer on the existence of a table, and whether a logger is
    set. *)
Record sample_host : Type := mkSampleHost {
  s_host : query_host;
  s_tableExists : jsstring -> jsstring -> jsstring + bool;
  s_has_logger : bool
}.

Definition sample_log (sh : sample_host) (level : log_level) (message : jsstring)
  : list query_event :=
  if s_has_logger sh then [QLog level message] else [].

Definition dbSample (sh : sample_host) (input : DbSampleInput)
  : ToolResult * list query_event :=
  let h := s_host sh in
  let table_name := sample_table input in
  let limit := match sample_limit input with
               | Some l => l
               | None => QArith_base.inject_Z 10
               end in
  let schema_name := match sample_schema input with
                     | Some s => s
                     | None => lit "public"
                     end in
  let failed message before :=
    (tool_error (lit "Failed to sample table") (Some message),
     before ++ sample_log sh level_error (lit "Failed to sample table")) in
  if negb (q_initialized h) then (tool_error NOT_INITIALIZED None, [])
  else
    let tableValidation := validateIdentifier table_name table in
    if negb (id_valid tableValidation) then
      (tool_error (match id_error tableValidation with
                   | Some e => e
                   | None => lit "undefined"
                   end) None, [])
    else
      let schemaValidation := validateIdentifier schema_name schema in
      if negb (id_valid schemaValidation) then
        (tool_error (match id_error schemaValidation with
                     | Some e => e
                     | None => lit "undefined"
                     end) None, [])
      else
        match q_load h with
        | inl message => failed message []
        | inr _ =>
            match q_connect h with
            | Some message => failed message []
            | None =>
                match s_tableExists sh table_name schema_name with
                | inl message => failed message []
                | inr false =>
                    (tool_error (lit "Table '" ++ table_name
                                   ++ lit "' not found in schema '" ++ schema_name
                                   ++ lit "'") None, [])
                | inr true =>
                    let safeLimit := safe_limit limit 1000 in
                    getSampleData
                      (fun statement =>
                         match q_query h statement with
                         | inl message => failed message [QSent statement]
                         | inr result =>
                             (success
                                [ (lit "success", JBool true);
                                  (lit "table", JString table_name);
                                  (lit "rowCount", JNumber (qr_rowCount result));
                                  (lit "duration",
                                   JString (Number_toString (qr_duration result)
                                              ++ lit "ms"));
                                  (lit "rows", qr_rows result) ],
                              QSent statement
                                :: sample_log sh level_info (lit "Sampled table"))
                         end)
                      table_name (QArith_base.inject_Z safeLimit) schema_name
                end
            end
        end.

Definition example_sample_host : sample_host :=
  mkSampleHost example_query_host (fun _ _ => inr true) true.

(** ** config/manager.ts: parseEnvFile *)

(** [content.split('\n')] *)
Fixpoint split_lines (s : jsstring) : list jsstring :=
  match s with
  | [] => [[]]
  | c :: t =>
      if ascii_eqb c newline then [] :: split_lines t
      else
        match split_lines t with
        | l :: ls => (c :: l) :: ls
        | [] => [[c]]
        end
  end.

(** [s.indexOf(c)] for a character [c]; [None] stands for -1. *)
Fixpoint indexOf (c : ascii) (s : jsstring) : option nat :=
  match s with
  | [] => None
  | x :: t => if ascii_eqb x c then Some O else option_map S (indexOf c t)
  end.

(** The surrounding quotes of a value removed, when it begins and ends
    with the same kind of quote: [value.slice(1, -1)]. *)
Definition strip_quotes (value : jsstring) : jsstring :=
  if (startsWith value [dquote] && endsWith value [dquote])
     || (startsWith value (lit "'") && endsWith value (lit "'"))
  then firstn (length value - 2) (skipn 1 value)
  else value.

(** A JavaScript object used as a map, or a [Map], with strings for
    keys: its entries in the order the keys were first set. *)
Definition jsmap (V : Type) : Type := list (jsstring * V).

(** [m[key] = value], [m.set(key, value)] *)
Fixpoint map_set {V : Type} (m : jsmap V) (key : jsstring) (value : V) : jsmap V :=
  match m with
  | [] => [(key, value)]
  | (k, v) :: rest =>
      if string_eqb k key then (k, value) :: rest
      else (k, v) :: map_set rest key value
  end.

(** [m[key]], [m.get(key)] *)
Fixpoint map_get {V : Type} (m : jsmap V) (key : jsstring) : option V :=
  match m with
  | [] => None
  | (k, v) :: rest => if string_eqb k key then Some v else map_get rest key
  end.

(** The object the parser fills. *)
Definition env : Type := jsmap jsstring.

(** One turn of the loop over the lines.  Assigning a string to the key
    [__proto__] of a plain object creates no property. *)
Definition parse_line (result : env) (line : jsstring) : env :=
  let trimmed := trim line in
  if (jslength trimmed =? 0)%Z || startsWith trimmed (lit "#") then result
  else
    match indexOf "=" trimmed with
    | None => result
    | Some eqIndex =>
        let key := trim (firstn eqIndex trimmed) in
        let value := strip_quotes (trim (skipn (S eqIndex) trimmed)) in
        if string_eqb key (lit "__proto__") then result
        else map_set result key value
    end.

(** The loop over the lines of a file's content. *)
Definition parse_env (content : jsstring) : env :=
  fold_left parse_line (split_lines content) [].

(** [parseEnvFile(filePath)]; [None] when the path exists and cannot be
    read as a file. *)
Definition parseEnvFile (w : world) (filePath : jsstring) : option env :=
  if negb (existsSync w filePath) then Some []
  else option_map parse_env (file_content w filePath).

(** A project with an environment file, for the worked examples. *)
Definition example_env_world : world :=
  writeFileSync (lit "/project/.env")
    (lit "# database" ++ [newline] ++ lit "PORT = 5432" ++ [newline]
       ++ lit "DATABASE_URL=" ++ [dquote] ++ lit "postgres://u:p@h/db?x=1 # main"
       ++ [dquote])
    empty_world.

(** ** tools/query.ts: dbCompare *)

(** [m.has(key)] *)
Definition map_has {V : Type} (m : jsmap V) (key : jsstring) : bool :=
  match map_get m key with
  | Some _ => true
  | None => false
  end.

(** [new Map(entries)] *)
Definition map_of {V : Type} (entries : list (jsstring * V)) : jsmap V :=
  fold_left (fun m e => map_set m (fst e) (snd e)) entries [].

Record ColumnSnapshot : Type := mkColumn {
  col_name : jsstring;
  col_type : jsstring;
  col_nullable : bool;
  col_isPrimaryKey : bool;
  col_isForeignKey : bool;
  col_references : option (jsstring * jsstring)
}.

Record IndexSnapshot : Type := mkIndex {
  idx_name : jsstring;
  idx_columns : list jsstring;
  idx_isUnique : bool;
  idx_isPrimary : bool
}.

Record TableSnapshot : Type := mkTable {
  tbl_name : jsstring;
  tbl_schema : jsstring;
  tbl_rowCount : Z;
  tbl_columns : list ColumnSnapshot;
  tbl_indexes : list IndexSnapshot
}.

Record SchemaSnapshot : Type := mkSnapshot {
  snap_version : jsstring;
  snap_pulledAt : jsstring;
  snap_tables : list TableSnapshot
}.

Inductive difference_type : Type := diff_added | diff_removed | diff_modified.
Inductive difference_entity : Type := entity_table | entity_column | entity_index.

Record Difference : Type := mkDifference {
  diff_type : difference_type;
  diff_entity : difference_entity;
  diff_table : jsstring;
  diff_name : option jsstring;
  diff_details : option jsstring
}.

(** The arrow between the two types of a modified column, in UTF-8. *)
Definition ARROW : jsstring :=
  " " :: ascii_of_N 226 :: ascii_of_N 134 :: ascii_of_N 146 :: [" "].

(** The differences of the columns of a table. *)
Definition column_differences (name : jsstring) (currentTable compareTable : TableSnapshot)
  : list Difference :=
  let currentCols := map_of (map (fun c => (col_name c, c)) (tbl_columns currentTable)) in
  let compareCols := map_of (map (fun c => (col_name c, c)) (tbl_columns compareTable)) in
  flat_map
    (fun entry =>
       let colName := fst entry in
       let col := snd entry in
       match map_get compareCols colName with
       | None =>
           [mkDifference diff_added entity_column name (Some colName)
              (Some (col_type col))]
       | Some compareCol =>
           if negb (string_eqb (col_type col) (col_type compareCol))
              || negb (Bool.eqb (col_nullable col) (col_nullable compareCol))
           then [mkDifference diff_modified entity_column name (Some colName)
                   (Some (col_type compareCol ++ ARROW ++ col_type col))]
           else []
       end)
    currentCols
  ++ flat_map
       (fun entry =>
          if negb (map_has currentCols (fst entry))
          then [mkDifference diff_removed entity_column name (Some (fst entry)) None]
          else [])
       compareCols.

(** The differences of the indexes of a table. *)
Definition index_differences (name : jsstring) (currentTable compareTable : TableSnapshot)
  : list Difference :=
  let currentIdxs := map_of (map (fun i => (idx_name i, i)) (tbl_indexes currentTable)) in
  let compareIdxs := map_of (map (fun i => (idx_name i, i)) (tbl_indexes compareTable)) in
  flat_map
    (fun entry =>
       if negb (map_has compareIdxs (fst entry))
       then [mkDifference diff_added entity_index name (Some (fst entry))
               (Some (join (lit ", ") (idx_columns (snd entry))))]
       else [])
    currentIdxs
  ++ flat_map
       (fun entry =>
          if negb (map_has currentIdxs (fst entry))
          then [mkDifference diff_removed entity_index name (Some (fst entry)) None]
          else [])
       compareIdxs.

(** The three loops of [dbCompare] over the tables of the two
    snapshots. *)
Definition compare_snapshots (currentSnapshot compareSnapshot : SchemaSnapshot)
  : list Difference :=
  let currentTables := map_of (map (fun t => (tbl_name t, t)) (snap_tables currentSnapshot)) in
  let compareTables := map_of (map (fun t => (tbl_name t, t)) (snap_tables compareSnapshot)) in
  flat_map
    (fun entry =>
       if negb (map_has compareTables (fst entry))
       then [mkDifference diff_added entity_table (fst entry) None
               (Some (Number_toString (Z.of_nat (length (tbl_columns (snd entry))))
                        ++ lit " columns"))]
       else [])
    currentTables
  ++ flat_map
       (fun entry =>
          if negb (map_has currentTables (fst entry))
          then [mkDifference diff_removed entity_table (fst entry) None None]
          else [])
       compareTables
  ++ flat_map
       (fun entry =>
          match map_get compareTables (fst entry) with
          | None => []
          | Some compareTable =>
              column_differences (fst entry) (snd entry) compareTable
              ++ index_differences (fst entry) (snd entry) compareTable
          end)
       currentTables.

(** The object [dbCompare] hands to [success]. *)
Record CompareReport : Type := mkCompareReport {
  rep_currentPulledAt : jsstring;
  rep_currentTableCount : Z;
  rep_comparePulledAt : jsstring;
  rep_compareTableCount : Z;
  rep_differenceCount : Z;
  rep_differences : list Difference;
  rep_added : Z;
  rep_removed : Z;
  rep_modified : Z
}.

Inductive CompareResult : Type :=
| CompareFailed (message : jsstring) (details : option jsstring)
| Compared (report : CompareReport).

(** The collaborators of [dbCompare]: the current snapshot as
    [loadSnapshot] answers it (it can throw, or find none), and the
    snapshot file at a path (absent, unreadable, or parsed). *)
Record compare_host : Type := mkCompareHost {
  cmp_initialized : bool;
  cmp_current : jsstring + option SchemaSnapshot;
  cmp_file : jsstring -> option (jsstring + SchemaSnapshot);
  cmp_has_logger : bool
}.

Definition is_type (t : difference_type) (d : Difference) : bool :=
  match t, diff_type d with
  | diff_added, diff_added => true
  | diff_removed, diff_removed => true
  | diff_modified, diff_modified => true
  | _, _ => false
  end.

Definition dbCompare (ch : compare_host) (snapshotPath : jsstring)
  : CompareResult * list query_event :=
  let failed message :=
    (CompareFailed (lit "Failed to compare schemas") (Some message),
     if cmp_has_logger ch then [QLog level_error (lit "Schema comparison failed")]
     else []) in
  if negb (cmp_initialized ch) then (CompareFailed NOT_INITIALIZED None, [])
  else
    match cmp_current ch with
    | inl message => failed message
    | inr None =>
        (CompareFailed (lit "Current schema not found. Run db_pull first.") None, [])
    | inr (Some currentSnapshot) =>
        match cmp_file ch snapshotPath with
        | None =>
            (CompareFailed (lit "Snapshot file not found: " ++ snapshotPath) None, [])
        | Some (inl message) => failed message
        | Some (inr compareSnapshot) =>
            let differences := compare_snapshots currentSnapshot compareSnapshot in
            (Compared
               (mkCompareReport
                  (snap_pulledAt currentSnapshot)
                  (Z.of_nat (length (snap_tables currentSnapshot)))
                  (snap_pulledAt compareSnapshot)
                  (Z.of_nat (length (snap_tables compareSnapshot)))
                  (Z.of_nat (length differences))
                  differences
                  (Z.of_nat (length (filter (is_type diff_added) differences)))
                  (Z.of_nat (length (filter (is_type diff_removed) differences)))
                  (Z.of_nat (length (filter (is_type diff_modified) differences)))),
             if cmp_has_logger ch
             then [QLog level_info (lit "Schema comparison completed")]
             else [])
        end
    end.

(** Two snapshots for the worked examples: the second has one table
    more than the first. *)
Definition example_snapshot_old : SchemaSnapshot :=
  mkSnapshot (lit "1.0.0") (lit "2024-01-01")
    [mkTable (lit "users") (lit "public") 10
       [mkColumn (lit "id") (lit "integer") false true false None] []].

Definition example_snapshot_new : SchemaSnapshot :=
  mkSnapshot (lit "1.0.0") (lit "2024-02-01")
    [mkTable (lit "users") (lit "public") 12
       [mkColumn (lit "id") (lit "integer") false true false None] [];
     mkTable (lit "orders") (lit "public") 3
       [mkColumn (lit "id") (lit "integer") false true false None;
        mkColumn (lit "user_id") (lit "integer") true false true
          (Some (lit "users", lit "id"))] []].

Definition example_compare_host (current file : SchemaSnapshot) : compare_host :=
  mkCompareHost true (inr (Some current)) (fun _ => Some (inr file)) true.

(** ** tools/query.ts: dbRunFile *)

Definition lower_char (c : ascii) : ascii :=
  if is_upper c then ascii_of_N (code c + 32) else c.

(** [s.toLowerCase()] *)
Definition toLowerCase (s : jsstring) : jsstring := map lower_char s.

(** [[...new Set(items)]]: the items without repetition, each at its
    first place. *)
Definition set_of (items : list jsstring) : list jsstring :=
  fold_left (fun seen x => if existsb (string_eqb x) seen then seen else seen ++ [x])
            items [].

(** [/^EXPLAIN\s*/i] *)
Definition EXPLAIN_PREFIX : pattern :=
  Pattern (RSeqs [RBegin; L "EXPLAIN"; RStar ws]) true.

(** [/^\(\s*[^)]*\)\s*/i] *)
Definition OPTIONS_PREFIX : pattern :=
  Pattern (RSeqs [RBegin; RChar "("; RStar ws;
                  RStar (RClass (fun c => negb (ascii_eqb c ")")));
                  RChar ")"; RStar ws]) true.

(** [/^ANALYZE\s*/i] *)
Definition ANALYZE_PREFIX : pattern :=
  Pattern (RSeqs [RBegin; L "ANALYZE"; RStar ws]) true.

(** The statement inside an EXPLAIN statement: the keyword, its options
    in parentheses and the keyword ANALYZE removed from the front. *)
Definition inner_statement (rawSql : jsstring) : jsstring :=
  trim (replace ANALYZE_PREFIX []
          (replace OPTIONS_PREFIX []
             (replace EXPLAIN_PREFIX [] rawSql))).

Inductive run_format : Type := run_json | run_text.

Record DbRunFileInput : Type := mkRunFileInput {
  run_projectPath : jsstring;
  run_filePath : jsstring;
  run_timeout : option Z;
  run_format_ : option run_format;
  run_limit : option Z
}.

(** The collaborators of [dbRunFile]: those of the query tools, the
    path functions, the file at a path (absent, unreadable, or its
    content), and the text of a plan in the text format. *)
Record file_host : Type := mkFileHost {
  f_host : query_host;
  f_resolve : jsstring -> jsstring;
  f_extname : jsstring -> jsstring;
  f_read : jsstring -> option (jsstring + jsstring);
  f_plan_text : jvalue -> jvalue
}.

Definition dbRunFile (fh : file_host) (input : DbRunFileInput)
  : ToolResult * list query_event :=
  let h := f_host fh in
  let fmt := match run_format_ input with Some f => f | None => run_json end in
  let limit := match run_limit input with Some l => l | None => 1000%Z end in
  let failed message before :=
    (tool_error (lit "Query execution failed") (Some message),
     QEnsureLogger :: before
       ++ [QLogQuery (run_filePath input) false;
           QLog level_error (lit "File query execution failed")]) in
  if negb (q_initialized h) then (tool_error NOT_INITIALIZED None, [])
  else
    match q_load h with
    | inl message => (tool_error (lit "Query execution failed") (Some message), [])
    | inr config =>
        let resolvedPath := f_resolve fh (run_filePath input) in
        let ext := toLowerCase (f_extname fh resolvedPath) in
        if negb (string_eqb ext (lit ".sql")) && negb (string_eqb ext (lit ".txt")) then
          (tool_error
             (lit "Invalid file extension. Only .sql and .txt files are allowed.") None,
           [QEnsureLogger])
        else
          match f_read fh resolvedPath with
          | None =>
              (tool_error (lit "File not found: " ++ resolvedPath) None, [QEnsureLogger])
          | Some (inl message) => failed message []
          | Some (inr content) =>
              let rawSql := trim content in
              match rawSql with
              | [] => (tool_error (lit "SQL file is empty.") None, [QEnsureLogger])
              | _ :: _ =>
                  let running := [QLog level_info (lit "Running SQL from file")] in
                  let isExplain :=
                    startsWith (trim_start (toUpperCase rawSql)) (lit "EXPLAIN") in
                  if isExplain then
                    let innerSql := inner_statement rawSql in
                    let validation := validateQuery innerSql EXPLAINABLE in
                    if negb (valid validation) then
                      (tool_error (lit "Query validation failed: "
                                     ++ error_text validation) None,
                       QEnsureLogger :: running
                         ++ [QLog level_warn (lit "Query validation failed")])
                    else
                      let statement := normalized_or validation innerSql in
                      match q_connect h with
                      | Some message => failed message running
                      | None =>
                          match q_explain h statement with
                          | inl message =>
                              failed message (running ++ [QExplained statement])
                          | inr explainResult =>
                              (success
                                 [ (lit "success", JBool true);
                                   (lit "type", JString (lit "explain"));
                                   (lit "file", JString resolvedPath);
                                   (lit "duration", JNumber (q_elapsed h));
                                   (lit "plan",
                                    match fmt with
                                    | run_text => f_plan_text fh explainResult
                                    | run_json => explainResult
                                    end) ],
                               QEnsureLogger :: running
                                 ++ [QExplained statement;
                                     QLogQuery (firstn 500 rawSql) true])
                          end
                      end
                  else
                    let allowedWithExplain :=
                      set_of (allowedStatements config ++ [lit "EXPLAIN"]) in
                    let validation := validateQuery rawSql allowedWithExplain in
                    if negb (valid validation) then
                      (tool_error (lit "Query validation failed: "
                                     ++ error_text validation) None,
                       QEnsureLogger :: running
                         ++ [QLog level_warn (lit "Query validation failed")])
                    else
                      let effectiveLimit := Z.min limit (maxRowLimit config) in
                      let safeSql :=
                        enforceLimit (normalized_or validation rawSql) effectiveLimit in
                      match q_connect h with
                      | Some message => failed message running
                      | None =>
                          match q_query h safeSql with
                          | inl message => failed message (running ++ [QSent safeSql])
                          | inr result =>
                              (match fmt with
                               | run_text =>
                                   success
                                     [ (lit "success", JBool true);
                                       (lit "type", JString (lit "query"));
                                       (lit "file", JString resolvedPath);
                                       (lit "rowCount", JNumber (qr_rowCount result));
                                       (lit "duration", JNumber (q_elapsed h));
                                       (lit "data", qr_rows result) ]
                               | run_json =>
                                   formatQueryResult (qr_rows result)
                                     (qr_rowCount result) (q_elapsed h)
                               end,
                               QEnsureLogger :: running
                                 ++ [QSent safeSql; QLogQuery (firstn 500 rawSql) true])
                          end
                      end
              end
          end
    end.

(** A host for the worked examples: a project with two SQL files. *)
Definition example_file_host : file_host :=
  mkFileHost example_query_host (fun p => p)
    (fun p => skipn (length p - 4) p)
    (fun p =>
       if string_eqb p (lit "/q/report.sql")
       then Some (inr (lit "select id from users;" ++ [newline]))
       else if string_eqb p (lit "/q/plan.sql")
       then Some (inr (lit "explain (analyze, buffers) select id from users"))
       else None)
    (fun plan => plan).

(** What the queries of a run of the loop from [j] and [w] to [e] ask
    for: each a positive limit, the batch size at most, and as its
    offset the rows fetched by the queries before it. *)
Definition pages_asked (h : host) (base : jsstring) (size : Z) (j : job) (w : world)
    (e : loop_end) : Prop :=
  exists evs,
    w_trace (end_world e) = w_trace w ++ evs /\
    forall qs1 q qs2,
      queries evs = qs1 ++ q :: qs2 ->
      exists eff,
        (0 < eff <= size)%Z /\
        q = base ++ lit " LIMIT " ++ Number_toString eff ++ lit " OFFSET "
              ++ Number_toString
                   (offset j + Z.of_nat (length (fetched h (w_issued w) qs1))).

(* ================================================================== *)
(** * Part II: properties *)
(* ================================================================== *)

(** ** Characters *)

Ltac all_chars c :=
  destruct c as [[] [] [] [] [] [] [] []]; vm_compute;
  try reflexivity; try (intros; first [reflexivity | discriminate]).

Lemma ascii_eqb_eq a b : ascii_eqb a b = true <-> a = b.
Proof.
  unfold ascii_eqb, code. rewrite N.eqb_eq. split; [|congruence].
  intro H. rewrite <- (ascii_N_embedding a), <- (ascii_N_embedding b).
  congruence.
Qed.

Lemma ascii_eqb_refl a : ascii_eqb a a = true.
Proof. apply ascii_eqb_eq; reflexivity. Qed.


Lemma space_not_digit c : is_space c = true -> is_digit c = false.
Proof. all_chars c. Qed.

Lemma digit_not_space c : is_digit c = true -> is_space c = false.
Proof. all_chars c. Qed.

Lemma upper_char_idem c : upper_char (upper_char c) = upper_char c.
Proof. all_chars c. Qed.

Lemma is_space_upper c : is_space (upper_char c) = is_space c.
Proof. all_chars c. Qed.

Lemma is_digit_upper c : is_digit (upper_char c) = is_digit c.
Proof. all_chars c. Qed.

Lemma is_word_upper c : is_word (upper_char c) = is_word c.
Proof. all_chars c. Qed.


Lemma digit_upper_fixed c : is_digit c = true -> upper_char c = c.
Proof. all_chars c. Qed.

Lemma ident_char_not_quote c : is_ident_char c = true -> ascii_eqb c dquote = false.
Proof. all_chars c. Qed.

Lemma ident_start_char c : is_ident_start c = true -> is_ident_char c = true.
Proof. all_chars c. Qed.

Lemma char_match_upper icase c x :
  char_match icase c x = true -> upper_char c = upper_char x.
Proof.
  unfold char_match. destruct icase; intro H; apply ascii_eqb_eq in H; congruence.
Qed.

(** ** Strings *)

Lemma toUpperCase_app a b : toUpperCase (a ++ b) = toUpperCase a ++ toUpperCase b.
Proof. apply map_app. Qed.



Lemma startsWith_spec s p : startsWith s p = true <-> exists b, s = p ++ b.
Proof.
  revert s. induction p as [|a p IH]; intros s; simpl.
  - split; [intros _; exists s; reflexivity | reflexivity].
  - destruct s as [|b s].
    + split; [discriminate | intros [x Hx]; discriminate].
    + rewrite andb_true_iff, ascii_eqb_eq, IH. split.
      * intros [-> [x ->]]. exists x. reflexivity.
      * intros [x Hx]. injection Hx as -> ->. split; [reflexivity | exists x; reflexivity].
Qed.

Lemma startsWith_app s p : startsWith (p ++ s) p = true.
Proof. apply startsWith_spec. exists s. reflexivity. Qed.

Lemma includes_spec s p : includes s p = true <-> exists a b, s = a ++ p ++ b.
Proof.
  induction s as [|c s IH]; simpl.
  - rewrite orb_false_r, startsWith_spec. split.
    + intros [b Hb]. exists [], b. exact Hb.
    + intros [a [b Hab]]. destruct a; [exists b; exact Hab | discriminate].
  - rewrite orb_true_iff, startsWith_spec, IH. split.
    + intros [[b Hb] | [a [b Hab]]].
      * exists [], b. exact Hb.
      * exists (c :: a), b. simpl. congruence.
    + intros [a [b Hab]]. destruct a as [|x a].
      * left. exists b. exact Hab.
      * right. injection Hab as _ ->. exists a, b. reflexivity.
Qed.

Lemma drop_while_app p a b :
  drop_while p (a ++ b) =
  match drop_while p a with
  | [] => drop_while p b
  | r => r ++ b
  end.
Proof.
  induction a as [|c a IH]; simpl; [reflexivity|].
  destruct (p c); [exact IH | reflexivity].
Qed.

Lemma take_drop_while p s : take_while p s ++ drop_while p s = s.
Proof.
  induction s as [|c s IH]; simpl; [reflexivity|].
  destruct (p c); simpl; [rewrite IH|]; reflexivity.
Qed.

Lemma take_while_all p s : forallb p (take_while p s) = true.
Proof.
  induction s as [|c s IH]; simpl; [reflexivity|].
  destruct (p c) eqn:E; simpl; [rewrite E; exact IH | reflexivity].
Qed.

Lemma drop_while_head p s c t : drop_while p s = c :: t -> p c = false.
Proof.
  induction s as [|x s IH]; simpl; [discriminate|].
  destruct (p x) eqn:E; [exact IH | intro H; injection H as -> _; exact E].
Qed.

Lemma take_while_app_all p a b :
  forallb p a = true -> take_while p (a ++ b) = a ++ take_while p b.
Proof.
  induction a as [|c a IH]; simpl; [reflexivity|].
  intro H. apply andb_true_iff in H as [Hc Ha]. rewrite Hc, IH by exact Ha.
  reflexivity.
Qed.

Lemma drop_while_app_all p a b :
  forallb p a = true -> drop_while p (a ++ b) = drop_while p b.
Proof.
  induction a as [|c a IH]; simpl; [reflexivity|].
  intro H. apply andb_true_iff in H as [Hc Ha]. rewrite Hc. apply IH, Ha.
Qed.

Lemma firstn_take_while p s :
  firstn (length s - length (drop_while p s)) s = take_while p s.
Proof.
  rewrite <- (take_drop_while p s) at 1 3.
  rewrite length_app.
  replace (length (take_while p s) + length (drop_while p s)
           - length (drop_while p s))%nat
    with (length (take_while p s) + 0)%nat by lia.
  rewrite firstn_app_2. simpl. apply app_nil_r.
Qed.


(** ** The matcher on the patterns of the source *)

Lemma rmatch_seq R icase a b prev s cap (k : cont R) :
  rmatch icase (RSeq a b) prev s cap k =
  rmatch icase a prev s cap (fun p' s' c' => rmatch icase b p' s' c' k).
Proof. reflexivity. Qed.

Lemma rmatch_class R icase p prev s cap (k : cont R) :
  rmatch icase (RClass p) prev s cap k =
  match s with
  | x :: t => if p x then k (Some x) t cap else None
  | [] => None
  end.
Proof. reflexivity. Qed.

Lemma rmatch_begin R icase s cap (k : cont R) :
  rmatch icase RBegin None s cap k = k None s cap.
Proof. reflexivity. Qed.

Lemma star_loop_class R icase p s : forall fuel prev cap (k : cont R),
  (length s <= fuel)%nat ->
  star_loop (rmatch icase (RClass p)) fuel prev s cap k = star_class p prev s cap k.
Proof.
  induction s as [|x t IH]; intros fuel prev cap k Hf.
  - destruct fuel; reflexivity.
  - destruct fuel as [|fuel]; [simpl in Hf; lia|].
    simpl. destruct (p x) eqn:E; [|reflexivity].
    replace (length t <? S (length t))%nat with true
      by (symmetry; apply Nat.ltb_lt; lia).
    rewrite IH by (simpl in Hf; lia). reflexivity.
Qed.

Lemma rmatch_star_class R icase p prev s cap (k : cont R) :
  rmatch icase (RStar (RClass p)) prev s cap k = star_class p prev s cap k.
Proof. simpl. apply (star_loop_class R icase). lia. Qed.

Lemma star_class_greedy R p s : forall prev cap (k : cont R) r,
  k (prev_after (take_while p s) prev) (drop_while p s) cap = Some r ->
  star_class p prev s cap k = Some r.
Proof.
  induction s as [|x t IH]; intros prev cap k r H; simpl in *.
  - exact H.
  - destruct (p x); simpl in H; [|exact H].
    rewrite (IH _ _ _ _ H). reflexivity.
Qed.

Lemma star_class_commit R p s : forall prev cap (k : cont R),
  (forall q y t c, p y = true -> k q (y :: t) c = None) ->
  star_class p prev s cap k
  = k (prev_after (take_while p s) prev) (drop_while p s) cap.
Proof.
  induction s as [|x t IH]; intros prev cap k Hk; simpl.
  - reflexivity.
  - destruct (p x) eqn:E; [|reflexivity].
    rewrite IH by exact Hk. simpl.
    match goal with |- match ?e with _ => _ end = _ => destruct e eqn:K end.
    + reflexivity.
    + apply Hk, E.
Qed.

Lemma rmatch_plus_class R icase p prev s cap (k : cont R) :
  rmatch icase (RPlus (RClass p)) prev s cap k =
  match s with
  | x :: t => if p x then star_class p (Some x) t cap k else None
  | [] => None
  end.
Proof.
  unfold RPlus. rewrite rmatch_seq. destruct s as [|x t]; simpl; [reflexivity|].
  destruct (p x); [|reflexivity]. apply (star_loop_class R icase). lia.
Qed.

Lemma rmatch_plus_commit R icase p prev s cap (k : cont R) :
  (forall q y t c, p y = true -> k q (y :: t) c = None) ->
  rmatch icase (RPlus (RClass p)) prev s cap k =
  if nonempty (take_while p s)
  then k (prev_after (take_while p s) prev) (drop_while p s) cap
  else None.
Proof.
  intro Hk. rewrite rmatch_plus_class. destruct s as [|x t]; simpl; [reflexivity|].
  destruct (p x); simpl; [|reflexivity]. apply star_class_commit, Hk.
Qed.

Lemma rmatch_plus_greedy R icase p prev s cap (k : cont R) :
  (forall q t c, exists r, k q t c = Some r) ->
  rmatch icase (RPlus (RClass p)) prev s cap k =
  if nonempty (take_while p s)
  then k (prev_after (take_while p s) prev) (drop_while p s) cap
  else None.
Proof.
  intro Hk. rewrite rmatch_plus_class. destruct s as [|x t]; simpl; [reflexivity|].
  destruct (p x); simpl; [|reflexivity].
  destruct (Hk (prev_after (take_while p t) (Some x)) (drop_while p t) cap) as [r Hr].
  unfold prev_after in *. rewrite Hr. apply star_class_greedy. exact Hr.
Qed.

Lemma rmatch_lit R icase kw : forall prev s cap (k : cont R),
  rmatch icase (RLit kw) prev s cap k =
  match strip_prefix icase kw s with
  | Some rest => k (prev_after (firstn (length kw) s) prev) rest cap
  | None => None
  end.
Proof.
  induction kw as [|c kw IH]; intros prev s cap k; simpl; [reflexivity|].
  destruct s as [|x t]; [reflexivity|].
  destruct (char_match icase c x); [apply IH | reflexivity].
Qed.

Lemma strip_prefix_app icase kw : forall w rest,
  Forall2 (fun c x => char_match icase c x = true) kw w ->
  strip_prefix icase kw (w ++ rest) = Some rest.
Proof.
  induction kw as [|c kw IH]; intros w rest H; inversion H; subst; simpl.
  - reflexivity.
  - rewrite H2. apply IH. assumption.
Qed.

Lemma strip_prefix_inv icase kw : forall s rest,
  strip_prefix icase kw s = Some rest ->
  exists w, s = w ++ rest /\ Forall2 (fun c x => char_match icase c x = true) kw w.
Proof.
  induction kw as [|c kw IH]; intros s rest H; simpl in H.
  - injection H as <-. exists []. split; [reflexivity | constructor].
  - destruct s as [|x t]; [discriminate|].
    destruct (char_match icase c x) eqn:E; [|discriminate].
    destruct (IH _ _ H) as [w [-> Hw]].
    exists (x :: w). split; [reflexivity | constructor; assumption].
Qed.


Lemma search_hit p : forall a prev acc rest,
  match_here p (prev_after a prev) rest <> None ->
  search p prev acc (a ++ rest) <> None.
Proof.
  induction a as [|x a IH]; intros prev acc rest H.
  - simpl in *. destruct rest; simpl;
      destruct (match_here p prev _) as [[? ?]|]; congruence.
  - simpl. destruct (match_here p prev (x :: a ++ rest)) as [[? ?]|]; [discriminate|].
    apply IH. exact H.
Qed.

Lemma search_anchored p :
  (forall q s, match_here p (Some q) s = None) ->
  forall s c acc, search p (Some c) acc s = None.
Proof.
  intros Hp. induction s as [|x s IH]; intros c acc; simpl; rewrite Hp.
  - reflexivity.
  - apply IH.
Qed.

Lemma search_find p (f : jsstring -> option (jsstring * option jsstring)) :
  (forall prev s, match_here p prev s = f s) ->
  forall s prev acc,
    search p prev acc s =
    option_map (fun x => MatchResult (fst (fst x)) (snd (fst x)) (snd x))
               (find_first f acc s).
Proof.
  intros Hf. induction s as [|x s IH]; intros prev acc; simpl; rewrite Hf.
  - destruct (f []) as [[? ?]|]; reflexivity.
  - destruct (f (x :: s)) as [[? ?]|]; [reflexivity | apply IH].
Qed.

(** [/LIMIT\s+(\d+)/] and [/LIMIT\s+\d+/i] read at one position. *)

Lemma group_fails_on_space icase q y t c
    (k : cont (jsstring * option jsstring)) :
  is_space y = true ->
  rmatch icase (RGroup (RPlus digit)) q (y :: t) c k = None.
Proof.
  intro H. simpl. unfold is_digit at 1.
  change (in_range 48 57 y) with (is_digit y).
  rewrite (space_not_digit _ H). reflexivity.
Qed.

Lemma plus_digit_fails_on_space icase q y t c
    (k : cont (jsstring * option jsstring)) :
  is_space y = true ->
  rmatch icase (RPlus digit) q (y :: t) c k = None.
Proof.
  intro H. unfold digit. rewrite rmatch_plus_class.
  rewrite (space_not_digit _ H). reflexivity.
Qed.

Lemma match_here_LIMIT_CLAUSE prev s :
  match_here LIMIT_CLAUSE prev s =
  option_map (fun x => (fst x, None)) (limit_here true s).
Proof.
  unfold match_here, LIMIT_CLAUSE, limit_here, L; cbn [pat_re pat_icase RSeqs].
  rewrite rmatch_seq, rmatch_lit.
  destruct (strip_prefix true (lit "LIMIT") s) as [r1|]; [|reflexivity].
  rewrite rmatch_seq. unfold ws at 1.
  rewrite rmatch_plus_commit
    by (intros; apply plus_digit_fails_on_space; assumption).
  destruct (nonempty (take_while is_space r1)); [|reflexivity].
  unfold digit. rewrite rmatch_plus_greedy by (intros; eexists; reflexivity).
  simpl. destruct (nonempty (take_while is_digit (drop_while is_space r1)));
    reflexivity.
Qed.

Lemma match_here_LIMIT_CAPTURE prev s :
  match_here LIMIT_CAPTURE prev s =
  option_map (fun x => (fst x, Some (snd x))) (limit_here false s).
Proof.
  unfold match_here, LIMIT_CAPTURE, limit_here, L; cbn [pat_re pat_icase RSeqs].
  rewrite rmatch_seq, rmatch_lit.
  destruct (strip_prefix false (lit "LIMIT") s) as [r1|]; [|reflexivity].
  rewrite rmatch_seq. unfold ws at 1.
  rewrite rmatch_plus_commit
    by (intros; apply group_fails_on_space; assumption).
  destruct (nonempty (take_while is_space r1)); [|reflexivity].
  set (r2 := drop_while is_space r1).
  cbn [rmatch andb]. fold (RPlus digit). unfold digit.
  rewrite rmatch_plus_greedy by (intros; eexists; reflexivity).
  destruct (nonempty (take_while is_digit r2)); [|reflexivity].
  simpl. rewrite firstn_take_while. reflexivity.
Qed.

(** [/;$/] *)

Lemma match_here_TRAILING_SEMI prev s :
  match_here TRAILING_SEMI prev s =
  match s with
  | [c] => if ascii_eqb ";" c then Some ([], None) else None
  | _ => None
  end.
Proof.
  unfold match_here, TRAILING_SEMI; simpl.
  destruct s as [|c t]; [reflexivity|].
  destruct (ascii_eqb ";" c); destruct t; reflexivity.
Qed.

Lemma search_TRAILING_SEMI s : forall prev acc,
  match search TRAILING_SEMI prev acc s with
  | Some m => m_before m ++ m_after m
  | None => rev acc ++ s
  end = rev acc ++ strip_semi s.
Proof.
  induction s as [|x t IH]; intros prev acc.
  - reflexivity.
  - cbn [search]. rewrite match_here_TRAILING_SEMI.
    destruct t as [|y t'].
    + cbn [strip_semi]. destruct (ascii_eqb ";" x); reflexivity.
    + specialize (IH (Some x) (x :: acc)). cbn [rev] in IH.
      rewrite <- !app_assoc in IH. exact IH.
Qed.

Lemma replace_TRAILING_SEMI s : replace TRAILING_SEMI [] s = strip_semi s.
Proof.
  unfold replace, exec. pose proof (search_TRAILING_SEMI s None []) as H.
  destruct (search TRAILING_SEMI None [] s); exact H.
Qed.

Lemma strip_semi_tail s :
  exists tail, s = strip_semi s ++ tail /\ (tail = [] \/ tail = [";"]).
Proof.
  induction s as [|x t IH].
  - exists []. split; [reflexivity | left; reflexivity].
  - destruct t as [|y t'].
    + simpl. destruct (ascii_eqb ";" x) eqn:E.
      * apply ascii_eqb_eq in E. subst x. exists [";"]. split; [reflexivity | right; reflexivity].
      * exists []. split; [reflexivity | left; reflexivity].
    + destruct IH as [tail [Ht Hc]]. exists tail. split; [|exact Hc].
      change (strip_semi (x :: y :: t')) with (x :: strip_semi (y :: t')).
      rewrite <- app_comm_cons. f_equal. exact Ht.
Qed.

(** [/\s+/g] *)

Lemma drop_while_length p s : (length (drop_while p s) <= length s)%nat.
Proof.
  induction s as [|c s IH]; simpl; [lia|]. destruct (p c); simpl; lia.
Qed.

Lemma match_here_WHITESPACE_RUN prev s :
  match_here WHITESPACE_RUN prev s =
  if nonempty (take_while is_space s)
  then Some (drop_while is_space s, None) else None.
Proof.
  unfold match_here, WHITESPACE_RUN, ws; cbn [pat_re pat_icase].
  apply rmatch_plus_greedy. intros; eexists; reflexivity.
Qed.

Lemma collapse_in_run s : collapse true s = collapse false (drop_while is_space s).
Proof.
  induction s as [|c s IH]; simpl; [reflexivity|].
  destruct (is_space c) eqn:E; [exact IH|]. simpl. rewrite E. reflexivity.
Qed.

Lemma replace_from_WHITESPACE_RUN fuel : forall s prev,
  (length s < fuel)%nat ->
  replace_from fuel WHITESPACE_RUN (lit " ") prev s = collapse false s.
Proof.
  induction fuel as [|fuel IH]; intros s prev Hf; [lia|].
  cbn [replace_from]. rewrite match_here_WHITESPACE_RUN.
  destruct s as [|x t]; [reflexivity|].
  cbn [take_while drop_while collapse]. destruct (is_space x) eqn:E.
  - cbn [nonempty].
    pose proof (drop_while_length is_space t) as Hl.
    replace (length (drop_while is_space t) <? length (x :: t))%nat with true
      by (symmetry; apply Nat.ltb_lt; simpl; lia).
    rewrite IH by (simpl in Hf; lia).
    rewrite collapse_in_run. reflexivity.
  - cbn [nonempty]. rewrite IH by (simpl in Hf; lia). reflexivity.
Qed.

Lemma replace_all_WHITESPACE_RUN s :
  replace_all WHITESPACE_RUN (lit " ") s = collapse false s.
Proof. apply replace_from_WHITESPACE_RUN. lia. Qed.

(** The global pattern of one double quote. *)

Lemma match_here_DOUBLE_QUOTE prev s :
  match_here DOUBLE_QUOTE prev s =
  match s with
  | x :: t => if ascii_eqb dquote x then Some (t, None) else None
  | [] => None
  end.
Proof. destruct s; reflexivity. Qed.

Lemma ascii_eqb_sym a b : ascii_eqb a b = ascii_eqb b a.
Proof. apply N.eqb_sym. Qed.

Lemma replace_from_DOUBLE_QUOTE fuel : forall s prev,
  (length s < fuel)%nat ->
  replace_from fuel DOUBLE_QUOTE [dquote; dquote] prev s = double_quotes s.
Proof.
  induction fuel as [|fuel IH]; intros s prev Hf; [lia|].
  cbn [replace_from]. rewrite match_here_DOUBLE_QUOTE.
  destruct s as [|x t]; [reflexivity|].
  unfold double_quotes; cbn [flat_map]. fold (double_quotes t).
  rewrite (ascii_eqb_sym x dquote).
  destruct (ascii_eqb dquote x).
  - replace (length t <? length (x :: t))%nat with true
      by (symmetry; apply Nat.ltb_lt; simpl; lia).
    rewrite IH by (simpl in Hf; lia). reflexivity.
  - rewrite IH by (simpl in Hf; lia). reflexivity.
Qed.

Lemma replace_all_DOUBLE_QUOTE s :
  replace_all DOUBLE_QUOTE [dquote; dquote] s = double_quotes s.
Proof. apply replace_from_DOUBLE_QUOTE. lia. Qed.

(** ** Decimal text *)

Lemma chars_uint_chars d : chars_uint (uint_chars d) = d.
Proof. induction d; simpl; try reflexivity; rewrite IHd; reflexivity. Qed.

Lemma uint_chars_digits d : forallb is_digit (uint_chars d) = true.
Proof. induction d; simpl; try reflexivity; exact IHd. Qed.

Lemma uint_chars_nil d : uint_chars d = [] -> d = Decimal.Nil.
Proof. destruct d; simpl; intro H; try discriminate; reflexivity. Qed.

Lemma Number_toString_digits n :
  (0 <= n)%Z -> forallb is_digit (Number_toString n) = true.
Proof.
  intro H. destruct n; try lia; apply uint_chars_digits.
Qed.

Lemma Number_toString_nonempty n : Number_toString n <> [].
Proof.
  destruct n; simpl; try discriminate.
  intro H. apply uint_chars_nil in H.
  exact (DecimalPos.Unsigned.to_uint_nonnil _ H).
Qed.

Lemma parseInt_Number_toString n :
  (0 <= n)%Z -> parseInt (Number_toString n) = n.
Proof.
  intro H. unfold parseInt.
  destruct n as [|p|p]; try lia; unfold Number_toString;
    rewrite chars_uint_chars, DecimalN.Unsigned.of_to; reflexivity.
Qed.

(** ** Trimming and collapsing *)

Lemma trim_end_head s c r : trim_end s = c :: r -> exists r0, s = c :: r0.
Proof.
  destruct s as [|x t]; simpl; [discriminate|].
  destruct (trim_end t).
  - destruct (is_space x); [discriminate|]. intro H; injection H as -> _.
    exists t. reflexivity.
  - intro H; injection H as -> _. exists t. reflexivity.
Qed.

Lemma trim_end_no_trailing s : no_trailing (trim_end s) = true.
Proof.
  induction s as [|x t IH]; simpl; [reflexivity|].
  destruct (trim_end t) as [|y r] eqn:E.
  - destruct (is_space x) eqn:Ex; simpl; [reflexivity | rewrite Ex; reflexivity].
  - exact IH.
Qed.

Lemma trim_end_fixed s : no_trailing s = true -> trim_end s = s.
Proof.
  induction s as [|x t IH]; simpl; [reflexivity|].
  destruct t as [|y t'].
  - simpl. intro H. apply negb_true_iff in H. rewrite H. reflexivity.
  - intro H. rewrite (IH H). reflexivity.
Qed.

Lemma trim_head s c r : trim s = c :: r -> is_space c = false.
Proof.
  unfold trim, trim_start. intro H.
  destruct (trim_end_head _ _ _ H) as [r0 H0].
  exact (drop_while_head _ _ _ _ H0).
Qed.

Lemma trim_fixed s :
  match s with c :: _ => is_space c = false | [] => True end ->
  no_trailing s = true -> trim s = s.
Proof.
  intros Hh Ht. unfold trim, trim_start.
  destruct s as [|c t]; [reflexivity|].
  cbn [drop_while]. rewrite Hh. apply trim_end_fixed, Ht.
Qed.

Lemma collapse_in_run_head t :
  t <> [] -> no_trailing t = true ->
  exists d r, collapse true t = d :: r /\ is_space d = false.
Proof.
  induction t as [|c t IH]; intros Hne Ht; [congruence|].
  destruct t as [|y t'].
  - simpl in Ht. apply negb_true_iff in Ht. simpl. rewrite Ht.
    exists c, []. split; [reflexivity | exact Ht].
  - cbn [collapse]. destruct (is_space c) eqn:E.
    + apply IH; [discriminate | exact Ht].
    + exists c, (collapse false (y :: t')). split; [reflexivity | exact E].
Qed.

Lemma tidy_collapse s : forall b, no_trailing s = true -> tidy (collapse b s) = true.
Proof.
  induction s as [|c t IH]; intros b Ht; [reflexivity|].
  assert (Ht' : t <> [] -> no_trailing t = true) by (destruct t; [congruence | intros _; exact Ht]).
  cbn [collapse]. destruct (is_space c) eqn:E.
  - assert (Hne : t <> []).
    { intros ->. simpl in Ht. rewrite E in Ht. discriminate. }
    destruct b; [apply IH, Ht', Hne|].
    cbn [tidy]. change (is_space " ") with true. cbv iota.
    destruct (collapse_in_run_head t Hne (Ht' Hne)) as [d [r [Hc Hd]]].
    rewrite (IH true (Ht' Hne)), Hc, Hd. reflexivity.
  - cbn [tidy]. rewrite E. destruct t as [|y t']; [reflexivity|].
    apply IH, Ht'. discriminate.
Qed.


Lemma tidy_no_trailing s : tidy s = true -> no_trailing s = true.
Proof.
  induction s as [|c t IH]; [reflexivity|].
  cbn [tidy no_trailing]. destruct (is_space c) eqn:E.
  - intro H. apply andb_true_iff in H as [H Ht].
    apply andb_true_iff in H as [_ Hd].
    destruct t; [discriminate | apply IH, Ht].
  - intro H. destruct t; [reflexivity | apply IH, H].
Qed.

Lemma tidy_spaces pre : forall c post,
  tidy (pre ++ c :: post) = true -> is_space c = true ->
  c = " " /\ exists d post', post = d :: post' /\ is_space d = false.
Proof.
  induction pre as [|x pre IH]; intros c post H Hc.
  - cbn [app tidy] in H. rewrite Hc in H.
    apply andb_true_iff in H as [H _]. apply andb_true_iff in H as [H1 H2].
    apply ascii_eqb_eq in H1. split; [exact H1|].
    destruct post as [|d post']; [discriminate|].
    exists d, post'. split; [reflexivity | apply negb_true_iff, H2].
  - apply IH; [|exact Hc]. cbn [app tidy] in H.
    destruct (is_space x); [|exact H].
    apply andb_true_iff in H as [_ H]. exact H.
Qed.

Lemma take_while_upper (p : ascii -> bool) s :
  (forall c, p (upper_char c) = p c) ->
  toUpperCase (take_while p s) = take_while p (toUpperCase s).
Proof.
  intro Hp. induction s as [|c s IH]; simpl; [reflexivity|].
  rewrite Hp. destruct (p c); simpl; [rewrite IH|]; reflexivity.
Qed.

Lemma leading_token_prefix n prefix :
  startsWith (toUpperCase n) prefix = true ->
  existsb is_space prefix = false ->
  startsWith (toUpperCase (leading_token n)) prefix = true.
Proof.
  intros Hs Hp. apply startsWith_spec in Hs as [b Hb].
  unfold leading_token.
  rewrite take_while_upper by (intro c; rewrite is_space_upper; reflexivity).
  rewrite Hb, take_while_app_all.
  - apply startsWith_app.
  - clear Hb. induction prefix as [|x p IH]; [reflexivity|].
    simpl in *. apply orb_false_iff in Hp as [Hx Hp].
    rewrite Hx, IH by exact Hp. reflexivity.
Qed.

(** The normal form the validator works on. *)
Lemma normalized_shape sql n :
  n = replace_all WHITESPACE_RUN (lit " ") (trim sql) ->
  trim n = n /\
  forall pre c post, n = pre ++ c :: post -> is_space c = true ->
    c = " " /\ pre <> [] /\
    exists d post', post = d :: post' /\ is_space d = false.
Proof.
  intros ->. rewrite replace_all_WHITESPACE_RUN.
  assert (Hnt : no_trailing (trim sql) = true) by apply trim_end_no_trailing.
  pose proof (tidy_collapse (trim sql) false Hnt) as Htidy.
  assert (Hhead : match collapse false (trim sql) with
                  | c :: _ => is_space c = false
                  | [] => True
                  end).
  { destruct (trim sql) as [|c r] eqn:E; [exact I|].
    pose proof (trim_head _ _ _ E) as Hc. simpl. rewrite Hc. exact Hc. }
  split.
  - apply trim_fixed; [exact Hhead | apply tidy_no_trailing, Htidy].
  - intros pre c post Hn Hc. rewrite Hn in Htidy, Hhead.
    destruct (tidy_spaces _ _ _ Htidy Hc) as [H1 H2].
    repeat split; [exact H1 | | exact H2].
    intros ->. simpl in Hhead. congruence.
Qed.

(** ** The statement validator *)

(** The two outcomes of the validator. *)
Lemma validateQuery_cases (sql : jsstring) (allowed : list jsstring) :
  (valid (validateQuery sql allowed) = false
   /\ normalized (validateQuery sql allowed) = None)
  \/ (exists n,
        validateQuery sql allowed = mkValidation true None (Some n) /\
        n = replace_all WHITESPACE_RUN (lit " ") (trim sql) /\
        n <> [] /\
        existsb (fun prefix => startsWith (toUpperCase n) prefix) allowed = true).
Proof.
  unfold validateQuery.
  destruct sql as [|c0 sql0]; [left; split; reflexivity|].
  set (sql := c0 :: sql0).
  remember (replace_all WHITESPACE_RUN (lit " ") (trim sql)) as n eqn:Hn.
  cbv zeta.
  destruct (jslength n =? 0)%Z eqn:E0; [left; split; reflexivity|].
  destruct (100000 <? jslength n)%Z; [left; split; reflexivity|].
  destruct (existsb (fun prefix => startsWith (toUpperCase n) prefix) allowed) eqn:E1;
    [|left; split; reflexivity].
  cbn [negb].
  destruct (first_blocked (toUpperCase n)); [left; split; reflexivity|].
  destruct (existsb (fun pattern => test pattern n) DANGEROUS_PATTERNS);
    [left; split; reflexivity|].
  destruct ((1 <? count_matches SEMICOLON n)%Z
            || ((count_matches SEMICOLON n =? 1)%Z && negb (endsWith n (lit ";"))));
    [left; split; reflexivity|].
  right. exists n. repeat split; try reflexivity; try exact E1.
  intros ->. discriminate.
Qed.

(** C1.  An accepted statement comes with its normal form: a non-empty
    string, trimmed, in which every white-space character is a single
    space between two other characters, and which begins (case of the
    statement ignored) with one of the allowed prefixes, as does its
    leading token when the prefix has no white space.  A rejected
    statement comes with no normal form. *)
Theorem validateQuery_outcome_invariant (sql : jsstring) (allowed : list jsstring) :
  let r := validateQuery sql allowed in
  (valid r = false -> normalized r = None) /\
  (valid r = true ->
   exists n,
     normalized r = Some n /\ n <> [] /\ trim n = n /\
     (forall pre c post, n = pre ++ c :: post -> is_space c = true ->
        c = " " /\ pre <> [] /\
        exists d post', post = d :: post' /\ is_space d = false) /\
     exists prefix,
       In prefix allowed /\
       startsWith (toUpperCase n) prefix = true /\
       (existsb is_space prefix = false ->
        startsWith (toUpperCase (leading_token n)) prefix = true)).
Proof.
  cbv zeta.
  destruct (validateQuery_cases sql allowed) as [[Hv Hn] | [n [-> [Hn [Hne E1]]]]].
  - split; [intros _; exact Hn | rewrite Hv; discriminate].
  - split; [discriminate|]. intros _. exists n.
    destruct (normalized_shape sql n Hn) as [Htrim Hsp].
    split; [reflexivity|]. split; [exact Hne|].
    split; [exact Htrim|]. split; [exact Hsp|].
    apply existsb_exists in E1 as [prefix [Hin Hst]].
    exists prefix. split; [exact Hin|]. split; [exact Hst|].
    apply leading_token_prefix, Hst.
Qed.

(** C1 at work on a statement with stray white space. *)
Lemma validateQuery_outcome_invariant_witness :
  let r := validateQuery (lit "  select   1 ") ALLOWED_PREFIXES in
  valid r = true /\
  exists n, normalized r = Some n /\ n <> [] /\ trim n = n.
Proof.
  split; [reflexivity|].
  destruct (validateQuery_outcome_invariant (lit "  select   1 ") ALLOWED_PREFIXES)
    as [_ H].
  destruct (H eq_refl) as [n [H1 [H2 [H3 _]]]].
  exists n. repeat split; assumption.
Defined.

(** ** Whole words survive the normalization *)






Lemma trim_end_app a b :
  trim_end (a ++ b) =
  match trim_end b with
  | [] => trim_end a
  | r => a ++ r
  end.
Proof.
  induction a as [|x a IH].
  - simpl. destruct (trim_end b); reflexivity.
  - cbn [app trim_end]. rewrite IH.
    destruct (trim_end b) as [|y r]; [reflexivity|].
    destruct a; reflexivity.
Qed.

Lemma no_trailing_app a b : b <> [] -> no_trailing (a ++ b) = no_trailing b.
Proof.
  intro Hb. induction a as [|x a IH]; [reflexivity|].
  cbn [app no_trailing]. rewrite <- IH.
  destruct (a ++ b) eqn:E; [|reflexivity].
  apply app_eq_nil in E as [_ E]. congruence.
Qed.

Lemma collapse_app_nonspace a : forall b c x,
  is_space c = false ->
  collapse b (a ++ c :: x) = collapse b a ++ collapse false (c :: x).
Proof.
  induction a as [|y a IH]; intros b c x Hc.
  - simpl. rewrite Hc. reflexivity.
  - cbn [app collapse]. destruct (is_space y); [destruct b|];
      rewrite IH by exact Hc; reflexivity.
Qed.


Lemma collapse_tidy w : tidy w = true -> collapse false w = w.
Proof.
  induction w as [|c t IH]; [reflexivity|].
  cbn [tidy collapse]. destruct (is_space c) eqn:E.
  - intro H. apply andb_true_iff in H as [H Ht].
    apply andb_true_iff in H as [Hc Hd]. apply ascii_eqb_eq in Hc. subst c.
    rewrite collapse_in_run. destruct t as [|d t']; [discriminate|].
    apply negb_true_iff in Hd. cbn [drop_while]. rewrite Hd, (IH Ht). reflexivity.
  - intro H. rewrite (IH H). reflexivity.
Qed.






Lemma char_match_refl icase c : char_match icase c c = true.
Proof. unfold char_match. destruct icase; apply ascii_eqb_refl. Qed.

Lemma Forall2_char_match_refl icase kw :
  Forall2 (fun c x => char_match icase c x = true) kw kw.
Proof. induction kw; constructor; [apply char_match_refl | assumption]. Qed.

Lemma firstn_length_app (a b : jsstring) : firstn (length a) (a ++ b) = a.
Proof.
  rewrite firstn_app, firstn_all, Nat.sub_diag. simpl. apply app_nil_r.
Qed.





Set Warnings "-abstract-large-number".

(** C5, as stated, fails: the length that is bounded is the length of
    the normal form, so a short statement followed by 100,000 spaces is
    longer than the bound and accepted. *)
Lemma validateQuery_long_input_accepted :
  (100000 < jslength (lit "SELECT 1" ++ repeat " " 100000))%Z /\
  valid (validateQuery (lit "SELECT 1" ++ repeat " " 100000) ALLOWED_PREFIXES) = true.
Proof. vm_compute. split; reflexivity. Qed.

(** C5, amended.  A statement whose normal form (trimmed, white-space
    runs collapsed) is longer than 100,000 characters is rejected,
    whatever the allowed prefixes. *)
Theorem validateQuery_rejects_long_normal_form
    (sql : jsstring) (allowed : list jsstring) :
  (100000 < jslength (replace_all WHITESPACE_RUN (lit " ") (trim sql)))%Z ->
  valid (validateQuery sql allowed) = false.
Proof.
  intro H. unfold validateQuery.
  destruct sql as [|c0 sql0]; [reflexivity|]. cbv zeta.
  destruct (jslength _ =? 0)%Z; [reflexivity|].
  apply Z.ltb_lt in H. rewrite H. reflexivity.
Qed.

(** C5, amended, on a statement of 100,007 characters without a run of
    white space. *)
Lemma validateQuery_rejects_long_normal_form_witness :
  valid (validateQuery (lit "SELECT " ++ repeat "1" 100000) ALLOWED_PREFIXES) = false.
Proof.
  apply validateQuery_rejects_long_normal_form. vm_compute. reflexivity.
Defined.

(** ** The identifier guard *)

Lemma star_class_to_end R p s : forall prev cap (k : cont R) r,
  (forall q y t c, k q (y :: t) c = None) ->
  star_class p prev s cap k = Some r -> forallb p s = true.
Proof.
  induction s as [|x t IH]; intros prev cap k r Hk H; [reflexivity|].
  simpl in *. destruct (p x); [|rewrite Hk in H; discriminate].
  destruct (star_class p (Some x) t cap k) eqn:E.
  - exact (IH _ _ _ _ Hk E).
  - rewrite Hk in H. discriminate.
Qed.

Lemma match_here_VALID_IDENTIFIER_anchored q s :
  match_here VALID_IDENTIFIER (Some q) s = None.
Proof. reflexivity. Qed.

Lemma match_here_VALID_IDENTIFIER s r :
  match_here VALID_IDENTIFIER None s = Some r -> forallb is_ident_char s = true.
Proof.
  unfold match_here, VALID_IDENTIFIER; cbn [pat_re pat_icase RSeqs].
  rewrite rmatch_seq, rmatch_begin, rmatch_seq, rmatch_class.
  destruct s as [|x t]; [discriminate|].
  destruct (is_ident_start x) eqn:E; [|discriminate].
  rewrite rmatch_seq, rmatch_star_class. intro H.
  cbn [forallb]. rewrite (ident_start_char _ E).
  apply (star_class_to_end _ _ _ _ _ _ _ (fun _ _ _ _ => eq_refl) H).
Qed.

Lemma test_VALID_IDENTIFIER s :
  test VALID_IDENTIFIER s = true -> forallb is_ident_char s = true.
Proof.
  unfold test, exec. destruct s as [|x t].
  - reflexivity.
  - cbn [search].
    destruct (match_here VALID_IDENTIFIER None (x :: t)) as [r|] eqn:E.
    + intros _. exact (match_here_VALID_IDENTIFIER _ _ E).
    + rewrite (search_anchored VALID_IDENTIFIER match_here_VALID_IDENTIFIER_anchored).
      discriminate.
Qed.

Lemma double_quotes_ident s : forallb is_ident_char s = true -> double_quotes s = s.
Proof.
  induction s as [|c t IH]; [reflexivity|].
  cbn [forallb]. intro H. apply andb_true_iff in H as [Hc Ht].
  unfold double_quotes; cbn [flat_map]. fold (double_quotes t).
  rewrite (ident_char_not_quote _ Hc), (IH Ht). reflexivity.
Qed.

Lemma double_quotes_app a b : double_quotes (a ++ b) = double_quotes a ++ double_quotes b.
Proof. apply flat_map_app. Qed.

Lemma double_quotes_length s : (length s <= length (double_quotes s))%nat.
Proof.
  induction s as [|c t IH]; [simpl; lia|].
  unfold double_quotes; cbn [flat_map]. fold (double_quotes t).
  rewrite length_app. destruct (ascii_eqb c dquote); simpl; lia.
Qed.

Lemma quoteIdentifier_eq name :
  quoteIdentifier name = [dquote] ++ double_quotes name ++ [dquote].
Proof. unfold quoteIdentifier. rewrite replace_all_DOUBLE_QUOTE. reflexivity. Qed.

Lemma sanitized_is_identifier name type s :
  sanitized (validateIdentifier name type) = Some s ->
  forallb is_ident_char s = true.
Proof.
  unfold validateIdentifier. destruct name as [|c0 name0]; [discriminate|].
  set (name := c0 :: name0). cbv zeta.
  destruct (jslength (trim name) =? 0)%Z; [discriminate|].
  destruct (MAX_IDENTIFIER_LENGTH <? jslength (trim name))%Z; [discriminate|].
  destruct (test VALID_IDENTIFIER (trim name)) eqn:E; [|discriminate].
  cbn [negb].
  destruct (existsb _ RESERVED_KEYWORDS); cbn [sanitized];
    intro H; injection H as <-; apply test_VALID_IDENTIFIER, E.
Qed.

(** C8, as stated, fails: quoting a quoted name quotes it again. *)
Lemma quoteIdentifier_not_idempotent_example :
  quoteIdentifier (quoteIdentifier (lit "users")) <> quoteIdentifier (lit "users").
Proof. vm_compute. discriminate. Qed.

(** C8, amended.  Quoting yields the name with every double quote
    doubled, between two double quotes; on a sanitized name nothing is
    doubled and the result is the name between two double quotes.
    Quoting is not idempotent: quoting a quoted name doubles its two outer
    quotes and wraps it once more. *)
Theorem quoteIdentifier_shape (name : jsstring) (type : identifier_type) :
  quoteIdentifier name = [dquote] ++ double_quotes name ++ [dquote] /\
  match sanitized (validateIdentifier name type) with
  | Some s => quoteIdentifier s = [dquote] ++ s ++ [dquote]
  | None => True
  end /\
  quoteIdentifier (quoteIdentifier name)
  = [dquote; dquote; dquote] ++ double_quotes (double_quotes name)
      ++ [dquote; dquote; dquote] /\
  quoteIdentifier (quoteIdentifier name) <> quoteIdentifier name.
Proof.
  split; [apply quoteIdentifier_eq|]. split.
  { destruct (sanitized (validateIdentifier name type)) as [s|] eqn:E; [|exact I].
    rewrite quoteIdentifier_eq,
      (double_quotes_ident _ (sanitized_is_identifier _ _ _ E)).
    reflexivity. }
  assert (Hqq : quoteIdentifier (quoteIdentifier name)
                = [dquote; dquote; dquote] ++ double_quotes (double_quotes name)
                    ++ [dquote; dquote; dquote]).
  { rewrite (quoteIdentifier_eq (quoteIdentifier name)), (quoteIdentifier_eq name).
    rewrite !double_quotes_app. cbn. rewrite <- app_assoc. reflexivity. }
  split; [exact Hqq|].
  intro H. apply (f_equal (@length ascii)) in H.
  rewrite Hqq, quoteIdentifier_eq in H. rewrite !length_app in H.
  pose proof (double_quotes_length (double_quotes name)). simpl in H. lia.
Qed.

(** ** The limit rewriter *)

Lemma find_first_some A (f : jsstring -> option (jsstring * A)) s :
  forall acc b r a,
    find_first f acc s = Some (b, r, a) ->
    exists s1 s2, s = s1 ++ s2 /\ b = rev acc ++ s1 /\ f s2 = Some (r, a).
Proof.
  induction s as [|x s IH]; intros acc b r a H; simpl in H.
  - destruct (f []) as [[r' a']|] eqn:E; [|discriminate].
    injection H as <- <- <-. exists [], []. rewrite !app_nil_r. auto.
  - destruct (f (x :: s)) as [[r' a']|] eqn:E.
    + injection H as <- <- <-. exists [], (x :: s). rewrite !app_nil_r. auto.
    + destruct (IH _ _ _ _ H) as [s1 [s2 [-> [-> Hf]]]].
      exists (x :: s1), s2. simpl. rewrite <- app_assoc. auto.
Qed.

Lemma find_first_hit A (f : jsstring -> option (jsstring * A)) s1 :
  forall acc s2, f s2 <> None -> find_first f acc (s1 ++ s2) <> None.
Proof.
  induction s1 as [|x s1 IH]; intros acc s2 H.
  - simpl. destruct s2; simpl; destruct (f _) as [[? ?]|]; congruence.
  - simpl. destruct (f (x :: s1 ++ s2)) as [[? ?]|]; [discriminate|].
    apply IH, H.
Qed.

Lemma find_first_map A B (g : A -> B) (f : jsstring -> option (jsstring * A)) s :
  forall acc,
    find_first (fun t => option_map (fun x => (fst x, g (snd x))) (f t)) acc s
    = option_map (fun y => (fst y, g (snd y))) (find_first f acc s).
Proof.
  induction s as [|x s IH]; intros acc; simpl.
  - destruct (f []) as [[? ?]|]; reflexivity.
  - destruct (f (x :: s)) as [[? ?]|]; [reflexivity | apply IH].
Qed.

Lemma nonempty_true s : nonempty s = true -> s <> [].
Proof. destruct s; [discriminate | discriminate]. Qed.

Lemma limit_here_some icase s r ds :
  limit_here icase s = Some (r, ds) ->
  exists k w,
    s = k ++ w ++ ds ++ r /\
    Forall2 (fun c x => char_match icase c x = true) (lit "LIMIT") k /\
    w <> [] /\ forallb is_space w = true /\
    ds <> [] /\ forallb is_digit ds = true /\
    match r with c :: _ => is_digit c = false | [] => True end.
Proof.
  unfold limit_here.
  destruct (strip_prefix icase (lit "LIMIT") s) as [r1|] eqn:E; [|discriminate].
  destruct (strip_prefix_inv _ _ _ _ E) as [k [-> Hk]].
  destruct (nonempty (take_while is_space r1)) eqn:Ew; [|discriminate].
  destruct (nonempty (take_while is_digit (drop_while is_space r1))) eqn:Ed;
    [|discriminate].
  cbn [andb]. intro H. injection H as <- <-.
  exists k, (take_while is_space r1).
  rewrite !take_drop_while.
  repeat split; try assumption.
  - apply nonempty_true, Ew.
  - apply take_while_all.
  - apply nonempty_true, Ed.
  - apply take_while_all.
  - destruct (drop_while is_digit (drop_while is_space r1)) eqn:E2; [exact I|].
    exact (drop_while_head _ _ _ _ E2).
Qed.

Lemma take_while_stop p a c b :
  forallb p a = true -> p c = false -> take_while p (a ++ c :: b) = a.
Proof.
  intros Ha Hc. rewrite take_while_app_all by exact Ha.
  simpl. rewrite Hc. apply app_nil_r.
Qed.

Lemma drop_while_stop p a c b :
  forallb p a = true -> p c = false -> drop_while p (a ++ c :: b) = c :: b.
Proof.
  intros Ha Hc. rewrite drop_while_app_all by exact Ha.
  simpl. rewrite Hc. reflexivity.
Qed.

Lemma limit_here_token w ds post :
  w <> [] -> forallb is_space w = true ->
  ds <> [] -> forallb is_digit ds = true ->
  limit_here false (lit "LIMIT" ++ w ++ ds ++ post) <> None.
Proof.
  intros Hw Hws Hd Hds. unfold limit_here.
  rewrite (strip_prefix_app false _ _ _ (Forall2_char_match_refl false (lit "LIMIT"))).
  destruct ds as [|d ds']; [congruence|].
  cbn [forallb] in Hds. apply andb_true_iff in Hds as [Hd1 Hds'].
  change ((d :: ds') ++ post) with (d :: ds' ++ post).
  rewrite take_while_stop, drop_while_stop
    by (try exact Hws; apply digit_not_space, Hd1).
  destruct w; [congruence|]. simpl. rewrite Hd1. discriminate.
Qed.

Lemma Forall2_exact kw k :
  Forall2 (fun c x => char_match false c x = true) kw k -> k = kw.
Proof.
  induction 1 as [|c x kw k Hc _ IH]; [reflexivity|].
  apply ascii_eqb_eq in Hc. congruence.
Qed.

(** The search of [/LIMIT\s+(\d+)/] finds a token when there is one, and
    only then. *)
Lemma limit_token_found s :
  has_limit_token s <-> find_first (limit_here false) [] s <> None.
Proof.
  split.
  - intros [ds [pre [w [post [-> [Hw [Hws [Hd Hds]]]]]]]].
    apply find_first_hit, limit_here_token; assumption.
  - destruct (find_first (limit_here false) [] s) as [[[b r] ds]|] eqn:E;
      [intros _ | congruence].
    destruct (find_first_some _ _ _ _ _ _ _ E) as [s1 [s2 [-> [_ Hf]]]].
    destruct (limit_here_some _ _ _ _ Hf) as [k [w [-> [Hk [Hw [Hws [Hd [Hds _]]]]]]]].
    rewrite (Forall2_exact _ _ Hk).
    exists ds, s1, w, r. auto.
Qed.

Lemma exec_LIMIT_CAPTURE s :
  exec LIMIT_CAPTURE s =
  option_map (fun y => MatchResult (fst (fst y)) (snd (fst y)) (Some (snd y)))
             (find_first (limit_here false) [] s).
Proof.
  unfold exec.
  rewrite (search_find LIMIT_CAPTURE _ match_here_LIMIT_CAPTURE).
  rewrite (find_first_map _ _ Some (limit_here false)).
  destruct (find_first (limit_here false) [] s) as [[[? ?] ?]|]; reflexivity.
Qed.

Lemma exec_LIMIT_CLAUSE s :
  exec LIMIT_CLAUSE s =
  option_map (fun y => MatchResult (fst (fst y)) (snd (fst y)) None)
             (find_first (limit_here true) [] s).
Proof.
  unfold exec.
  rewrite (search_find LIMIT_CLAUSE _ match_here_LIMIT_CLAUSE).
  rewrite (find_first_map _ _ (fun _ : jsstring => @None jsstring) (limit_here true)).
  destruct (find_first (limit_here true) [] s) as [[[? ?] ?]|]; reflexivity.
Qed.

(** C10, as stated, fails.  The test for [' LIMIT '] is made after
    trimming: a statement that ends with the [' LIMIT '] it contains
    has no [LIMIT <digits>] token and yet is not returned as it is,
    trimmed; a clause is appended to it.  The validator never hands over
    such a statement. *)
Lemma enforceLimit_trailing_limit_appends :
  includes (toUpperCase (lit "SELECT 1 LIMIT ")) (lit " LIMIT ") = true /\
  ~ has_limit_token (toUpperCase (lit "SELECT 1 LIMIT ")) /\
  enforceLimit (lit "SELECT 1 LIMIT ") 5 = lit "SELECT 1 LIMIT LIMIT 5" /\
  enforceLimit (lit "SELECT 1 LIMIT ") 5 <> trim (lit "SELECT 1 LIMIT ").
Proof.
  split; [reflexivity|]. split.
  - rewrite limit_token_found. vm_compute. congruence.
  - split; [reflexivity | vm_compute; discriminate].
Qed.

(** C10, amended.  When the statement, once trimmed, contains
    [' LIMIT '] (in any letter case) and no [LIMIT <digits>] token, the
    rewriter returns the trimmed statement: nothing is clamped and
    nothing is appended.  The statements the callers pass are trimmed
    already. *)
Theorem enforceLimit_keeps_unparsed_limit (sql : jsstring) (maxLimit : Z) :
  includes (toUpperCase (trim sql)) (lit " LIMIT ") = true ->
  ~ has_limit_token (toUpperCase (trim sql)) ->
  enforceLimit sql maxLimit = trim sql.
Proof.
  intros Hinc Hno. unfold enforceLimit. cbv zeta. rewrite Hinc.
  rewrite exec_LIMIT_CAPTURE.
  destruct (find_first (limit_here false) [] (toUpperCase (trim sql))) eqn:E;
    [|reflexivity].
  exfalso. apply Hno, limit_token_found. congruence.
Qed.

(** C10, amended, on the statement of the claim. *)
Lemma enforceLimit_keeps_unparsed_limit_witness :
  enforceLimit (lit "SELECT * FROM t LIMIT ALL") 1000 = lit "SELECT * FROM t LIMIT ALL".
Proof.
  apply (enforceLimit_keeps_unparsed_limit (lit "SELECT * FROM t LIMIT ALL") 1000).
  - reflexivity.
  - rewrite limit_token_found. vm_compute. congruence.
Defined.

(** *** What follows a clause does not change what is found before it *)

Lemma drop_while_nil p a : drop_while p a = [] -> forallb p a = true.
Proof.
  induction a as [|c a IH]; [reflexivity|]. simpl.
  destruct (p c); [exact IH | discriminate].
Qed.

Lemma take_while_app_stop p a b :
  drop_while p a <> [] -> take_while p (a ++ b) = take_while p a.
Proof.
  induction a as [|c a IH]; [intro H; exfalso; apply H; reflexivity|]. simpl.
  destruct (p c); [|reflexivity]. intro H. rewrite (IH H). reflexivity.
Qed.

Lemma tail_ok_digits y :
  tail_ok y = true -> take_while is_digit y = [] /\ drop_while is_digit y = y.
Proof.
  unfold tail_ok. destruct y as [|c t]; [auto|]. intro H.
  apply andb_true_iff in H as [H _].
  repeat (apply andb_true_iff in H as [H _]).
  apply negb_true_iff in H. simpl. rewrite H. auto.
Qed.

Lemma tail_ok_space_digits y :
  tail_ok y = true -> take_while is_digit (drop_while is_space y) = [].
Proof.
  unfold tail_ok. intro H. apply andb_true_iff in H as [_ H].
  destruct (drop_while is_space y) as [|c t]; [reflexivity|].
  apply negb_true_iff in H. simpl. rewrite H. reflexivity.
Qed.

Lemma tail_ok_letters icase c t :
  tail_ok (c :: t) = true ->
  char_match icase "I" c = false /\ char_match icase "M" c = false
  /\ char_match icase "T" c = false.
Proof.
  unfold tail_ok. intro H. apply andb_true_iff in H as [H _].
  apply andb_true_iff in H as [H HT]. apply andb_true_iff in H as [H HM].
  apply andb_true_iff in H as [_ HI].
  apply negb_true_iff in HI, HM, HT.
  assert (G : forall l, upper_char l = l -> ascii_eqb (upper_char c) l = false ->
                char_match icase l c = false).
  { intros l Hl Hc. unfold char_match. destruct icase.
    - rewrite Hl, ascii_eqb_sym. exact Hc.
    - destruct (ascii_eqb l c) eqn:E; [|reflexivity].
      apply ascii_eqb_eq in E. subst c. rewrite Hl, ascii_eqb_refl in Hc.
      discriminate. }
  repeat split; apply G; first [reflexivity | assumption].
Qed.

Lemma strip_prefix_LIMIT_tail icase x y y' :
  x <> [] -> tail_ok y = true -> tail_ok y' = true ->
  exists o,
    strip_prefix icase (lit "LIMIT") (x ++ y) = option_map (fun x1 => x1 ++ y) o /\
    strip_prefix icase (lit "LIMIT") (x ++ y') = option_map (fun x1 => x1 ++ y') o.
Proof.
  intros Hx Hy Hy'.
  change (lit "LIMIT") with ["L"; "I"; "M"; "I"; "T"].
  assert (Short : forall (z : jsstring),
            tail_ok z = true ->
            match z with
            | [] => True
            | c :: _ => char_match icase "I" c = false /\ char_match icase "M" c = false
                        /\ char_match icase "T" c = false
            end).
  { intros [|c t] Hz; [exact I | exact (tail_ok_letters icase c t Hz)]. }
  pose proof (Short y Hy) as Sy. pose proof (Short y' Hy') as Sy'.
  destruct x as [|c1 [|c2 [|c3 [|c4 [|c5 x1]]]]];
    [exfalso; apply Hx; reflexivity| | | | |]; cbn [app strip_prefix].
  - destruct (char_match icase "L" c1); [|exists None; auto].
    destruct y as [|d t], y' as [|d' t']; simpl;
      repeat match goal with
             | H : _ /\ _ |- _ => destruct H as [? ?]
             | H : char_match _ _ _ = false |- _ => rewrite H
             end; exists None; auto.
  - destruct (char_match icase "L" c1); [|exists None; auto].
    destruct (char_match icase "I" c2); [|exists None; auto].
    destruct y as [|d t], y' as [|d' t']; simpl;
      repeat match goal with
             | H : _ /\ _ |- _ => destruct H as [? ?]
             | H : char_match _ _ _ = false |- _ => rewrite H
             end; exists None; auto.
  - destruct (char_match icase "L" c1); [|exists None; auto].
    destruct (char_match icase "I" c2); [|exists None; auto].
    destruct (char_match icase "M" c3); [|exists None; auto].
    destruct y as [|d t], y' as [|d' t']; simpl;
      repeat match goal with
             | H : _ /\ _ |- _ => destruct H as [? ?]
             | H : char_match _ _ _ = false |- _ => rewrite H
             end; exists None; auto.
  - destruct (char_match icase "L" c1); [|exists None; auto].
    destruct (char_match icase "I" c2); [|exists None; auto].
    destruct (char_match icase "M" c3); [|exists None; auto].
    destruct (char_match icase "I" c4); [|exists None; auto].
    destruct y as [|d t], y' as [|d' t']; simpl;
      repeat match goal with
             | H : _ /\ _ |- _ => destruct H as [? ?]
             | H : char_match _ _ _ = false |- _ => rewrite H
             end; exists None; auto.
  - destruct (char_match icase "L" c1); [|exists None; auto].
    destruct (char_match icase "I" c2); [|exists None; auto].
    destruct (char_match icase "M" c3); [|exists None; auto].
    destruct (char_match icase "I" c4); [|exists None; auto].
    destruct (char_match icase "T" c5); [|exists None; auto].
    exists (Some x1). auto.
Qed.

Lemma limit_here_tail icase x y y' :
  x <> [] -> tail_ok y = true -> tail_ok y' = true ->
  exists o : option (jsstring * jsstring),
    limit_here icase (x ++ y) = option_map (fun p => (fst p ++ y, snd p)) o /\
    limit_here icase (x ++ y') = option_map (fun p => (fst p ++ y', snd p)) o.
Proof.
  intros Hx Hy Hy'. unfold limit_here.
  destruct (strip_prefix_LIMIT_tail icase x y y' Hx Hy Hy') as [[x1|] [-> ->]];
    cbn [option_map]; [|exists None; auto].
  destruct (drop_while is_space x1) as [|c r] eqn:Ews.
  - (* the white space runs into the tail *)
    exists None. rewrite !drop_while_app, Ews.
    rewrite (tail_ok_space_digits y Hy), (tail_ok_space_digits y' Hy').
    cbn [nonempty]. rewrite !andb_false_r. auto.
  - assert (Hne : drop_while is_space x1 <> []) by (rewrite Ews; discriminate).
    rewrite !drop_while_app, Ews, !(take_while_app_stop _ _ _ Hne).
    destruct (nonempty (take_while is_space x1)); [|exists None; auto].
    cbn [andb].
    destruct (drop_while is_digit (c :: r)) as [|d r'] eqn:Ed.
    + (* the digits run up to the tail *)
      pose proof (drop_while_nil _ _ Ed) as Hall.
      rewrite !(take_while_app_all _ _ _ Hall), !(drop_while_app_all _ _ _ Hall).
      destruct (tail_ok_digits y Hy) as [-> ->].
      destruct (tail_ok_digits y' Hy') as [-> ->].
      rewrite app_nil_r. exists (Some ([], c :: r)). auto.
    + assert (Hne' : drop_while is_digit (c :: r) <> []) by (rewrite Ed; discriminate).
      rewrite !(take_while_app_stop _ _ _ Hne'), !drop_while_app, Ed.
      destruct (nonempty (take_while is_digit (c :: r))).
      * exists (Some (d :: r', take_while is_digit (c :: r))). auto.
      * exists None. auto.
Qed.

Lemma find_first_tail icase x : forall acc y y',
  tail_ok y = true -> tail_ok y' = true ->
  (exists x1 x2 r0 ds,
      x = x1 ++ x2 /\ x2 <> [] /\
      find_first (limit_here icase) acc (x ++ y) = Some (rev acc ++ x1, r0 ++ y, ds) /\
      find_first (limit_here icase) acc (x ++ y') = Some (rev acc ++ x1, r0 ++ y', ds))
  \/ (find_first (limit_here icase) acc (x ++ y)
      = find_first (limit_here icase) (rev x ++ acc) y /\
      find_first (limit_here icase) acc (x ++ y')
      = find_first (limit_here icase) (rev x ++ acc) y').
Proof.
  induction x as [|c x IH]; intros acc y y' Hy Hy'.
  - right. auto.
  - assert (Hne : c :: x <> []) by discriminate.
    destruct (limit_here_tail icase (c :: x) y y' Hne Hy Hy') as [[[r0 ds]|] [E E']].
    + left. exists [], (c :: x), r0, ds. rewrite app_nil_r.
      repeat split; [assumption | |].
      * cbn [app find_first]. cbn [app] in E. rewrite E. reflexivity.
      * cbn [app find_first]. cbn [app] in E'. rewrite E'. reflexivity.
    + cbn [app find_first]. cbn [app option_map] in E, E'. rewrite E, E'.
      destruct (IH (c :: acc) y y' Hy Hy')
        as [[x1 [x2 [r0 [ds [-> [Hx2 [F F']]]]]]] | [F F']].
      * left. exists (c :: x1), x2, r0, ds.
        cbn [rev] in F, F'. rewrite <- (app_assoc (rev acc) [c] x1) in F, F'.
        repeat split; assumption.
      * right. cbn [rev]. rewrite <- (app_assoc (rev x) [c] acc). auto.
Qed.

(** *** Matching in the statement and in its upper-case form *)

Lemma strip_prefix_upper kw : forall s,
  toUpperCase kw = kw ->
  strip_prefix false kw (toUpperCase s) = option_map toUpperCase (strip_prefix true kw s).
Proof.
  induction kw as [|a kw IH]; intros s H; [reflexivity|].
  cbn [toUpperCase map] in H. injection H as Ha Hkw.
  destruct s as [|x t]; [reflexivity|].
  cbn [toUpperCase map strip_prefix]. unfold char_match. rewrite Ha.
  destruct (ascii_eqb a (upper_char x)); [apply IH, Hkw | reflexivity].
Qed.

Lemma drop_while_upper (p : ascii -> bool) s :
  (forall c, p (upper_char c) = p c) ->
  toUpperCase (drop_while p s) = drop_while p (toUpperCase s).
Proof.
  intro Hp. induction s as [|c s IH]; simpl; [reflexivity|].
  rewrite Hp. destruct (p c); [exact IH | reflexivity].
Qed.

Lemma toUpperCase_digits ds : forallb is_digit ds = true -> toUpperCase ds = ds.
Proof.
  induction ds as [|d ds IH]; [reflexivity|]. cbn [forallb].
  intro H. apply andb_true_iff in H as [Hd Hds].
  cbn [toUpperCase map]. fold (toUpperCase ds).
  rewrite (digit_upper_fixed _ Hd), (IH Hds). reflexivity.
Qed.

Lemma nonempty_upper s : nonempty (toUpperCase s) = nonempty s.
Proof. destruct s; reflexivity. Qed.

Lemma limit_here_upper s :
  limit_here false (toUpperCase s)
  = option_map (fun p => (toUpperCase (fst p), snd p)) (limit_here true s).
Proof.
  unfold limit_here. rewrite strip_prefix_upper by reflexivity.
  destruct (strip_prefix true (lit "LIMIT") s) as [r1|]; [|reflexivity].
  cbn [option_map].
  rewrite <- (drop_while_upper is_space r1 is_space_upper).
  rewrite <- (take_while_upper is_space r1 is_space_upper).
  rewrite <- (drop_while_upper is_digit _ is_digit_upper).
  rewrite <- (take_while_upper is_digit _ is_digit_upper).
  rewrite !nonempty_upper.
  rewrite (toUpperCase_digits _ (take_while_all is_digit _)).
  destruct (nonempty _ && nonempty _); reflexivity.
Qed.

Lemma find_first_upper s : forall acc,
  find_first (limit_here false) (toUpperCase acc) (toUpperCase s)
  = option_map (fun t => (toUpperCase (fst (fst t)), toUpperCase (snd (fst t)), snd t))
               (find_first (limit_here true) acc s).
Proof.
  induction s as [|x s IH]; intros acc.
  - cbn [toUpperCase map find_first].
    change (@nil ascii) with (toUpperCase []) at 1. rewrite limit_here_upper.
    destruct (limit_here true []) as [[? ?]|]; [|reflexivity].
    cbn. unfold toUpperCase. rewrite map_rev. reflexivity.
  - cbn [find_first]. change (toUpperCase (x :: s)) with (upper_char x :: toUpperCase s).
    cbn [find_first]. change (upper_char x :: toUpperCase s) with (toUpperCase (x :: s)).
    rewrite limit_here_upper.
    destruct (limit_here true (x :: s)) as [[? ?]|].
    + cbn. unfold toUpperCase. rewrite map_rev. reflexivity.
    + cbn [option_map]. apply (IH (x :: acc)).
Qed.

(** The rewriter, in terms of the first clause of the statement. *)
Lemma enforceLimit_eq sql maxLimit :
  enforceLimit sql maxLimit =
  let n := trim sql in
  if includes (toUpperCase n) (lit " LIMIT ") then
    match find_first (limit_here true) [] n with
    | Some (b, r, ds) =>
        if (maxLimit <? parseInt ds)%Z
        then b ++ (lit "LIMIT " ++ Number_toString maxLimit) ++ r
        else n
    | None => n
    end
  else if startsWith (toUpperCase n) (lit "EXPLAIN")
          || startsWith (toUpperCase n) (lit "SHOW") then n
  else strip_semi n ++ lit " LIMIT " ++ Number_toString maxLimit.
Proof.
  unfold enforceLimit. cbv zeta.
  destruct (includes (toUpperCase (trim sql)) (lit " LIMIT ")).
  - rewrite exec_LIMIT_CAPTURE.
    pose proof (find_first_upper (trim sql) []) as U.
    change (toUpperCase []) with (@nil ascii) in U. rewrite U.
    unfold replace. rewrite exec_LIMIT_CLAUSE.
    destruct (find_first (limit_here true) [] (trim sql)) as [[[b r] ds]|];
      reflexivity.
  - rewrite !replace_TRAILING_SEMI.
    destruct (startsWith (toUpperCase (trim sql)) (lit "EXPLAIN")); [reflexivity|].
    destruct (startsWith (toUpperCase (trim sql)) (lit "SHOW")); [reflexivity|].
    destruct (startsWith (toUpperCase (trim sql)) (lit "WITH")); reflexivity.
Qed.

(** *** Facts about [trim] and [includes] *)

Lemma trim_inv n :
  trim n = n ->
  match n with c :: _ => is_space c = false | [] => True end /\ no_trailing n = true.
Proof.
  intro H. split.
  - destruct n as [|c r]; [exact I|]. exact (trim_head _ _ _ H).
  - rewrite <- H. apply trim_end_no_trailing.
Qed.


Lemma no_trailing_digits d : forallb is_digit d = true -> no_trailing d = true.
Proof.
  induction d as [|c t IH]; [reflexivity|]. cbn [forallb no_trailing].
  intro H. apply andb_true_iff in H as [Hc Ht].
  destruct t; [rewrite (digit_not_space _ Hc); reflexivity | apply IH, Ht].
Qed.

Lemma includes_app_l x y p : includes x p = true -> includes (x ++ y) p = true.
Proof.
  rewrite !includes_spec. intros [a [b ->]]. exists a, (b ++ y).
  rewrite <- !app_assoc. reflexivity.
Qed.

Lemma includes_app_r x y p : includes y p = true -> includes (x ++ y) p = true.
Proof.
  rewrite !includes_spec. intros [a [b ->]]. exists (x ++ a), b.
  rewrite <- !app_assoc. reflexivity.
Qed.

Lemma startsWith_app_long p : forall x y,
  (length p <= length x)%nat -> startsWith (x ++ y) p = startsWith x p.
Proof.
  induction p as [|a p IH]; intros x y H; [reflexivity|].
  destruct x as [|c x]; [simpl in H; lia|].
  cbn [app startsWith]. rewrite IH by (simpl in H; lia). reflexivity.
Qed.

Lemma includes_app_cases x : forall y p,
  includes (x ++ y) p = true ->
  includes x p = true
  \/ (exists x1 x2, x = x1 ++ x2 /\ x2 <> [] /\ (length x2 < length p)%nat
                    /\ startsWith (x2 ++ y) p = true)
  \/ includes y p = true.
Proof.
  induction x as [|c x IH]; intros y p H.
  - right. right. exact H.
  - cbn [app includes] in H. apply orb_true_iff in H as [H | H].
    + destruct (Nat.le_gt_cases (length p) (length (c :: x))) as [L | L].
      * left. cbn [includes]. change (c :: x ++ y) with ((c :: x) ++ y) in H.
        rewrite startsWith_app_long in H by exact L. rewrite H. reflexivity.
      * right. left. exists [], (c :: x). repeat split; [discriminate | exact L | exact H].
    + destruct (IH y p H) as [G | [[x1 [x2 [-> [Hne [Hl Hs]]]]] | G]].
      * left. cbn [includes]. rewrite G. apply orb_true_r.
      * right. left. exists (c :: x1), x2. repeat split; assumption.
      * right. right. exact G.
Qed.


Lemma space_not_L c : is_space c = true -> ascii_eqb "L" c = false.
Proof. all_chars c. Qed.

Lemma digit_not_L c : is_digit c = true -> ascii_eqb "L" c = false.
Proof. all_chars c. Qed.

Lemma digit_not_blank c : is_digit c = true -> ascii_eqb " " c = false.
Proof. all_chars c. Qed.

Lemma includes_skip c t :
  ascii_eqb " " c = false -> includes (c :: t) (lit " LIMIT ") = includes t (lit " LIMIT ").
Proof. intro H. cbn [lit list_ascii_of_string includes startsWith]. rewrite H. reflexivity. Qed.

Lemma includes_skip_before c d t :
  ascii_eqb "L" d = false ->
  includes (c :: d :: t) (lit " LIMIT ") = includes (d :: t) (lit " LIMIT ").
Proof.
  intro H. cbn [lit list_ascii_of_string includes startsWith]. rewrite H.
  rewrite andb_false_r. reflexivity.
Qed.

Lemma includes_digits ds : forall y,
  forallb is_digit ds = true ->
  includes (ds ++ y) (lit " LIMIT ") = includes y (lit " LIMIT ").
Proof.
  induction ds as [|d ds IH]; intros y H; [reflexivity|].
  cbn [forallb] in H. apply andb_true_iff in H as [Hd Hds].
  cbn [app]. rewrite includes_skip by (apply digit_not_blank, Hd). apply IH, Hds.
Qed.

Lemma includes_ws_digits w : forall ds y,
  forallb is_space w = true -> forallb is_digit ds = true -> ds <> [] ->
  includes (w ++ ds ++ y) (lit " LIMIT ") = includes y (lit " LIMIT ").
Proof.
  induction w as [|c w IH]; intros ds y Hw Hds Hne.
  - cbn [app]. apply includes_digits, Hds.
  - cbn [forallb] in Hw. apply andb_true_iff in Hw as [Hc Hw].
    rewrite <- (IH ds y Hw Hds Hne). cbn [app].
    destruct w as [|d w'].
    + destruct ds as [|d ds']; [congruence|]. cbn [app].
      cbn [forallb] in Hds. apply andb_true_iff in Hds as [Hd _].
      apply includes_skip_before, digit_not_L, Hd.
    + cbn [forallb] in Hw. apply andb_true_iff in Hw as [Hd _].
      apply includes_skip_before, space_not_L, Hd.
Qed.

Lemma straddle x2 z :
  x2 <> [] -> (length x2 < 7)%nat ->
  startsWith (x2 ++ "L" :: z) (lit " LIMIT ") = true -> x2 = [" "].
Proof.
  intros Hne Hl H.
  destruct x2 as [|a1 [|a2 [|a3 [|a4 [|a5 [|a6 [|a7 x]]]]]]];
    [congruence | | | | | | | simpl in Hl; lia];
    cbn [lit list_ascii_of_string app startsWith] in H;
    repeat (apply andb_true_iff in H; destruct H as [?E H]);
    repeat match goal with
           | E : ascii_eqb _ _ = true |- _ => apply ascii_eqb_eq in E
           end;
    try discriminate; subst; reflexivity.
Qed.

Lemma Forall2_upper kw k :
  Forall2 (fun c x => char_match true c x = true) kw k ->
  toUpperCase k = toUpperCase kw.
Proof.
  induction 1 as [|c x kw k Hc _ IH]; [reflexivity|].
  cbn [toUpperCase map]. fold (toUpperCase k) (toUpperCase kw).
  rewrite (char_match_upper _ _ _ Hc), IH. reflexivity.
Qed.

(** The [' LIMIT '] of a statement survives the replacement of its
    first clause. *)
Lemma includes_replaced ub uw ds ur dec :
  forallb is_space uw = true -> forallb is_digit ds = true -> ds <> [] ->
  includes (ub ++ lit "LIMIT" ++ uw ++ ds ++ ur) (lit " LIMIT ") = true ->
  includes (ub ++ (lit "LIMIT " ++ dec) ++ ur) (lit " LIMIT ") = true.
Proof.
  intros Hw Hds Hne H.
  destruct (includes_app_cases _ _ _ H) as [G | [[x1 [x2 [-> [Hx2 [Hl Hs]]]]] | G]].
  - apply includes_app_l, G.
  - change (lit "LIMIT" ++ uw ++ ds ++ ur)
      with ("L" :: (lit "IMIT" ++ uw ++ ds ++ ur)) in Hs.
    rewrite (straddle _ _ Hx2 Hl Hs).
    apply includes_spec. exists x1, (dec ++ ur).
    rewrite <- !app_assoc. reflexivity.
  - apply includes_app_r, includes_app_r.
    change (lit "LIMIT" ++ uw ++ ds ++ ur)
      with ("L" :: "I" :: "M" :: "I" :: "T" :: (uw ++ ds ++ ur)) in G.
    rewrite !includes_skip in G by reflexivity.
    rewrite includes_ws_digits in G by assumption. exact G.
Qed.

(** A clause that was just written is read back with its number. *)
Lemma limit_here_fresh n r :
  (0 <= n)%Z ->
  match r with c :: _ => is_digit c = false | [] => True end ->
  limit_here true ((lit "LIMIT " ++ Number_toString n) ++ r) = Some (r, Number_toString n).
Proof.
  intros Hn Hr. unfold limit_here.
  change ((lit "LIMIT " ++ Number_toString n) ++ r)
    with (lit "LIMIT" ++ " " :: (Number_toString n ++ r)).
  rewrite (strip_prefix_app true _ _ _ (Forall2_char_match_refl true (lit "LIMIT"))).
  pose proof (Number_toString_digits n Hn) as Hd.
  pose proof (Number_toString_nonempty n) as Hne.
  destruct (Number_toString n) as [|d ds]; [congruence|].
  cbn [forallb] in Hd. apply andb_true_iff in Hd as [Hd Hds].
  cbn [app take_while drop_while]. change (is_space " ") with true. cbv iota.
  rewrite (digit_not_space _ Hd). cbn [take_while drop_while]. rewrite Hd.
  cbn [nonempty andb].
  rewrite take_while_app_all, drop_while_app_all by exact Hds.
  destruct r as [|c r']; [rewrite app_nil_r; reflexivity|].
  cbn [take_while drop_while]. rewrite Hr, app_nil_r. reflexivity.
Qed.

Lemma tail_ok_L c t : upper_char c = "L" -> tail_ok (c :: t) = true.
Proof. all_chars c. Qed.

(** *** Applying the rewriter twice *)

Lemma find_first_here A (f : jsstring -> option (jsstring * A)) acc s rest a :
  f s = Some (rest, a) -> find_first f acc s = Some (rev acc, rest, a).
Proof. intro H. destruct s; simpl; rewrite H; reflexivity. Qed.

Lemma limit_here_blank t : limit_here true (" " :: t) = None.
Proof. reflexivity. Qed.

Lemma forallb_upper (p : ascii -> bool) s :
  (forall c, p (upper_char c) = p c) ->
  forallb p (toUpperCase s) = forallb p s.
Proof.
  intro Hp. induction s as [|c s IH]; [reflexivity|].
  cbn [toUpperCase map forallb]. fold (toUpperCase s). rewrite Hp, IH. reflexivity.
Qed.

Lemma first_clause_shape n b r ds :
  find_first (limit_here true) [] n = Some (b, r, ds) ->
  exists k w,
    n = b ++ k ++ w ++ ds ++ r /\
    Forall2 (fun c x => char_match true c x = true) (lit "LIMIT") k /\
    w <> [] /\ forallb is_space w = true /\
    ds <> [] /\ forallb is_digit ds = true /\
    match r with c :: _ => is_digit c = false | [] => True end.
Proof.
  intro F.
  destruct (find_first_some _ _ _ _ _ _ _ F) as [s1 [s2 [-> [-> Hf]]]].
  destruct (limit_here_some _ _ _ _ Hf) as [k [w [-> H]]].
  exists k, w. split; [reflexivity | exact H].
Qed.

Lemma upper_shape b k w ds r :
  Forall2 (fun c x => char_match true c x = true) (lit "LIMIT") k ->
  forallb is_digit ds = true ->
  toUpperCase (b ++ k ++ w ++ ds ++ r)
  = toUpperCase b ++ lit "LIMIT" ++ toUpperCase w ++ ds ++ toUpperCase r.
Proof.
  intros Hk Hds. rewrite !toUpperCase_app, (Forall2_upper _ _ Hk),
    (toUpperCase_digits _ Hds). reflexivity.
Qed.

Lemma first_clause_token n b r ds :
  find_first (limit_here true) [] n = Some (b, r, ds) ->
  limit_token (toUpperCase n) ds.
Proof.
  intro F.
  destruct (first_clause_shape _ _ _ _ F) as [k [w [-> [Hk [Hw [Hws [Hd [Hds _]]]]]]]].
  exists (toUpperCase b), (toUpperCase w), (toUpperCase r).
  rewrite (upper_shape _ _ _ _ _ Hk Hds).
  repeat split; try assumption.
  - destruct w; [congruence | discriminate].
  - rewrite (forallb_upper is_space w is_space_upper). exact Hws.
Qed.

Lemma enforce_replaced_fixed n N b r ds :
  trim n = n -> (0 <= N)%Z ->
  includes (toUpperCase n) (lit " LIMIT ") = true ->
  find_first (limit_here true) [] n = Some (b, r, ds) ->
  let n' := b ++ (lit "LIMIT " ++ Number_toString N) ++ r in
  trim n' = n' /\
  includes (toUpperCase n') (lit " LIMIT ") = true /\
  find_first (limit_here true) [] n' = Some (b, r, Number_toString N).
Proof.
  intros Htrim HN Hinc F n'.
  destruct (first_clause_shape _ _ _ _ F) as [k [w [Hn [Hk [Hw [Hws [Hd [Hds Hr]]]]]]]].
  destruct (trim_inv n Htrim) as [Hhead Htrail].
  pose proof (Number_toString_digits N HN) as Hdec.
  pose proof (Number_toString_nonempty N) as Hdne.
  split; [|split].
  - apply trim_fixed.
    + destruct b as [|c b']; [reflexivity|]. rewrite Hn in Hhead. exact Hhead.
    + unfold n'. destruct r as [|c r'].
      * rewrite app_nil_r, app_assoc, no_trailing_app by exact Hdne.
        apply no_trailing_digits, Hdec.
      * rewrite app_assoc, no_trailing_app by discriminate.
        rewrite Hn, !app_assoc, no_trailing_app in Htrail by discriminate.
        exact Htrail.
  - unfold n'. rewrite !toUpperCase_app.
    change (toUpperCase (lit "LIMIT ")) with (lit "LIMIT ").
    rewrite Hn, (upper_shape _ _ _ _ _ Hk Hds) in Hinc.
    apply (includes_replaced _ (toUpperCase w) ds); try assumption.
    rewrite (forallb_upper is_space w is_space_upper). exact Hws.
  - inversion Hk as [|c1 k1 kw krest Hc1 Hrest]; subst.
    assert (Hy : tail_ok ((k1 :: krest) ++ w ++ ds ++ r) = true).
    { apply tail_ok_L. symmetry. exact (char_match_upper true "L" k1 Hc1). }
    assert (Hy' : tail_ok ((lit "LIMIT " ++ Number_toString N) ++ r) = true).
    { exact (tail_ok_L "L" _ eq_refl). }
    destruct (find_first_tail true b [] _ _ Hy Hy')
      as [[x1 [x2 [r0 [ds0 [Hb [Hx2 [G _]]]]]]] | [_ G]].
    + exfalso. rewrite G in F. injection F as F1 _ _.
      cbn [rev app] in F1. rewrite Hb in F1.
      rewrite <- (app_nil_r x1) in F1 at 1.
      apply app_inv_head in F1. congruence.
    + unfold n'. rewrite G.
      rewrite (find_first_here _ _ _ _ _ _ (limit_here_fresh N r HN Hr)).
      rewrite app_nil_r, rev_involutive. reflexivity.
Qed.

Lemma enforce_appended_fixed n N :
  trim n = n -> (0 <= N)%Z -> strip_semi n <> [] ->
  (forall ds, limit_token (toUpperCase n) ds -> (parseInt ds <= N)%Z) ->
  let n' := strip_semi n ++ lit " LIMIT " ++ Number_toString N in
  trim n' = n' /\
  includes (toUpperCase n') (lit " LIMIT ") = true /\
  exists b r ds,
    find_first (limit_here true) [] n' = Some (b, r, ds) /\ (parseInt ds <= N)%Z.
Proof.
  intros Htrim HN Hne Htok n'.
  destruct (strip_semi_tail n) as [tail [Hn Htail]].
  destruct (trim_inv n Htrim) as [Hhead _].
  pose proof (Number_toString_digits N HN) as Hdec.
  pose proof (Number_toString_nonempty N) as Hdne.
  split; [|split].
  - apply trim_fixed.
    + unfold n'. destruct (strip_semi n) as [|c ws'] eqn:E; [congruence|].
      rewrite Hn in Hhead. exact Hhead.
    + unfold n'. rewrite !app_assoc, no_trailing_app by exact Hdne.
      apply no_trailing_digits, Hdec.
  - apply includes_spec. unfold n'.
    exists (toUpperCase (strip_semi n)), (toUpperCase (Number_toString N)).
    rewrite !toUpperCase_app. reflexivity.
  - assert (Hy : tail_ok tail = true) by (destruct Htail as [-> | ->]; reflexivity).
    assert (Hy' : tail_ok (lit " LIMIT " ++ Number_toString N) = true) by reflexivity.
    destruct (find_first_tail true (strip_semi n) [] _ _ Hy Hy')
      as [[x1 [x2 [r0 [ds0 [Hb [Hx2 [G G']]]]]]] | [_ G]].
    + exists (rev [] ++ x1), (r0 ++ lit " LIMIT " ++ Number_toString N), ds0.
      split; [exact G'|]. apply Htok.
      rewrite <- Hn in G. exact (first_clause_token _ _ _ _ G).
    + exists (rev (" " :: rev (strip_semi n) ++ [])), [], (Number_toString N).
      split; [|rewrite (parseInt_Number_toString N HN); lia].
      unfold n'. rewrite G.
      change (lit " LIMIT " ++ Number_toString N)
        with (" " :: (lit "LIMIT " ++ Number_toString N)).
      cbn [find_first]. rewrite limit_here_blank.
      apply find_first_here.
      pose proof (limit_here_fresh N [] HN I) as Hf.
      rewrite app_nil_r in Hf. exact Hf.
Qed.

Lemma enforceLimit_twice n N :
  trim n = n -> (0 <= N)%Z ->
  (includes (toUpperCase n) (lit " LIMIT ") = true
   \/ (strip_semi n <> []
       /\ forall ds, limit_token (toUpperCase n) ds -> (parseInt ds <= N)%Z)) ->
  enforceLimit (enforceLimit n N) N = enforceLimit n N.
Proof.
  intros Htrim HN H.
  rewrite (enforceLimit_eq n N). cbv zeta. rewrite Htrim.
  destruct (includes (toUpperCase n) (lit " LIMIT ")) eqn:Hinc.
  - destruct (find_first (limit_here true) [] n) as [[[b r] ds]|] eqn:F.
    + destruct (N <? parseInt ds)%Z eqn:Hlt.
      * destruct (enforce_replaced_fixed n N b r ds Htrim HN Hinc F) as [A [B C]].
        rewrite enforceLimit_eq. cbv zeta. rewrite A, B, C.
        rewrite (parseInt_Number_toString N HN), Z.ltb_irrefl. reflexivity.
      * rewrite enforceLimit_eq. cbv zeta. rewrite Htrim, Hinc, F, Hlt. reflexivity.
    + rewrite enforceLimit_eq. cbv zeta. rewrite Htrim, Hinc, F. reflexivity.
  - destruct H as [H | [Hne Htok]]; [discriminate|].
    destruct (startsWith (toUpperCase n) (lit "EXPLAIN")
              || startsWith (toUpperCase n) (lit "SHOW")) eqn:Hx.
    + rewrite enforceLimit_eq. cbv zeta. rewrite Htrim, Hinc, Hx. reflexivity.
    + destruct (enforce_appended_fixed n N Htrim HN Hne Htok)
        as [A [B [b [r [ds [C D]]]]]].
      rewrite enforceLimit_eq. cbv zeta. rewrite A, B, C.
      replace (N <? parseInt ds)%Z with false by (symmetry; apply Z.ltb_ge; exact D).
      reflexivity.
Qed.

Lemma word_not_semicolon c : is_word c = true -> ascii_eqb ";" c = false.
Proof. all_chars c. Qed.

(** What the rewriter needs of the normal form of an accepted
    statement. *)
Lemma accepted_statement raw allowed sql :
  Forall (fun p => is_word_at (hd_error p) = true) allowed ->
  valid (validateQuery raw allowed) = true ->
  normalized (validateQuery raw allowed) = Some sql ->
  trim sql = sql /\ strip_semi sql <> [].
Proof.
  intros Hall Hv Hn.
  destruct (validateQuery_cases raw allowed) as [[Hv' _] | [n [E [Hnf [Hne Hex]]]]];
    [congruence|].
  rewrite E in Hn. cbn [normalized] in Hn. injection Hn as ->.
  split; [exact (proj1 (normalized_shape raw sql Hnf))|].
  apply existsb_exists in Hex as [p [Hin Hst]].
  pose proof (proj1 (Forall_forall _ _) Hall p Hin) as Hp. cbv beta in Hp.
  destruct p as [|c p']; [discriminate|]. cbn [hd_error is_word_at] in Hp.
  apply startsWith_spec in Hst as [b Hb].
  destruct sql as [|x t]; [discriminate|].
  cbn [toUpperCase map app] in Hb. injection Hb as Hx _.
  rewrite <- Hx, is_word_upper in Hp.
  cbn [strip_semi]. destruct t; [|discriminate].
  rewrite (word_not_semicolon _ Hp). discriminate.
Qed.

(** C6, as stated, fails: a [LIMIT <digits>] that does not follow a
    space is not seen by the first application, which appends a clause,
    and is clamped by the second. *)
Lemma enforceLimit_not_idempotent :
  validateQuery (lit "SELECT * FROM (t)LIMIT 50") ALLOWED_PREFIXES
  = mkValidation true None (Some (lit "SELECT * FROM (t)LIMIT 50")) /\
  enforceLimit (lit "SELECT * FROM (t)LIMIT 50") 10
  = lit "SELECT * FROM (t)LIMIT 50 LIMIT 10" /\
  enforceLimit (enforceLimit (lit "SELECT * FROM (t)LIMIT 50") 10) 10
  = lit "SELECT * FROM (t)LIMIT 10 LIMIT 10" /\
  enforceLimit (enforceLimit (lit "SELECT * FROM (t)LIMIT 50") 10) 10
  <> enforceLimit (lit "SELECT * FROM (t)LIMIT 50") 10.
Proof. vm_compute. repeat split. discriminate. Qed.

(** With a negative limit a second application may clamp a second
    clause: the written [LIMIT -1] is not read back as a clause. *)
Lemma enforceLimit_negative_limit :
  enforceLimit (lit "SELECT * FROM (SELECT a FROM t LIMIT 5) x LIMIT 9") (-1)
  = lit "SELECT * FROM (SELECT a FROM t LIMIT -1) x LIMIT 9" /\
  enforceLimit
    (enforceLimit (lit "SELECT * FROM (SELECT a FROM t LIMIT 5) x LIMIT 9") (-1)) (-1)
  = lit "SELECT * FROM (SELECT a FROM t LIMIT -1) x LIMIT -1".
Proof. vm_compute. split; reflexivity. Qed.

(** With an allowed prefix that is no keyword, a statement reduced to
    its separator is accepted, and is not a fixed point either. *)
Lemma enforceLimit_bare_separator :
  validateQuery (lit ";") [lit ";"] = mkValidation true None (Some (lit ";")) /\
  enforceLimit (lit ";") 5 = lit " LIMIT 5" /\
  enforceLimit (enforceLimit (lit ";") 5) 5 = lit "LIMIT 5 LIMIT 5".
Proof. vm_compute. repeat split. Qed.

(** C6, amended.  On the normal form of an accepted statement (the
    allowed prefixes beginning with a word character) and for a limit
    that is not negative, applying the rewriter twice is applying it
    once, provided the statement contains [' LIMIT '] or has no
    [LIMIT <digits>] token above the limit. *)
Theorem enforceLimit_idempotent
    (raw : jsstring) (allowed : list jsstring) (sql : jsstring) (maxLimit : Z) :
  Forall (fun p => is_word_at (hd_error p) = true) allowed ->
  valid (validateQuery raw allowed) = true ->
  normalized (validateQuery raw allowed) = Some sql ->
  (0 <= maxLimit)%Z ->
  (includes (toUpperCase sql) (lit " LIMIT ") = true
   \/ forall ds, limit_token (toUpperCase sql) ds -> (parseInt ds <= maxLimit)%Z) ->
  enforceLimit (enforceLimit sql maxLimit) maxLimit = enforceLimit sql maxLimit.
Proof.
  intros Hall Hv Hn HN H.
  destruct (accepted_statement raw allowed sql Hall Hv Hn) as [Htrim Hne].
  apply enforceLimit_twice; [exact Htrim | exact HN |].
  destruct H as [H | H]; [left; exact H | right; split; assumption].
Qed.

(** C6, amended, on a statement whose limit is clamped. *)
Lemma enforceLimit_idempotent_witness :
  enforceLimit (enforceLimit (lit "select * from t limit 50000;") 1000) 1000
  = enforceLimit (lit "select * from t limit 50000;") 1000.
Proof.
  apply (enforceLimit_idempotent (lit "  select *  from t limit 50000; ")
           ALLOWED_PREFIXES).
  - repeat constructor.
  - reflexivity.
  - reflexivity.
  - lia.
  - left. reflexivity.
Defined.

(** ** The batch export: files, counters and trace *)

Lemma string_eqb_refl a : string_eqb a a = true.
Proof.
  unfold string_eqb. rewrite Nat.eqb_refl. apply startsWith_spec.
  exists []. symmetry. apply app_nil_r.
Qed.

Lemma file_content_write path content w :
  file_content (writeFileSync path content w) path = Some content.
Proof.
  unfold file_content, writeFileSync, fs_set; cbn [w_fs].
  rewrite string_eqb_refl. reflexivity.
Qed.

Lemma file_content_append path content w :
  file_content (appendFileSync path content w) path
  = Some (match file_content w path with Some c => c | None => [] end ++ content).
Proof.
  unfold appendFileSync. cbv zeta. unfold file_content at 1. cbn [w_fs].
  unfold fs_set. rewrite string_eqb_refl. reflexivity.
Qed.

Lemma log_info_fs h m w : w_fs (log_info h m w) = w_fs w.
Proof. unfold log_info. destruct (has_logger h); reflexivity. Qed.

Lemma log_info_issued h m w : w_issued (log_info h m w) = w_issued w.
Proof. unfold log_info. destruct (has_logger h); reflexivity. Qed.

Lemma log_info_trace h m w :
  w_trace (log_info h m w)
  = w_trace w ++ (if has_logger h then [ELogInfo m] else []).
Proof.
  unfold log_info. destruct (has_logger h); [reflexivity|].
  symmetry. apply app_nil_r.
Qed.

Lemma log_error_fs h m w : w_fs (log_error h m w) = w_fs w.
Proof. unfold log_error. destruct (has_logger h); reflexivity. Qed.

Lemma ensure_dir_issued d w : w_issued (ensure_dir d w) = w_issued w.
Proof. unfold ensure_dir. destruct (existsSync w d); reflexivity. Qed.

Lemma resolve_output_issued h input w :
  w_issued (snd (resolve_output h input w)) = w_issued w.
Proof.
  unfold resolve_output. destruct (outputPath input) as [[|c p]|];
    cbn [snd]; apply ensure_dir_issued.
Qed.

Lemma open_output_issued fmt fp w : w_issued (open_output fmt fp w) = w_issued w.
Proof. destruct fmt; reflexivity. Qed.

Lemma write_batch_issued h fmt fp rows j w :
  w_issued (snd (write_batch h fmt fp rows j w)) = w_issued w.
Proof.
  unfold write_batch. destruct fmt; cbn [snd]; try reflexivity.
  destruct (isFirstBatch j && (0 <? length rows)%nat); reflexivity.
Qed.

Lemma write_batch_file h fmt fp rows j w :
  file_content (snd (write_batch h fmt fp rows j w)) fp <> None.
Proof.
  unfold write_batch. destruct fmt; cbn [snd];
    rewrite file_content_append; discriminate.
Qed.

Lemma after_batch_issued h fmt fp base size cap rows j w :
  w_issued (snd (after_batch h fmt fp base size cap rows j w)) = S (w_issued w).
Proof.
  unfold after_batch. cbn [snd]. rewrite log_info_issued, write_batch_issued.
  reflexivity.
Qed.

Lemma after_batch_job h fmt fp base size cap rows j w :
  totalRows (fst (after_batch h fmt fp base size cap rows j w))
  = (totalRows j + Z.of_nat (length rows))%Z /\
  batchCount (fst (after_batch h fmt fp base size cap rows j w))
  = (batchCount j + 1)%Z.
Proof. split; reflexivity. Qed.

(** The loop on a batch that fills the limit, below the cap. *)
Lemma batch_loop_continue fuel h fmt fp base size cap rows j w :
  (0 < effective_limit size cap j)%Z ->
  driver_query h (w_issued w) (batch_query base (effective_limit size cap j) j)
  = Rows rows ->
  Z.of_nat (length rows) = effective_limit size cap j ->
  match cap_of cap with
  | Some m => (totalRows j + effective_limit size cap j < m)%Z
  | None => True
  end ->
  batch_loop (S fuel) h fmt fp base size cap j w
  = batch_loop fuel h fmt fp base size cap
      (fst (after_batch h fmt fp base size cap rows j w))
      (snd (after_batch h fmt fp base size cap rows j w)).
Proof.
  intros Hpos Hq Hlen Hcap. cbn [batch_loop]. cbv zeta.
  replace (effective_limit size cap j <=? 0)%Z with false
    by (symmetry; apply Z.leb_gt; exact Hpos).
  unfold run_query at 1. rewrite Hq.
  replace (Z.of_nat (length rows) =? 0)%Z with false
    by (symmetry; apply Z.eqb_neq; lia).
  unfold after_batch. cbn [fst snd].
  fold (run_query h (batch_query base (effective_limit size cap j) j) w).
  destruct (write_batch h fmt fp rows j
              (snd (run_query h (batch_query base (effective_limit size cap j) j) w)))
    as [hs w2] eqn:E.
  unfold run_query in E at 1. cbn [snd] in E. unfold run_query. cbn [snd].
  rewrite E. cbn [fst snd].
  replace (Z.of_nat (length rows) <? effective_limit size cap j)%Z with false
    by (symmetry; apply Z.ltb_ge; lia).
  destruct (cap_of cap) as [m|]; [|reflexivity].
  replace (m <=? totalRows (next_job j (Z.of_nat (length rows)) hs))%Z with false
    by (symmetry; apply Z.leb_gt; cbn [next_job totalRows]; lia).
  reflexivity.
Qed.

(** The loop on an empty batch. *)
Lemma batch_loop_empty fuel h fmt fp base size cap j w :
  (0 < effective_limit size cap j)%Z ->
  driver_query h (w_issued w) (batch_query base (effective_limit size cap j) j)
  = Rows [] ->
  batch_loop (S fuel) h fmt fp base size cap j w
  = Some (Finished j
            (snd (run_query h (batch_query base (effective_limit size cap j) j) w))).
Proof.
  intros Hpos Hq. cbn [batch_loop]. cbv zeta.
  replace (effective_limit size cap j <=? 0)%Z with false
    by (symmetry; apply Z.leb_gt; exact Hpos).
  unfold run_query. rewrite Hq. reflexivity.
Qed.

Lemma until_query_app a b :
  forallb (fun e => negb (is_query e)) a = true ->
  until_query (a ++ b) = a ++ until_query b.
Proof.
  induction a as [|e a IH]; [reflexivity|]. cbn [forallb]. intro H.
  apply andb_true_iff in H as [He Ha]. apply negb_true_iff in He.
  cbn [app until_query]. rewrite He, (IH Ha). reflexivity.
Qed.

Lemma after_last_query_app t q rest :
  forallb (fun e => negb (is_query e)) rest = true ->
  after_last_query (t ++ EQuery q :: rest) = rest.
Proof.
  intro H. unfold after_last_query.
  rewrite rev_app_distr. cbn [rev]. rewrite <- !app_assoc.
  rewrite until_query_app.
  - cbn [app until_query is_query]. rewrite app_nil_r. apply rev_involutive.
  - rewrite forallb_forall in *. intros e He. apply H, in_rev, He.
Qed.

Lemma closing_events_no_query h fmt fp :
  forallb (fun e => negb (is_query e)) (closing_events h fmt fp) = true.
Proof. unfold closing_events. destruct fmt, (has_logger h); reflexivity. Qed.

Lemma close_output_trace h fmt fp w :
  w_trace (log_info h (lit "Batch export completed") (close_output fmt fp w))
  = w_trace w ++ closing_events h fmt fp.
Proof.
  rewrite log_info_trace. unfold closing_events.
  destruct fmt; cbn [close_output]; try reflexivity.
  unfold appendFileSync; cbn [w_trace]. rewrite <- app_assoc. reflexivity.
Qed.

Lemma close_output_issued h fmt fp w :
  w_issued (log_info h (lit "Batch export completed") (close_output fmt fp w))
  = w_issued w.
Proof. rewrite log_info_issued. destruct fmt; reflexivity. Qed.

(** The tool once its guards are passed. *)
Lemma dbExportBatch_run fuel h input w :
  isInitialized h = true ->
  valid (validateQuery (sql input) ALLOWED_PREFIXES) = true ->
  test ORDER_BY (sql input) = true ->
  connect_error h = None ->
  dbExportBatch fuel h input w =
  let fmt := format_of input in
  let fp := fst (resolve_output h input w) in
  match batch_loop fuel h fmt fp (base_query (sql input)) (batchSize_of input)
          (maxRows input) initial_job
          (open_output fmt fp (snd (resolve_output h input w))) with
  | None => None
  | Some (Threw message _ w2) => Some (export_failed h message w2)
  | Some (Finished j w2) =>
      Some (success (export_summary h fmt fp (batchSize_of input) j),
            log_info h (lit "Batch export completed") (close_output fmt fp w2))
  end.
Proof.
  intros Hi Hv Ho Hc. unfold dbExportBatch. cbv zeta.
  rewrite Hi, Hv, Ho, Hc. cbn [negb].
  destruct (resolve_output h input w) as [fp w0]. reflexivity.
Qed.

Lemma export_summary_fields h fmt fp size j :
  field (lit "batchCount") (export_summary h fmt fp size j)
  = Some (JNumber (batchCount j)) /\
  field (lit "totalRows") (export_summary h fmt fp size j)
  = Some (JNumber (totalRows j)) /\
  field (lit "filepath") (export_summary h fmt fp size j) = Some (JString fp).
Proof. repeat split; reflexivity. Qed.

(** C3.  A base query without an [ORDER BY] is refused before anything
    is done: the call returns an error (the ordering error, when the
    project is initialized and the statement valid) and leaves the world
    as it was, so that no query has reached the driver; no turn of the
    loop is needed for that. *)
Theorem dbExportBatch_requires_order_by
    (fuel : nat) (h : host) (input : DbExportBatchInput) (w : world) :
  test ORDER_BY (sql input) = false ->
  exists r,
    dbExportBatch fuel h input w = Some (r, w) /\
    isError r = true /\
    (isInitialized h = true ->
     valid (validateQuery (sql input) ALLOWED_PREFIXES) = true ->
     r = tool_error
           (lit "Query must include ORDER BY clause for consistent pagination")
           None).
Proof.
  intro H. unfold dbExportBatch. cbv zeta.
  destruct (isInitialized h).
  - destruct (valid (validateQuery (sql input) ALLOWED_PREFIXES)).
    + rewrite H. cbn [negb]. eexists. repeat split.
    + cbn [negb]. eexists. split; [reflexivity|]. split; [reflexivity|].
      intros _ Hv. discriminate.
  - cbn [negb]. eexists. split; [reflexivity|]. split; [reflexivity|].
    intros Hi. discriminate.
Qed.

(** C3 on a statement without ordering: nothing is sent to a driver that
    would have answered. *)
Lemma dbExportBatch_requires_order_by_witness :
  exists r,
    dbExportBatch 0 (example_host [Rows [example_row "1"]])
      (example_input "SELECT id FROM t" jsonl 10) empty_world
    = Some (r, empty_world) /\ isError r = true.
Proof.
  destruct (dbExportBatch_requires_order_by 0
              (example_host [Rows [example_row "1"]])
              (example_input "SELECT id FROM t" jsonl 10) empty_world eq_refl)
    as [r [H1 [H2 _]]].
  exists r. split; assumption.
Defined.

(** C4.  Three batches of exactly the batch size, then no row: the
    export reports three batches and three times the batch size, has sent
    four queries, and after the last of them has written nothing but the
    closing of the output (the end of the JSON array, the log line). *)
Theorem dbExportBatch_three_full_pages
    (fuel : nat) (h : host) (input : DbExportBatchInput) (w : world)
    (rows1 rows2 rows3 : list row) :
  isInitialized h = true ->
  valid (validateQuery (sql input) ALLOWED_PREFIXES) = true ->
  test ORDER_BY (sql input) = true ->
  connect_error h = None ->
  (0 < batchSize_of input)%Z ->
  match cap_of (maxRows input) with
  | Some m => (3 * batchSize_of input < m)%Z
  | None => True
  end ->
  Z.of_nat (length rows1) = batchSize_of input ->
  Z.of_nat (length rows2) = batchSize_of input ->
  Z.of_nat (length rows3) = batchSize_of input ->
  (forall q, driver_query h (w_issued w) q = Rows rows1) ->
  (forall q, driver_query h (1 + w_issued w) q = Rows rows2) ->
  (forall q, driver_query h (2 + w_issued w) q = Rows rows3) ->
  (forall q, driver_query h (3 + w_issued w) q = Rows []) ->
  (4 <= fuel)%nat ->
  exists r w',
    dbExportBatch fuel h input w = Some (r, w') /\
    isError r = false /\
    field (lit "batchCount") (data r) = Some (JNumber 3) /\
    field (lit "totalRows") (data r) = Some (JNumber (3 * batchSize_of input)) /\
    w_issued w' = (4 + w_issued w)%nat /\
    after_last_query (w_trace w')
    = closing_events h (format_of input) (fst (resolve_output h input w)).
Proof.
  intros Hi Hv Ho Hc Hp Hcap L1 L2 L3 Q1 Q2 Q3 Q4 Hfuel.
  rewrite (dbExportBatch_run fuel h input w Hi Hv Ho Hc). cbv zeta.
  set (fmt := format_of input). set (fp := fst (resolve_output h input w)).
  set (base := base_query (sql input)). set (p := batchSize_of input) in *.
  set (cap := maxRows input) in *.
  set (w1 := open_output fmt fp (snd (resolve_output h input w))).
  assert (I1 : w_issued w1 = w_issued w).
  { unfold w1. rewrite open_output_issued. apply resolve_output_issued. }
  assert (Heff : forall j, (totalRows j <= 2 * p)%Z -> effective_limit p cap j = p).
  { intros j Hj. unfold effective_limit. revert Hcap.
    destruct (cap_of cap); [lia | reflexivity]. }
  assert (Hlast : forall j, (totalRows j = 3 * p)%Z -> (0 < effective_limit p cap j)%Z).
  { intros j Hj. unfold effective_limit. revert Hcap.
    destruct (cap_of cap); lia. }
  destruct fuel as [|[|[|[|fuel]]]]; try lia.
  (* first batch *)
  assert (E0 : effective_limit p cap initial_job = p)
    by (apply Heff; cbn [initial_job totalRows]; lia).
  rewrite (batch_loop_continue _ h fmt fp base p cap rows1 initial_job w1);
    [| rewrite E0; exact Hp | rewrite I1; apply Q1 | rewrite E0; exact L1
     | rewrite E0; revert Hcap; destruct (cap_of cap);
       [cbn [initial_job totalRows]; lia | intros _; exact I] ].
  set (s1 := after_batch h fmt fp base p cap rows1 initial_job w1).
  assert (T1 : totalRows (fst s1) = p).
  { unfold s1. rewrite (proj1 (after_batch_job _ _ _ _ _ _ _ _ _)).
    cbn [initial_job totalRows]. lia. }
  assert (C1 : batchCount (fst s1) = 1%Z) by reflexivity.
  assert (N1 : w_issued (snd s1) = (1 + w_issued w)%nat).
  { unfold s1. rewrite after_batch_issued, I1. reflexivity. }
  assert (E1 : effective_limit p cap (fst s1) = p) by (apply Heff; lia).
  (* second batch *)
  rewrite (batch_loop_continue _ h fmt fp base p cap rows2 (fst s1) (snd s1));
    [| rewrite E1; exact Hp | rewrite N1; apply Q2 | rewrite E1; exact L2
     | rewrite E1, T1; revert Hcap; destruct (cap_of cap); [lia | intros _; exact I] ].
  set (s2 := after_batch h fmt fp base p cap rows2 (fst s1) (snd s1)).
  assert (T2 : totalRows (fst s2) = (2 * p)%Z).
  { unfold s2. rewrite (proj1 (after_batch_job _ _ _ _ _ _ _ _ _)), T1. lia. }
  assert (C2 : batchCount (fst s2) = 2%Z).
  { unfold s2. rewrite (proj2 (after_batch_job _ _ _ _ _ _ _ _ _)), C1. reflexivity. }
  assert (N2 : w_issued (snd s2) = (2 + w_issued w)%nat).
  { unfold s2. rewrite after_batch_issued, N1. reflexivity. }
  assert (E2 : effective_limit p cap (fst s2) = p) by (apply Heff; lia).
  (* third batch *)
  rewrite (batch_loop_continue _ h fmt fp base p cap rows3 (fst s2) (snd s2));
    [| rewrite E2; exact Hp | rewrite N2; apply Q3 | rewrite E2; exact L3
     | rewrite E2, T2; revert Hcap; destruct (cap_of cap); [lia | intros _; exact I] ].
  set (s3 := after_batch h fmt fp base p cap rows3 (fst s2) (snd s2)).
  assert (T3 : totalRows (fst s3) = (3 * p)%Z).
  { unfold s3. rewrite (proj1 (after_batch_job _ _ _ _ _ _ _ _ _)), T2. lia. }
  assert (C3 : batchCount (fst s3) = 3%Z).
  { unfold s3. rewrite (proj2 (after_batch_job _ _ _ _ _ _ _ _ _)), C2. reflexivity. }
  assert (N3 : w_issued (snd s3) = (3 + w_issued w)%nat).
  { unfold s3. rewrite after_batch_issued, N2. reflexivity. }
  (* the empty batch *)
  rewrite (batch_loop_empty _ h fmt fp base p cap (fst s3) (snd s3));
    [| apply Hlast, T3 | rewrite N3; apply Q4 ].
  eexists. eexists. split; [reflexivity|].
  split; [reflexivity|].
  cbn [success data].
  destruct (export_summary_fields h fmt fp p (fst s3)) as [F1 [F2 _]].
  split; [rewrite F1, C3; reflexivity|].
  split; [rewrite F2, T3; reflexivity|].
  split.
  - rewrite close_output_issued. cbn [run_query snd w_issued]. rewrite N3. reflexivity.
  - rewrite close_output_trace. cbn [run_query snd w_trace].
    rewrite <- app_assoc. cbn [app].
    apply after_last_query_app, closing_events_no_query.
Qed.

(** C4 on three batches of two rows. *)
Lemma dbExportBatch_three_full_pages_witness :
  exists r w',
    dbExportBatch 4
      (example_host [Rows [example_row "1"; example_row "2"];
                     Rows [example_row "3"; example_row "4"];
                     Rows [example_row "5"; example_row "6"]])
      (example_input "SELECT id FROM t ORDER BY id" json 2) empty_world
    = Some (r, w') /\
    field (lit "batchCount") (data r) = Some (JNumber 3) /\
    field (lit "totalRows") (data r) = Some (JNumber 6).
Proof.
  destruct (dbExportBatch_three_full_pages 4
              (example_host [Rows [example_row "1"; example_row "2"];
                             Rows [example_row "3"; example_row "4"];
                             Rows [example_row "5"; example_row "6"]])
              (example_input "SELECT id FROM t ORDER BY id" json 2) empty_world
              [example_row "1"; example_row "2"]
              [example_row "3"; example_row "4"]
              [example_row "5"; example_row "6"]
              eq_refl eq_refl eq_refl eq_refl eq_refl I eq_refl eq_refl eq_refl
              (fun _ => eq_refl) (fun _ => eq_refl) (fun _ => eq_refl)
              (fun _ => eq_refl) (le_n 4))
    as [r [w' [H1 [_ [H3 [H4 _]]]]]].
  exists r, w'. repeat split; assumption.
Defined.

Lemma file_content_fs a b p : w_fs a = w_fs b -> file_content a p = file_content b p.
Proof. unfold file_content. intros ->. reflexivity. Qed.

(** C9.  In the [json] format the opening of the array is written before
    any query, and its closing after the loop: when the first query
    returns no row (or the limit allows no query at all) the file holds
    the opening followed by the closing, and nothing else. *)
Theorem dbExportBatch_json_no_rows
    (fuel : nat) (h : host) (input : DbExportBatchInput) (w : world) :
  isInitialized h = true ->
  valid (validateQuery (sql input) ALLOWED_PREFIXES) = true ->
  test ORDER_BY (sql input) = true ->
  connect_error h = None ->
  format_of input = json ->
  (forall q, driver_query h (w_issued w) q = Rows []) ->
  (1 <= fuel)%nat ->
  exists r w' queries,
    dbExportBatch fuel h input w = Some (r, w') /\
    isError r = false /\
    file_content w' (fst (resolve_output h input w))
    = Some ("[" :: newline :: newline :: ["]"]) /\
    w_trace w'
    = w_trace (snd (resolve_output h input w))
      ++ EWrite (fst (resolve_output h input w)) ("[" :: [newline])
         :: queries
      ++ closing_events h json (fst (resolve_output h input w)) /\
    (queries = [] \/ exists q, queries = [EQuery q]).
Proof.
  intros Hi Hv Ho Hc Hf Hq Hfuel.
  rewrite (dbExportBatch_run fuel h input w Hi Hv Ho Hc). cbv zeta. rewrite Hf.
  set (fp := fst (resolve_output h input w)).
  set (w0 := snd (resolve_output h input w)).
  set (w1 := open_output json fp w0).
  assert (I1 : w_issued w1 = w_issued w) by apply resolve_output_issued.
  assert (F1 : file_content w1 fp = Some ("[" :: [newline]))
    by apply file_content_write.
  assert (T1 : w_trace w1 = w_trace w0 ++ [EWrite fp ("[" :: [newline])])
    by reflexivity.
  destruct fuel as [|fuel]; [lia|].
  set (eff := effective_limit (batchSize_of input) (maxRows input) initial_job).
  destruct (Z.leb_spec eff 0) as [Hle | Hgt].
  - (* the limit allows no query *)
    assert (E : batch_loop (S fuel) h json fp (base_query (sql input))
                  (batchSize_of input) (maxRows input) initial_job w1
                = Some (Finished initial_job w1)).
    { cbn [batch_loop]. cbv zeta. fold eff.
      replace (eff <=? 0)%Z with true by (symmetry; apply Z.leb_le; exact Hle).
      reflexivity. }
    rewrite E. exists (success (export_summary h json fp (batchSize_of input) initial_job)).
    eexists. exists []. split; [reflexivity|]. split; [reflexivity|]. split; [|split].
    + rewrite (file_content_fs _ (close_output json fp w1)) by apply log_info_fs.
      cbn [close_output]. rewrite file_content_append, F1. reflexivity.
    + rewrite close_output_trace, T1, <- app_assoc. reflexivity.
    + left. reflexivity.
  - (* one query, no row *)
    rewrite (batch_loop_empty fuel h json fp (base_query (sql input))
               (batchSize_of input) (maxRows input) initial_job w1 Hgt)
      by (rewrite I1; apply Hq).
    fold eff. set (q := batch_query (base_query (sql input)) eff initial_job).
    exists (success (export_summary h json fp (batchSize_of input) initial_job)).
    eexists. exists [EQuery q]. split; [reflexivity|]. split; [reflexivity|].
    split; [|split].
    + rewrite (file_content_fs _ (close_output json fp (snd (run_query h q w1))))
        by apply log_info_fs.
      cbn [close_output]. rewrite file_content_append.
      rewrite (file_content_fs (snd (run_query h q w1)) w1) by reflexivity.
      rewrite F1. reflexivity.
    + rewrite close_output_trace. cbn [run_query snd w_trace].
      rewrite T1, <- !app_assoc. reflexivity.
    + right. exists q. reflexivity.
Qed.

(** C9 on an export that finds no row. *)
Lemma dbExportBatch_json_no_rows_witness :
  exists r w',
    dbExportBatch 1 (example_host [])
      (example_input "SELECT id FROM t ORDER BY id" json 100) empty_world
    = Some (r, w') /\
    file_content w' (lit "/out/rows") = Some ("[" :: newline :: newline :: ["]"]).
Proof.
  destruct (dbExportBatch_json_no_rows 1 (example_host [])
              (example_input "SELECT id FROM t ORDER BY id" json 100) empty_world
              eq_refl eq_refl eq_refl eq_refl eq_refl (fun _ => eq_refl) (le_n 1))
    as [r [w' [qs [H1 [_ [H3 _]]]]]].
  exists r, w'. split; assumption.
Defined.

(** The output file, once written, is there when the loop ends, however
    it ends. *)
Lemma batch_loop_keeps_file fuel :
  forall h fmt fp base size cap j w e,
    batch_loop fuel h fmt fp base size cap j w = Some e ->
    (batchCount j <= batchCount (end_job e))%Z /\
    (file_content w fp <> None \/ (batchCount j < batchCount (end_job e))%Z ->
     file_content (end_world e) fp <> None).
Proof.
  induction fuel as [|fuel IH]; intros h fmt fp base size cap j w e H;
    [discriminate|].
  cbn [batch_loop] in H. cbv zeta in H.
  destruct (effective_limit size cap j <=? 0)%Z.
  { injection H as <-. cbn [end_job end_world].
    split; [lia | intros [G | G]; [exact G | lia]]. }
  unfold run_query in H.
  destruct (driver_query h (w_issued w)
              (batch_query base (effective_limit size cap j) j)) as [rows | message].
  2:{ injection H as <-. cbn [end_job end_world].
      split; [lia | intros [G | G]; [exact G | lia]]. }
  destruct (Z.of_nat (length rows) =? 0)%Z.
  { injection H as <-. cbn [end_job end_world].
    split; [lia | intros [G | G]; [exact G | lia]]. }
  match type of H with
  | context [write_batch h fmt fp rows j ?w1] =>
      pose proof (write_batch_file h fmt fp rows j w1) as Hfile;
      destruct (write_batch h fmt fp rows j w1) as [hs w2]
  end.
  cbn [snd] in Hfile.
  assert (Hfile3 : file_content (log_info h (lit "Batch exported") w2) fp <> None).
  { rewrite (file_content_fs _ w2) by apply log_info_fs. exact Hfile. }
  assert (Hdone : forall e0,
            e0 = Finished (next_job j (Z.of_nat (length rows)) hs)
                   (log_info h (lit "Batch exported") w2) ->
            (batchCount j <= batchCount (end_job e0))%Z /\
            (file_content w fp <> None \/ (batchCount j < batchCount (end_job e0))%Z ->
             file_content (end_world e0) fp <> None)).
  { intros e0 ->. cbn [end_job end_world next_job batchCount].
    split; [lia | intros _; exact Hfile3]. }
  assert (Hrec : batch_loop fuel h fmt fp base size cap
                   (next_job j (Z.of_nat (length rows)) hs)
                   (log_info h (lit "Batch exported") w2) = Some e ->
            (batchCount j <= batchCount (end_job e))%Z /\
            (file_content w fp <> None \/ (batchCount j < batchCount (end_job e))%Z ->
             file_content (end_world e) fp <> None)).
  { intro G. destruct (IH _ _ _ _ _ _ _ _ _ G) as [G1 G2].
    cbn [next_job batchCount] in G1.
    split; [lia | intros _; apply G2; left; exact Hfile3]. }
  destruct (Z.of_nat (length rows) <? effective_limit size cap j)%Z.
  { injection H as <-. apply Hdone. reflexivity. }
  destruct (cap_of cap) as [m|]; [|exact (Hrec H)].
  destruct (m <=? totalRows (next_job j (Z.of_nat (length rows)) hs))%Z.
  - injection H as <-. apply Hdone. reflexivity.
  - exact (Hrec H).
Qed.

(** C7, as stated, fails: after a failure of the driver the result names
    neither the output file nor the progress made, although the file
    written so far is there. *)
Lemma dbExportBatch_failure_hides_path :
  exists r w',
    dbExportBatch 5
      (example_host [Rows [example_row "1"; example_row "2"];
                     Throws (lit "connection lost")])
      (example_input "SELECT id FROM t ORDER BY id" jsonl 2) empty_world
    = Some (r, w') /\
    isError r = true /\
    file_content w' (lit "/out/rows") = Some (lit "{id}" ++ [newline] ++ lit "{id}") /\
    field (lit "filepath") (data r) = None /\
    field (lit "batchCount") (data r) = None /\
    field (lit "totalRows") (data r) = None.
Proof.
  eexists. eexists. split; [vm_compute; reflexivity|].
  repeat split; reflexivity.
Qed.

(** C7, amended.  When the driver raises in the loop, the call returns
    the error of the tool with the message of the driver and nothing else:
    no output path, no count of batches or rows.  What is at the output
    path is left as it was when the driver raised, and the output file
    is there as soon as the format is [json] or a batch was written. *)
Theorem dbExportBatch_executor_failure
    (fuel : nat) (h : host) (input : DbExportBatchInput) (w : world)
    (message : jsstring) (j : job) (w2 : world) :
  isInitialized h = true ->
  valid (validateQuery (sql input) ALLOWED_PREFIXES) = true ->
  test ORDER_BY (sql input) = true ->
  connect_error h = None ->
  batch_loop fuel h (format_of input) (fst (resolve_output h input w))
    (base_query (sql input)) (batchSize_of input) (maxRows input) initial_job
    (open_output (format_of input) (fst (resolve_output h input w))
       (snd (resolve_output h input w)))
  = Some (Threw message j w2) ->
  exists r w',
    dbExportBatch fuel h input w = Some (r, w') /\
    isError r = true /\
    data r = [(lit "error", JString (lit "Failed to export data"));
              (lit "details", JString message)] /\
    field (lit "filepath") (data r) = None /\
    field (lit "batchCount") (data r) = None /\
    field (lit "totalRows") (data r) = None /\
    w_fs w' (fst (resolve_output h input w))
    = w_fs w2 (fst (resolve_output h input w)) /\
    (format_of input = json \/ (0 < batchCount j)%Z ->
     file_content w' (fst (resolve_output h input w)) <> None).
Proof.
  intros Hi Hv Ho Hc Hloop.
  rewrite (dbExportBatch_run fuel h input w Hi Hv Ho Hc). cbv zeta.
  rewrite Hloop. unfold export_failed.
  eexists. eexists. split; [reflexivity|].
  repeat split; try reflexivity.
  - rewrite log_error_fs. reflexivity.
  - intro G.
    rewrite (file_content_fs _ w2) by apply log_error_fs.
    destruct (batch_loop_keeps_file _ _ _ _ _ _ _ _ _ _ Hloop) as [_ K].
    cbn [end_job end_world initial_job batchCount] in K. apply K.
    destruct G as [G | G]; [left | right; exact G].
    rewrite G. cbn [open_output]. rewrite file_content_write. discriminate.
Qed.

(** C7, amended, on a driver that raises at its second query. *)
Lemma dbExportBatch_executor_failure_witness :
  exists r w',
    dbExportBatch 5
      (example_host [Rows [example_row "1"; example_row "2"];
                     Throws (lit "connection lost")])
      (example_input "SELECT id FROM t ORDER BY id" jsonl 2) empty_world
    = Some (r, w') /\
    data r = [(lit "error", JString (lit "Failed to export data"));
              (lit "details", JString (lit "connection lost"))] /\
    file_content w' (lit "/out/rows") <> None.
Proof.
  set (h := example_host [Rows [example_row "1"; example_row "2"];
                          Throws (lit "connection lost")]).
  set (input := example_input "SELECT id FROM t ORDER BY id" jsonl 2).
  set (loop := batch_loop 5 h (format_of input) (fst (resolve_output h input empty_world))
                 (base_query (sql input)) (batchSize_of input) (maxRows input)
                 initial_job
                 (open_output (format_of input) (fst (resolve_output h input empty_world))
                    (snd (resolve_output h input empty_world)))).
  assert (Hloop : loop = Some (Threw (lit "connection lost") (mkJob 2 1 2 false [])
                                 (match loop with
                                  | Some e => end_world e
                                  | None => empty_world
                                  end))).
  { vm_compute. reflexivity. }
  destruct (dbExportBatch_executor_failure 5 h input empty_world _ _ _
              eq_refl eq_refl eq_refl eq_refl Hloop)
    as [r [w' [H1 [_ [H3 [_ [_ [_ [_ H8]]]]]]]]].
  exists r, w'. split; [exact H1|]. split; [exact H3|].
  apply H8. right. reflexivity.
Defined.

(** ** Concrete runs *)

Example validateQuery_accepts_identifier_column :
  validateQuery (lit "SELECT deleted_at FROM events") ALLOWED_PREFIXES
  = mkValidation true None (Some (lit "SELECT deleted_at FROM events")).
Proof. reflexivity. Qed.

Example validateQuery_normalizes_white_space :
  normalized (validateQuery (lit "  select  id   from t ; ") ALLOWED_PREFIXES)
  = Some (lit "select id from t ;").
Proof. reflexivity. Qed.

Example validateQuery_rejects_second_statement :
  error (validateQuery (lit "SELECT 1; SELECT 2") ALLOWED_PREFIXES)
  = Some (lit "Multiple statements not allowed. Execute one query at a time.").
Proof. reflexivity. Qed.

Example validateQuery_rejects_file_read :
  error (validateQuery (lit "SELECT pg_read_file('/etc/passwd')") ALLOWED_PREFIXES)
  = Some (lit "Potentially dangerous SQL pattern detected").
Proof. reflexivity. Qed.

Example enforceLimit_clamps :
  enforceLimit (lit "SELECT * FROM t LIMIT 50000") 1000 = lit "SELECT * FROM t LIMIT 1000".
Proof. reflexivity. Qed.

Example enforceLimit_appends_after_cte :
  enforceLimit (lit "WITH recent AS (SELECT * FROM orders) SELECT * FROM recent") 100
  = lit "WITH recent AS (SELECT * FROM orders) SELECT * FROM recent LIMIT 100".
Proof. reflexivity. Qed.

Example enforceLimit_skips_explain :
  enforceLimit (lit "EXPLAIN SELECT * FROM t") 100 = lit "EXPLAIN SELECT * FROM t".
Proof. reflexivity. Qed.

Example quoteIdentifier_doubles_quotes :
  quoteIdentifier (lit "He said " ++ [dquote] ++ lit "hi" ++ [dquote])
  = [dquote] ++ lit "He said " ++ [dquote; dquote] ++ lit "hi" ++ [dquote; dquote; dquote].
Proof. reflexivity. Qed.

Example base_query_strips_limit :
  base_query (lit "SELECT id FROM t ORDER BY id LIMIT 10 OFFSET 5;")
  = lit "SELECT id FROM t ORDER BY id".
Proof. reflexivity. Qed.

(** ** More on the statement validator *)

(** The validator looks at a statement through its normal form only. *)
Lemma validateQuery_same_normal_form sql1 sql2 allowed :
  sql1 <> [] -> sql2 <> [] ->
  replace_all WHITESPACE_RUN (lit " ") (trim sql1)
  = replace_all WHITESPACE_RUN (lit " ") (trim sql2) ->
  validateQuery sql1 allowed = validateQuery sql2 allowed.
Proof.
  destruct sql1 as [|c1 s1]; [congruence|].
  destruct sql2 as [|c2 s2]; [congruence|].
  intros _ _ H. unfold validateQuery. rewrite H. reflexivity.
Qed.

(** Every check an accepted statement has passed. *)
Lemma validateQuery_accepted sql allowed :
  valid (validateQuery sql allowed) = true ->
  let n := replace_all WHITESPACE_RUN (lit " ") (trim sql) in
  validateQuery sql allowed = mkValidation true None (Some n) /\
  n <> [] /\ (jslength n <= 100000)%Z /\
  existsb (fun prefix => startsWith (toUpperCase n) prefix) allowed = true /\
  first_blocked (toUpperCase n) = None /\
  existsb (fun pattern => test pattern n) DANGEROUS_PATTERNS = false /\
  ((1 <? count_matches SEMICOLON n)%Z
   || ((count_matches SEMICOLON n =? 1)%Z && negb (endsWith n (lit ";")))) = false.
Proof.
  unfold validateQuery.
  destruct sql as [|c0 sql0]; [discriminate|].
  set (sql := c0 :: sql0).
  remember (replace_all WHITESPACE_RUN (lit " ") (trim sql)) as n eqn:Hn.
  cbv zeta.
  destruct (jslength n =? 0)%Z eqn:E0; [discriminate|].
  destruct (100000 <? jslength n)%Z eqn:E1; [discriminate|].
  destruct (existsb (fun prefix => startsWith (toUpperCase n) prefix) allowed) eqn:E2;
    [|discriminate].
  cbn [negb].
  destruct (first_blocked (toUpperCase n)); [discriminate|].
  destruct (existsb (fun pattern => test pattern n) DANGEROUS_PATTERNS);
    [discriminate|].
  destruct ((1 <? count_matches SEMICOLON n)%Z
            || ((count_matches SEMICOLON n =? 1)%Z && negb (endsWith n (lit ";"))));
    [discriminate|].
  intros _. repeat split.
  - intros ->. discriminate.
  - apply Z.ltb_ge in E1. exact E1.
Qed.

Lemma trim_idem s : trim (trim s) = trim s.
Proof.
  apply trim_fixed.
  - destruct (trim s) as [|c r] eqn:E; [exact I|]. exact (trim_head _ _ _ E).
  - apply trim_end_no_trailing.
Qed.

Lemma normal_form_fixed sql :
  replace_all WHITESPACE_RUN (lit " ")
    (trim (replace_all WHITESPACE_RUN (lit " ") (trim sql)))
  = replace_all WHITESPACE_RUN (lit " ") (trim sql).
Proof.
  rewrite (proj1 (normalized_shape sql _ eq_refl)).
  rewrite !replace_all_WHITESPACE_RUN.
  apply collapse_tidy, tidy_collapse, trim_end_no_trailing.
Qed.

(** X1.  The normal form of an accepted statement is accepted again,
    with the same list of prefixes, and is its own normal form. *)
Theorem validateQuery_normal_form_accepted (sql : jsstring)
    (allowed : list jsstring) (n : jsstring) :
  valid (validateQuery sql allowed) = true ->
  normalized (validateQuery sql allowed) = Some n ->
  validateQuery n allowed = mkValidation true None (Some n).
Proof.
  intros Hv Hn.
  destruct (validateQuery_accepted sql allowed Hv) as [E [Hne _]].
  rewrite E in Hn. cbn [normalized] in Hn. injection Hn as Hn.
  subst n. etransitivity; [|exact E].
  apply validateQuery_same_normal_form.
  - exact Hne.
  - intros ->. discriminate.
  - apply normal_form_fixed.
Qed.

Lemma validateQuery_normal_form_accepted_witness :
  validateQuery (lit "SELECT id FROM t") ALLOWED_PREFIXES
  = mkValidation true None (Some (lit "SELECT id FROM t")).
Proof.
  apply (validateQuery_normal_form_accepted
           (lit "  SELECT   id FROM t ") ALLOWED_PREFIXES (lit "SELECT id FROM t"));
    reflexivity.
Defined.

Lemma drop_while_all p s : forallb p s = true -> drop_while p s = [].
Proof.
  induction s as [|c t IH]; [reflexivity|]. simpl.
  destruct (p c); [exact IH | discriminate].
Qed.

(** X2.  A statement of white space only is rejected whatever the
    allowed prefixes are (an empty prefix included): the empty string as
    not a string, the others as empty. *)
Theorem validateQuery_rejects_blank (sql : jsstring) (allowed : list jsstring) :
  forallb is_space sql = true ->
  validateQuery sql allowed
  = rejected (match sql with
              | [] => lit "Query must be a non-empty string"
              | _ :: _ => lit "Query cannot be empty"
              end).
Proof.
  intro H. destruct sql as [|c t]; [reflexivity|].
  unfold validateQuery, trim, trim_start.
  rewrite (drop_while_all _ _ H). reflexivity.
Qed.

Lemma validateQuery_rejects_blank_witness :
  validateQuery (" " :: newline :: [" "]) []
  = rejected (lit "Query cannot be empty").
Proof.
  apply (validateQuery_rejects_blank (" " :: newline :: [" "]) []). reflexivity.
Defined.

(** *** Separators *)

Lemma count_from_SEMICOLON s : forall fuel prev,
  (length s < fuel)%nat ->
  count_from fuel SEMICOLON prev s = Z.of_nat (semicolons s).
Proof.
  induction s as [|x t IH]; intros fuel prev Hf;
    (destruct fuel as [|fuel]; [simpl in Hf; lia|]).
  - reflexivity.
  - cbn [count_from]. unfold match_here, SEMICOLON; cbn [pat_re pat_icase rmatch].
    unfold semicolons; cbn [filter char_match].
    destruct (ascii_eqb ";" x).
    + assert (Hl : (length t <? length (x :: t))%nat = true)
        by (apply Nat.ltb_lt; simpl; lia).
      rewrite Hl. cbn [length]. rewrite Nat2Z.inj_succ.
      rewrite (IH fuel _ ltac:(simpl in Hf; lia)). unfold semicolons. lia.
    + rewrite (IH fuel _ ltac:(simpl in Hf; lia)). reflexivity.
Qed.

Lemma count_matches_SEMICOLON s :
  count_matches SEMICOLON s = Z.of_nat (semicolons s).
Proof. apply count_from_SEMICOLON. lia. Qed.

Lemma semicolons_app a b : semicolons (a ++ b) = (semicolons a + semicolons b)%nat.
Proof. unfold semicolons. rewrite filter_app, length_app. reflexivity. Qed.

Lemma startsWith_length s p : startsWith s p = true -> (length p <= length s)%nat.
Proof.
  intro H. apply startsWith_spec in H as [b ->]. rewrite length_app. lia.
Qed.

Lemma endsWith_spec s p : endsWith s p = true <-> exists a, s = a ++ p.
Proof.
  unfold endsWith. split.
  - intro H. apply andb_true_iff in H as [Hl Hs].
    apply Nat.leb_le in Hl. apply startsWith_spec in Hs as [b Hb].
    exists (firstn (length s - length p) s).
    assert (Hlen : length (skipn (length s - length p) s) = length p)
      by (rewrite length_skipn; lia).
    rewrite Hb, length_app in Hlen.
    destruct b; [|simpl in Hlen; lia].
    rewrite app_nil_r in Hb.
    rewrite <- (firstn_skipn (length s - length p) s) at 1.
    rewrite Hb. reflexivity.
  - intros [a ->]. rewrite length_app.
    replace (length a + length p - length p)%nat with (length a) by lia.
    rewrite skipn_app, skipn_all, Nat.sub_diag. cbn [skipn app].
    apply andb_true_iff. split; [apply Nat.leb_le; lia|].
    apply startsWith_spec. exists []. symmetry. apply app_nil_r.
Qed.

(** X3.  In the normal form of an accepted statement a semicolon can
    only be the last character: nothing follows a statement
    separator. *)
Theorem validateQuery_accepts_final_separator_only (sql : jsstring)
    (allowed : list jsstring) (n pre post : jsstring) :
  valid (validateQuery sql allowed) = true ->
  normalized (validateQuery sql allowed) = Some n ->
  n = pre ++ ";" :: post ->
  post = [].
Proof.
  intros Hv Hn Hsplit.
  destruct (validateQuery_accepted sql allowed Hv) as [E [_ [_ [_ [_ [_ Hsemi]]]]]].
  assert (Hn' : n = replace_all WHITESPACE_RUN (lit " ") (trim sql))
    by (rewrite E in Hn; cbn [normalized] in Hn; congruence).
  cbv zeta in Hsemi. rewrite <- Hn' in Hsemi. clear E Hn Hn' Hv.
  rewrite count_matches_SEMICOLON in Hsemi.
  apply orb_false_iff in Hsemi as [H1 H2].
  apply Z.ltb_ge in H1.
  assert (Hc : semicolons n = (semicolons pre + 1 + semicolons post)%nat).
  { rewrite Hsplit, semicolons_app.
    change (";" :: post) with ([";"] ++ post). rewrite semicolons_app.
    unfold semicolons at 2. simpl. lia. }
  assert (H1' : semicolons n = 1%nat) by lia.
  rewrite H1' in H2. cbn in H2. apply negb_false_iff in H2.
  apply endsWith_spec in H2 as [a Ha].
  destruct post as [|p0 post0]; [reflexivity|]. exfalso.
  destruct (exists_last (l := p0 :: post0)) as [post' [c Hp]]; [discriminate|].
  rewrite Hp in Hsplit, Hc.
  rewrite Hsplit in Ha.
  change (pre ++ ";" :: post' ++ [c]) with (pre ++ (";" :: post') ++ [c]) in Ha.
  rewrite app_assoc in Ha. apply app_inj_tail in Ha as [_ Hc'].
  subst c. rewrite semicolons_app in Hc. unfold semicolons at 4 in Hc.
  simpl in Hc. lia.
Qed.

Lemma validateQuery_accepts_final_separator_only_witness :
  @nil ascii = [].
Proof.
  apply (validateQuery_accepts_final_separator_only
           (lit "SELECT 1 ;") ALLOWED_PREFIXES (lit "SELECT 1 ;") (lit "SELECT 1 ") []);
    reflexivity.
Defined.

(** *** Text without white space survives the normalization *)

Lemma collapse_nonspace w : forall x,
  forallb (fun c => negb (is_space c)) w = true ->
  collapse false (w ++ x) = w ++ collapse false x.
Proof.
  induction w as [|c t IH]; intros x H; [reflexivity|].
  cbn [forallb] in H. apply andb_true_iff in H as [Hc Ht].
  apply negb_true_iff in Hc. cbn [app collapse]. rewrite Hc, (IH _ Ht).
  reflexivity.
Qed.

Lemma no_trailing_nonspace w :
  forallb (fun c => negb (is_space c)) w = true -> no_trailing w = true.
Proof.
  induction w as [|c t IH]; [reflexivity|].
  cbn [forallb]. intro H. apply andb_true_iff in H as [Hc Ht].
  cbn [no_trailing]. destruct t; [exact Hc | exact (IH Ht)].
Qed.

Lemma nonspace_in_normal_form pre w post :
  w <> [] -> forallb (fun c => negb (is_space c)) w = true ->
  exists a b, collapse false (trim (pre ++ w ++ post)) = a ++ w ++ b.
Proof.
  intros Hne Hw.
  destruct w as [|c w']; [congruence|].
  assert (Hc : is_space c = false).
  { cbn [forallb] in Hw. apply andb_true_iff in Hw as [Hc _].
    apply negb_true_iff in Hc. exact Hc. }
  set (w := c :: w') in *.
  assert (Hs : exists p1, trim_start (pre ++ w ++ post) = p1 ++ w ++ post).
  { unfold trim_start. rewrite drop_while_app.
    destruct (drop_while is_space pre) as [|x r].
    - exists []. unfold w. cbn [app drop_while]. rewrite Hc. reflexivity.
    - exists (x :: r). reflexivity. }
  destruct Hs as [p1 Hs]. unfold trim. rewrite Hs.
  assert (He : exists q1, trim_end (w ++ post) = w ++ q1).
  { rewrite trim_end_app. destruct (trim_end post) as [|x r].
    - exists []. rewrite app_nil_r. apply trim_end_fixed, no_trailing_nonspace, Hw.
    - exists (x :: r). reflexivity. }
  destruct He as [q1 He].
  rewrite trim_end_app, He. unfold w at 1. cbn [app].
  exists (collapse false p1), (collapse false q1).
  change (c :: w' ++ q1) with (c :: (w' ++ q1)).
  rewrite collapse_app_nonspace by exact Hc.
  change (c :: w' ++ q1) with (w ++ q1).
  rewrite (collapse_nonspace _ _ Hw). reflexivity.
Qed.

Lemma upper_Forall2 kw : forall w,
  toUpperCase w = toUpperCase kw ->
  Forall2 (fun c x => char_match true c x = true) kw w.
Proof.
  induction kw as [|c kw IH]; intros [|x w] H; try discriminate; constructor.
  - cbn [toUpperCase map] in H. injection H as Hx _.
    unfold char_match. rewrite Hx. apply ascii_eqb_refl.
  - apply IH. cbn [toUpperCase map] in H. injection H as _ H. exact H.
Qed.

Lemma nonspace_upper w kw :
  toUpperCase w = toUpperCase kw ->
  forallb (fun c => negb (is_space c)) kw = true ->
  forallb (fun c => negb (is_space c)) w = true.
Proof.
  revert kw. induction w as [|x w IH]; intros [|c kw] H Hk; try discriminate;
    [reflexivity|].
  cbn [toUpperCase map] in H. injection H as Hx H.
  cbn [forallb] in *. apply andb_true_iff in Hk as [Hc Hk].
  rewrite (IH _ H Hk), andb_true_r.
  rewrite <- is_space_upper, Hx, is_space_upper. exact Hc.
Qed.

Lemma test_literal kw a w b :
  toUpperCase w = toUpperCase kw ->
  test (Pattern (RLit kw) true) (a ++ w ++ b) = true.
Proof.
  intro H. unfold test, exec.
  destruct (search (Pattern (RLit kw) true) None [] (a ++ w ++ b)) eqn:E;
    [reflexivity|].
  exfalso. revert E. apply search_hit.
  unfold match_here; cbn [pat_re pat_icase].
  rewrite rmatch_lit, (strip_prefix_app true kw w b (upper_Forall2 _ _ H)).
  discriminate.
Qed.

Lemma dangerous_name_pattern name :
  In name DANGEROUS_NAMES ->
  In (Pattern (RLit name) true) DANGEROUS_PATTERNS /\
  name <> [] /\ forallb (fun c => negb (is_space c)) name = true.
Proof.
  intro H. unfold DANGEROUS_NAMES in H. cbn [map In] in H.
  repeat (destruct H as [<- | H];
          [split; [unfold DANGEROUS_PATTERNS, L; cbn [In]; tauto
                  | split; [discriminate | reflexivity]]|]).
  contradiction.
Qed.

(** X4.  A statement that contains the name of one of the server
    functions for files, large objects and backends, in any letter case
    and anywhere (inside a longer word or a string literal as well), is
    rejected. *)
Theorem validateQuery_rejects_dangerous_name (sql : jsstring)
    (allowed : list jsstring) (name pre w post : jsstring) :
  In name DANGEROUS_NAMES ->
  sql = pre ++ w ++ post ->
  toUpperCase w = toUpperCase name ->
  valid (validateQuery sql allowed) = false.
Proof.
  intros Hin Hsql Hw.
  destruct (dangerous_name_pattern name Hin) as [Hpat [Hne Hns]].
  destruct (valid (validateQuery sql allowed)) eqn:Hv; [|reflexivity].
  exfalso.
  destruct (validateQuery_accepted sql allowed Hv) as [_ [_ [_ [_ [_ [Hd _]]]]]].
  cbv zeta in Hd. rewrite replace_all_WHITESPACE_RUN in Hd.
  assert (Hwne : w <> []).
  { intros ->. destruct name; [congruence | discriminate]. }
  destruct (nonspace_in_normal_form pre w post Hwne (nonspace_upper _ _ Hw Hns))
    as [a [b Hab]].
  rewrite Hsql, Hab in Hd.
  assert (Ht : existsb (fun pattern => test pattern (a ++ w ++ b)) DANGEROUS_PATTERNS
               = true).
  { apply existsb_exists. exists (Pattern (RLit name) true).
    split; [exact Hpat | apply test_literal, Hw]. }
  congruence.
Qed.

Lemma validateQuery_rejects_dangerous_name_witness :
  valid (validateQuery (lit "SELECT PG_Read_File('/etc/passwd')") ALLOWED_PREFIXES)
  = false.
Proof.
  apply (validateQuery_rejects_dangerous_name
           (lit "SELECT PG_Read_File('/etc/passwd')") ALLOWED_PREFIXES
           (lit "pg_read_file") (lit "SELECT ") (lit "PG_Read_File")
           (lit "('/etc/passwd')")).
  - right. left. reflexivity.
  - reflexivity.
  - reflexivity.
Defined.

(** ** More on the identifier guard *)

Lemma match_here_VALID_IDENTIFIER_shape c r :
  is_ident_start c = true -> forallb is_ident_char r = true ->
  match_here VALID_IDENTIFIER None (c :: r) <> None.
Proof.
  intros Hc Hr.
  unfold match_here, VALID_IDENTIFIER; cbn [pat_re pat_icase RSeqs].
  rewrite rmatch_seq, rmatch_begin, rmatch_seq, rmatch_class, Hc.
  rewrite rmatch_seq, rmatch_star_class.
  rewrite (star_class_greedy _ is_ident_char r (Some c) None _
             (drop_while is_ident_char r, None)); [discriminate|].
  rewrite (drop_while_all _ _ Hr). reflexivity.
Qed.

Lemma test_VALID_IDENTIFIER_iff s :
  test VALID_IDENTIFIER s = true <->
  exists c r, s = c :: r /\ is_ident_start c = true /\ forallb is_ident_char r = true.
Proof.
  split.
  - intro H. pose proof (test_VALID_IDENTIFIER s H) as Hall.
    destruct s as [|c r]; [discriminate|].
    exists c, r. split; [reflexivity|].
    cbn [forallb] in Hall. apply andb_true_iff in Hall as [_ Hr].
    split; [|exact Hr].
    destruct (is_ident_start c) eqn:Hc; [reflexivity|]. exfalso.
    assert (Hm : match_here VALID_IDENTIFIER None (c :: r) = None).
    { unfold match_here, VALID_IDENTIFIER; cbn [pat_re pat_icase RSeqs].
      rewrite rmatch_seq, rmatch_begin, rmatch_seq, rmatch_class, Hc. reflexivity. }
    unfold test, exec in H. cbn [search] in H. rewrite Hm in H.
    rewrite (search_anchored VALID_IDENTIFIER match_here_VALID_IDENTIFIER_anchored) in H.
    discriminate.
  - intros [c [r [-> [Hc Hr]]]]. unfold test, exec. cbn [search].
    destruct (match_here VALID_IDENTIFIER None (c :: r)) as [[rest cap]|] eqn:E;
      [reflexivity|].
    exfalso. exact (match_here_VALID_IDENTIFIER_shape c r Hc Hr E).
Qed.

(** The verdict of the guard on a name. *)
Lemma validateIdentifier_eq name type :
  validateIdentifier name type
  = if test VALID_IDENTIFIER (trim name)
       && (jslength (trim name) <=? MAX_IDENTIFIER_LENGTH)%Z
    then mkIdentifier true None (Some (trim name))
    else mkIdentifier false (id_error (validateIdentifier name type)) None.
Proof.
  unfold validateIdentifier. destruct name as [|c0 name0]; [reflexivity|].
  set (name := c0 :: name0). cbv zeta.
  destruct (jslength (trim name) =? 0)%Z eqn:E0.
  { apply Z.eqb_eq in E0. unfold jslength in E0.
    destruct (trim name); [reflexivity | simpl in E0; lia]. }
  rewrite (Z.leb_antisym MAX_IDENTIFIER_LENGTH).
  destruct (MAX_IDENTIFIER_LENGTH <? jslength (trim name))%Z;
    [rewrite andb_false_r; reflexivity|].
  cbn [negb]. rewrite andb_true_r.
  destruct (test VALID_IDENTIFIER (trim name)); [|reflexivity].
  cbn [negb]. destruct (existsb _ RESERVED_KEYWORDS); reflexivity.
Qed.

(** X5.  A name is accepted exactly when, trimmed, it is a letter or an
    underscore followed by letters, digits and underscores, 63
    characters at most; a reserved word of SQL is accepted like any other
    name.  The sanitized name is the trimmed name. *)
Theorem validateIdentifier_accepts_iff (name : jsstring) (type : identifier_type) :
  (id_valid (validateIdentifier name type) = true <->
   exists c r, trim name = c :: r /\ is_ident_start c = true /\
               forallb is_ident_char r = true /\ (length (c :: r) <= 63)%nat) /\
  (id_valid (validateIdentifier name type) = true ->
   validateIdentifier name type = mkIdentifier true None (Some (trim name))).
Proof.
  rewrite (validateIdentifier_eq name type).
  destruct (test VALID_IDENTIFIER (trim name)) eqn:Et;
    destruct (jslength (trim name) <=? MAX_IDENTIFIER_LENGTH)%Z eqn:El;
    cbn [andb id_valid]; (split; [split|]); try discriminate; try reflexivity.
  - intros _. apply test_VALID_IDENTIFIER_iff in Et as [c [r [E [Hc Hr]]]].
    exists c, r. repeat split; try assumption.
    apply Z.leb_le in El. unfold jslength, MAX_IDENTIFIER_LENGTH in El.
    rewrite E in El. lia.
  - intros [c [r [E [_ [_ Hl]]]]]. exfalso.
    apply Z.leb_gt in El. unfold jslength, MAX_IDENTIFIER_LENGTH in El.
    rewrite E in El. lia.
  - intros [c [r [E [Hc [Hr _]]]]]. exfalso.
    assert (test VALID_IDENTIFIER (trim name) = true)
      by (apply test_VALID_IDENTIFIER_iff; exists c, r; auto).
    congruence.
  - intros [c [r [E [Hc [Hr _]]]]]. exfalso.
    assert (test VALID_IDENTIFIER (trim name) = true)
      by (apply test_VALID_IDENTIFIER_iff; exists c, r; auto).
    congruence.
Qed.

Lemma validateIdentifiers_loop_none ids type :
  validateIdentifiers_loop ids type = None <->
  Forall (fun i => id_valid (validateIdentifier i type) = true) ids.
Proof.
  induction ids as [|i rest IH]; cbn [validateIdentifiers_loop].
  - split; [constructor | reflexivity].
  - destruct (id_valid (validateIdentifier i type)) eqn:E; cbn [negb].
    + rewrite IH. split; [intro H; constructor; assumption|].
      intro H. inversion H; assumption.
    + split; [discriminate|]. intro H. inversion H; congruence.
Qed.

Lemma validateIdentifiers_loop_some ids type r :
  validateIdentifiers_loop ids type = Some r -> id_valid r = false.
Proof.
  induction ids as [|i rest IH]; cbn [validateIdentifiers_loop]; [discriminate|].
  destruct (id_valid (validateIdentifier i type)) eqn:E; cbn [negb]; [exact IH|].
  intro H. injection H as <-. exact E.
Qed.

Lemma validateIdentifiers_loop_first pre bad post type :
  Forall (fun i => id_valid (validateIdentifier i type) = true) pre ->
  id_valid (validateIdentifier bad type) = false ->
  validateIdentifiers_loop (pre ++ bad :: post) type
  = Some (validateIdentifier bad type).
Proof.
  intros Hpre Hbad. induction Hpre as [|i pre Hi _ IH];
    cbn [app validateIdentifiers_loop].
  - rewrite Hbad. reflexivity.
  - rewrite Hi. exact IH.
Qed.

(** X6.  A list of names is accepted exactly when each name is; the
    sanitized text is then the names as given (not trimmed), joined by a
    comma and a space, and the empty list is accepted.  Otherwise the
    verdict is that of the first name that is not accepted. *)
Theorem validateIdentifiers_accepts_iff (ids : list jsstring)
    (type : identifier_type) :
  (id_valid (validateIdentifiers ids type) = true <->
   Forall (fun i => id_valid (validateIdentifier i type) = true) ids) /\
  (id_valid (validateIdentifiers ids type) = true ->
   validateIdentifiers ids type = mkIdentifier true None (Some (join (lit ", ") ids))) /\
  (forall pre bad post,
     ids = pre ++ bad :: post ->
     Forall (fun i => id_valid (validateIdentifier i type) = true) pre ->
     id_valid (validateIdentifier bad type) = false ->
     validateIdentifiers ids type = validateIdentifier bad type).
Proof.
  unfold validateIdentifiers.
  destruct (validateIdentifiers_loop ids type) as [r|] eqn:E.
  - pose proof (validateIdentifiers_loop_some _ _ _ E) as Hr.
    split; [|split].
    + rewrite Hr. split; [discriminate|].
      intro H. apply validateIdentifiers_loop_none in H. congruence.
    + rewrite Hr. discriminate.
    + intros pre bad post -> Hpre Hbad.
      rewrite (validateIdentifiers_loop_first _ _ _ _ Hpre Hbad) in E. congruence.
  - split; [|split].
    + cbn [id_valid]. split; [intros _; apply validateIdentifiers_loop_none, E|].
      reflexivity.
    + reflexivity.
    + intros pre bad post -> Hpre Hbad.
      rewrite (validateIdentifiers_loop_first _ _ _ _ Hpre Hbad) in E. discriminate.
Qed.

Lemma validateIdentifier_accepted name type :
  id_valid (validateIdentifier name type) = true ->
  validateIdentifier name type = mkIdentifier true None (Some (trim name)) /\
  forallb is_ident_char (trim name) = true.
Proof.
  intro H. rewrite (validateIdentifier_eq name type) in H |- *.
  destruct (test VALID_IDENTIFIER (trim name)) eqn:Et; [|discriminate].
  destruct (jslength (trim name) <=? MAX_IDENTIFIER_LENGTH)%Z; [|discriminate].
  split; [reflexivity | apply test_VALID_IDENTIFIER, Et].
Qed.

(** X7.  [safeIdentifier] answers a quoted name exactly for the names
    the guard accepts, and the answer is the trimmed name between two
    double quotes: nothing in it needs doubling, for it has letters,
    digits and underscores only. *)
Theorem safeIdentifier_quotes_accepted (name : jsstring) (type : identifier_type) :
  match safeIdentifier name type with
  | Some q =>
      id_valid (validateIdentifier name type) = true /\
      q = [dquote] ++ trim name ++ [dquote] /\
      forallb is_ident_char (trim name) = true
  | None => id_valid (validateIdentifier name type) = false
  end.
Proof.
  unfold safeIdentifier. cbv zeta.
  destruct (id_valid (validateIdentifier name type)) eqn:E; cbn [negb];
    [|reflexivity].
  destruct (validateIdentifier_accepted name type E) as [-> Hall].
  cbn [sanitized option_map]. split; [reflexivity|]. split; [|exact Hall].
  rewrite quoteIdentifier_eq, (double_quotes_ident _ Hall). reflexivity.
Qed.

Lemma double_quotes_injective a : forall b,
  double_quotes a = double_quotes b -> a = b.
Proof.
  unfold double_quotes.
  induction a as [|x a IH]; intros [|y b] H; cbn [flat_map] in H.
  - reflexivity.
  - destruct (ascii_eqb y dquote); discriminate.
  - destruct (ascii_eqb x dquote); discriminate.
  - destruct (ascii_eqb x dquote) eqn:Ex, (ascii_eqb y dquote) eqn:Ey;
      cbn [app] in H.
    + apply ascii_eqb_eq in Ex, Ey. injection H as H. f_equal; [congruence|].
      apply IH, H.
    + injection H as Hy H. subst y. rewrite ascii_eqb_refl in Ey. discriminate.
    + injection H as Hx H. subst x. rewrite ascii_eqb_refl in Ex. discriminate.
    + injection H as -> H. f_equal. apply IH, H.
Qed.

(** X8.  Quoting loses nothing: two names with the same quoted form are
    the same name. *)
Theorem quoteIdentifier_injective (a b : jsstring) :
  quoteIdentifier a = quoteIdentifier b -> a = b.
Proof.
  rewrite !quoteIdentifier_eq. intro H.
  cbn [app] in H. injection H as H.
  apply app_inj_tail in H as [H _]. apply double_quotes_injective, H.
Qed.

Lemma quoteIdentifier_injective_witness :
  lit "a" ++ [dquote] ++ lit "b" = lit "a" ++ [dquote] ++ lit "b".
Proof.
  apply (quoteIdentifier_injective (lit "a" ++ [dquote] ++ lit "b")
           (lit "a" ++ [dquote] ++ lit "b")).
  reflexivity.
Defined.

(** ** More on the limit rewriter *)

(** X9.  When the statement contains [' LIMIT '] and a [LIMIT <digits>]
    clause, and [maxLimit] is an integer from 0 to the largest that
    JavaScript holds exactly ([Number.MAX_SAFE_INTEGER], [2^53 - 1]), the
    rewriter works on the first such clause and on nothing else: the
    statement is returned trimmed when the number of the clause is at
    most [maxLimit], and with the clause replaced by [LIMIT <maxLimit>]
    otherwise, the text before and after the clause kept as it is.  The
    limit the rewriter reads from its own result is the smaller of the
    two numbers.  (With such a [maxLimit] the double that the source
    reads for the number of the clause compares with it as the number
    itself does, and is the number itself when it is kept.) *)
Theorem enforceLimit_clamps_first_clause (sql : jsstring) (maxLimit : Z) :
  (0 <= maxLimit <= 9007199254740991)%Z ->
  includes (toUpperCase (trim sql)) (lit " LIMIT ") = true ->
  has_limit_token (toUpperCase (trim sql)) ->
  exists b k w ds r m,
    trim sql = b ++ k ++ w ++ ds ++ r /\
    toUpperCase k = lit "LIMIT" /\
    w <> [] /\ forallb is_space w = true /\
    ds <> [] /\ forallb is_digit ds = true /\
    enforceLimit sql maxLimit
    = (if (maxLimit <? parseInt ds)%Z
       then b ++ lit "LIMIT " ++ Number_toString maxLimit ++ r
       else trim sql) /\
    exec LIMIT_CAPTURE (toUpperCase (enforceLimit sql maxLimit)) = Some m /\
    option_map parseInt (m_group1 m) = Some (Z.min maxLimit (parseInt ds)).
Proof.
  intros [HN _] Hinc Htok.
  pose proof (trim_idem sql) as Htrim.
  apply limit_token_found in Htok.
  pose proof (find_first_upper (trim sql) []) as U.
  change (toUpperCase []) with (@nil ascii) in U. rewrite U in Htok.
  destruct (find_first (limit_here true) [] (trim sql)) as [[[b r] ds]|] eqn:F;
    [clear Htok | exfalso; apply Htok; reflexivity].
  destruct (first_clause_shape _ _ _ _ F) as [k [w [E [Hk [Hw [Hws [Hd [Hds _]]]]]]]].
  rewrite enforceLimit_eq. cbv zeta. rewrite Hinc, F.
  destruct (maxLimit <? parseInt ds)%Z eqn:Hlt.
  - destruct (enforce_replaced_fixed (trim sql) maxLimit b r ds Htrim HN Hinc F)
      as [_ [_ C]].
    exists b, k, w, ds, r.
    eexists. split; [exact E|].
    split; [exact (Forall2_upper _ _ Hk)|].
    do 4 (split; [assumption|]).
    split; [rewrite Hlt, <- !app_assoc; reflexivity|].
    rewrite exec_LIMIT_CAPTURE.
    pose proof (find_first_upper
                  (b ++ (lit "LIMIT " ++ Number_toString maxLimit) ++ r) []) as U'.
    change (toUpperCase []) with (@nil ascii) in U'. rewrite U', C.
    cbn [option_map fst snd]. split; [reflexivity|].
    cbn [m_group1 option_map]. rewrite (parseInt_Number_toString _ HN).
    apply Z.ltb_lt in Hlt. f_equal. lia.
  - exists b, k, w, ds, r.
    eexists. split; [exact E|].
    split; [exact (Forall2_upper _ _ Hk)|].
    do 4 (split; [assumption|]).
    split; [rewrite Hlt; reflexivity|].
    rewrite exec_LIMIT_CAPTURE, U.
    cbn [option_map fst snd]. split; [reflexivity|].
    cbn [m_group1 option_map]. apply Z.ltb_ge in Hlt. f_equal. lia.
Qed.

Lemma enforceLimit_clamps_first_clause_witness :
  exists b k w ds r m,
    trim (lit "SELECT * FROM t limit  50000 OFFSET 5") = b ++ k ++ w ++ ds ++ r /\
    toUpperCase k = lit "LIMIT" /\
    w <> [] /\ forallb is_space w = true /\
    ds <> [] /\ forallb is_digit ds = true /\
    enforceLimit (lit "SELECT * FROM t limit  50000 OFFSET 5") 1000
    = (if (1000 <? parseInt ds)%Z
       then b ++ lit "LIMIT " ++ Number_toString 1000 ++ r
       else trim (lit "SELECT * FROM t limit  50000 OFFSET 5")) /\
    exec LIMIT_CAPTURE
      (toUpperCase (enforceLimit (lit "SELECT * FROM t limit  50000 OFFSET 5") 1000))
    = Some m /\
    option_map parseInt (m_group1 m) = Some (Z.min 1000 (parseInt ds)).
Proof.
  apply (enforceLimit_clamps_first_clause
           (lit "SELECT * FROM t limit  50000 OFFSET 5") 1000).
  - lia.
  - reflexivity.
  - apply limit_token_found. vm_compute. discriminate.
Defined.

(** ** The query tools *)

Lemma normalized_or_accepted sql allowed :
  valid (validateQuery sql allowed) = true ->
  exists n,
    validateQuery sql allowed = mkValidation true None (Some n) /\
    normalized_or (validateQuery sql allowed) sql = n /\ trim n = n /\
    existsb (fun prefix => startsWith (toUpperCase n) prefix) allowed = true.
Proof.
  intro Hv.
  destruct (validateQuery_accepted sql allowed Hv) as [E [Hne [_ [Hex _]]]].
  cbv zeta in E, Hne, Hex.
  exists (replace_all WHITESPACE_RUN (lit " ") (trim sql)).
  split; [exact E|]. split; [|split; [|exact Hex]].
  - rewrite E. unfold normalized_or. cbn [normalized].
    destruct (replace_all WHITESPACE_RUN (lit " ") (trim sql)); [congruence|reflexivity].
  - exact (proj1 (normalized_shape sql _ eq_refl)).
Qed.

(** X10.  [dbQuery] hands a statement to the driver only when the
    validator accepts the input under the configured prefixes, and then
    exactly one: the normal form of the input, rewritten by
    [enforceLimit] with the smaller of the requested limit (100 when
    none is given) and the configured row limit. *)
Theorem dbQuery_sends_accepted_only (h : query_host) (input : DbQueryInput)
    (q : jsstring) :
  In q (sent (snd (dbQuery h input))) ->
  exists config n,
    q_load h = inr config /\
    validateQuery (query_sql input) (allowedStatements config)
    = mkValidation true None (Some n) /\
    q = enforceLimit n
          (Z.min (match query_limit input with Some l => l | None => 100%Z end)
                 (maxRowLimit config)) /\
    sent (snd (dbQuery h input)) = [q].
Proof.
  unfold dbQuery. cbv zeta.
  destruct (q_initialized h); cbn [negb]; [|intros []].
  destruct (q_load h) as [message|config]; [intros []|].
  destruct (valid (validateQuery (query_sql input) (allowedStatements config))) eqn:Hv;
    cbn [negb]; [|intros []].
  destruct (normalized_or_accepted _ _ Hv) as [n [E [-> _]]].
  destruct (q_connect h) as [message|]; [intros []|].
  destruct (q_query h _) as [message|result]; cbn [snd sent flat_map app In];
    (intros [<- | []]; exists config, n; repeat split; exact E).
Qed.

Lemma dbQuery_sends_accepted_only_witness :
  exists config n,
    q_load example_query_host = inr config /\
    validateQuery (lit "select *  from users;") (allowedStatements config)
    = mkValidation true None (Some n) /\
    lit "select * from users LIMIT 25"
    = enforceLimit n (Z.min 25 (maxRowLimit config)) /\
    sent (snd (dbQuery example_query_host
                 (mkQueryInput (lit "/project") (lit "select *  from users;") (Some 25%Z))))
    = [lit "select * from users LIMIT 25"].
Proof.
  apply (dbQuery_sends_accepted_only example_query_host
           (mkQueryInput (lit "/project") (lit "select *  from users;") (Some 25%Z))
           (lit "select * from users LIMIT 25")).
  left. reflexivity.
Defined.

(** X11.  For an accepted statement whose normal form has no [' LIMIT ']
    and begins with neither EXPLAIN nor SHOW, the statement [dbQuery]
    sends is the normal form without its final semicolon, followed by
    [LIMIT] and the smaller of the requested and the configured limit. *)
Theorem dbQuery_appends_limit (h : query_host) (input : DbQueryInput)
    (config : SecurityConfig) (n : jsstring) :
  q_initialized h = true -> q_load h = inr config -> q_connect h = None ->
  normalized (validateQuery (query_sql input) (allowedStatements config)) = Some n ->
  includes (toUpperCase n) (lit " LIMIT ") = false ->
  startsWith (toUpperCase n) (lit "EXPLAIN") = false ->
  startsWith (toUpperCase n) (lit "SHOW") = false ->
  sent (snd (dbQuery h input))
  = [strip_semi n ++ lit " LIMIT "
       ++ Number_toString
            (Z.min (match query_limit input with Some l => l | None => 100%Z end)
                   (maxRowLimit config))].
Proof.
  intros Hi Hl Hc Hn Hinc He Hs.
  assert (Hv : valid (validateQuery (query_sql input) (allowedStatements config)) = true).
  { destruct (validateQuery_cases (query_sql input) (allowedStatements config))
      as [[_ H] | [n' [E _]]]; [congruence | rewrite E; reflexivity]. }
  destruct (normalized_or_accepted _ _ Hv) as [n' [E [Hor [Htrim _]]]].
  assert (Hnn : n' = n) by (rewrite E in Hn; cbn [normalized] in Hn; congruence).
  rewrite Hnn in Hor, Htrim. clear E Hnn.
  unfold dbQuery. cbv zeta. rewrite Hi, Hl, Hv, Hc, Hor. cbn [negb].
  rewrite enforceLimit_eq. cbv zeta. rewrite Htrim, Hinc, He, Hs. cbn [orb].
  destruct (q_query h _); reflexivity.
Qed.

Lemma dbQuery_appends_limit_witness :
  sent (snd (dbQuery example_query_host
               (mkQueryInput (lit "/project") (lit "WITH r AS (SELECT 1) SELECT * FROM r;")
                             None)))
  = [lit "WITH r AS (SELECT 1) SELECT * FROM r LIMIT 100"].
Proof.
  apply (dbQuery_appends_limit example_query_host
           (mkQueryInput (lit "/project") (lit "WITH r AS (SELECT 1) SELECT * FROM r;")
                         None)
           (mkSecurity ALLOWED_PREFIXES 10000)
           (lit "WITH r AS (SELECT 1) SELECT * FROM r;")); reflexivity.
Defined.

(** X12.  [dbExplain] hands a statement to the driver only when the
    input is accepted under the prefixes SELECT and WITH, whatever the
    configuration allows: the statement explained is the normal form of
    the input, begins with SELECT or WITH in some letter case, and is the
    only one. *)
Theorem dbExplain_explains_select_or_with (h : query_host) (input : DbExplainInput)
    (q : jsstring) :
  In q (explained (snd (dbExplain h input))) ->
  validateQuery (explain_sql input) EXPLAINABLE = mkValidation true None (Some q) /\
  (startsWith (toUpperCase q) (lit "SELECT") = true
   \/ startsWith (toUpperCase q) (lit "WITH") = true) /\
  explained (snd (dbExplain h input)) = [q].
Proof.
  unfold dbExplain. cbv zeta.
  destruct (q_initialized h); cbn [negb]; [|intros []].
  destruct (q_load h) as [message|config]; [intros []|].
  destruct (valid (validateQuery (explain_sql input) EXPLAINABLE)) eqn:Hv;
    cbn [negb]; [|intros []].
  destruct (normalized_or_accepted _ _ Hv) as [n [E [-> [_ Hex]]]].
  assert (Hp : startsWith (toUpperCase n) (lit "SELECT") = true
               \/ startsWith (toUpperCase n) (lit "WITH") = true).
  { unfold EXPLAINABLE in Hex. cbn [map existsb] in Hex.
    rewrite orb_false_r in Hex. apply orb_true_iff in Hex. exact Hex. }
  destruct (q_connect h) as [message|]; [intros []|].
  destruct (q_explain h _) as [message|plan]; cbn [snd explained flat_map app In];
    (intros [<- | []]; repeat split; assumption).
Qed.

Lemma dbExplain_explains_select_or_with_witness :
  validateQuery (lit " select 1 ") EXPLAINABLE
  = mkValidation true None (Some (lit "select 1")) /\
  (startsWith (toUpperCase (lit "select 1")) (lit "SELECT") = true
   \/ startsWith (toUpperCase (lit "select 1")) (lit "WITH") = true) /\
  explained (snd (dbExplain example_query_host
                    (mkExplainInput (lit "/project") (lit " select 1 "))))
  = [lit "select 1"].
Proof.
  apply (dbExplain_explains_select_or_with example_query_host
           (mkExplainInput (lit "/project") (lit " select 1 ")) (lit "select 1")).
  left. reflexivity.
Defined.

(** ** The batch export: what is written *)

Lemma join_app (sep : jsstring) (a b : list jsstring) :
  a <> [] -> b <> [] -> join sep (a ++ b) = join sep a ++ sep ++ join sep b.
Proof.
  intros Ha Hb. induction a as [|x a IH]; [congruence|].
  destruct a as [|y a].
  - cbn [app]. destruct b; [congruence|]. reflexivity.
  - change ((x :: y :: a) ++ b) with (x :: (y :: a) ++ b).
    cbn [join]. cbn [app]. cbn [join] in IH. cbn [app] in IH.
    rewrite IH by discriminate. cbn [join]. rewrite <- !app_assoc. reflexivity.
Qed.

Lemma queries_app a b : queries (a ++ b) = queries a ++ queries b.
Proof. apply flat_map_app. Qed.

Lemma log_info_queries h m :
  queries (if has_logger h then [ELogInfo m] else []) = [].
Proof. destruct (has_logger h); reflexivity. Qed.

Lemma lines_written_refl h fp sep line j w :
  lines_written h fp sep line j w (Finished j w).
Proof.
  exists []. cbn [end_world end_job queries flat_map fetched length].
  rewrite app_nil_r, Nat.add_0_r, Z.add_0_r. repeat split.
Qed.

Lemma lines_written_no_rows h fp sep line j w q e :
  end_job e = j ->
  end_world e = snd (run_query h q w) ->
  match driver_query h (w_issued w) q with
  | Rows rows => rows = []
  | Throws _ => True
  end ->
  lines_written h fp sep line j w e.
Proof.
  intros Hj Hw Hq. exists [EQuery q]. rewrite Hj, Hw.
  unfold run_query; cbn [snd w_trace w_issued w_fs queries flat_map app length fetched].
  split; [reflexivity|]. split; [lia|].
  assert (HF : match driver_query h (w_issued w) q with
               | Rows rows => rows
               | Throws _ => []
               end ++ [] = []).
  { destruct (driver_query h (w_issued w) q); [subst; reflexivity | reflexivity]. }
  rewrite HF. cbn [length]. split; [lia | reflexivity].
Qed.

Lemma content_or_empty_fs w w' fp :
  w_fs w' = w_fs w -> content_or_empty w' fp = content_or_empty w fp.
Proof. intro H. unfold content_or_empty, file_content. rewrite H. reflexivity. Qed.

(** One batch of rows, then a run from the counters and the world it
    leaves. *)
Lemma lines_written_step h fmt fp base size cap sep line rows j w e :
  (forall rows j w,
     snd (write_batch h fmt fp rows j w)
     = appendFileSync fp ((if (0 <? totalRows j)%Z then sep else [])
                            ++ join sep (map line rows)) w) ->
  (0 <= totalRows j)%Z ->
  rows <> [] ->
  driver_query h (w_issued w) (batch_query base (effective_limit size cap j) j)
  = Rows rows ->
  lines_written h fp sep line
    (fst (after_batch h fmt fp base size cap rows j w))
    (snd (after_batch h fmt fp base size cap rows j w)) e ->
  lines_written h fp sep line j w e.
Proof.
  intros Hwrite Hpos Hrows Hq [evs [Ht [Hi [Hn Hc]]]].
  set (q := batch_query base (effective_limit size cap j) j) in *.
  set (data := (if (0 <? totalRows j)%Z then sep else []) ++ join sep (map line rows)).
  assert (Hw3 : snd (after_batch h fmt fp base size cap rows j w)
                = log_info h (lit "Batch exported")
                    (appendFileSync fp data (snd (run_query h q w)))).
  { unfold after_batch. cbn [snd]. fold q. rewrite Hwrite. reflexivity. }
  set (w3 := snd (after_batch h fmt fp base size cap rows j w)) in *.
  assert (Htr : w_trace w3
                = w_trace w ++ [EQuery q; EAppend fp data]
                    ++ (if has_logger h then [ELogInfo (lit "Batch exported")] else [])).
  { rewrite Hw3, log_info_trace. unfold appendFileSync, run_query.
    cbn [snd w_trace]. rewrite <- !app_assoc. reflexivity. }
  assert (His : w_issued w3 = S (w_issued w)).
  { rewrite Hw3, log_info_issued. reflexivity. }
  assert (Hcur : file_content w3 fp = Some (content_or_empty w fp ++ data)).
  { rewrite Hw3. unfold file_content at 1. rewrite log_info_fs.
    fold (file_content (appendFileSync fp data (snd (run_query h q w))) fp).
    rewrite file_content_append. reflexivity. }
  assert (Hfs : forall w', w_fs w' = w_fs w3 ->
                  file_content w' fp = Some (content_or_empty w fp ++ data)).
  { intros w' E. unfold file_content. rewrite E. exact Hcur. }
  cbv zeta in Hn, Hc. rewrite His in Hi, Hn, Hc. rewrite Htr in Ht.
  cbn [after_batch fst next_job totalRows] in Hn, Hc.
  exists ([EQuery q; EAppend fp data]
            ++ (if has_logger h then [ELogInfo (lit "Batch exported")] else [])
            ++ evs).
  rewrite !queries_app, log_info_queries.
  cbn [queries flat_map app length fetched]. rewrite Hq.
  split; [rewrite Ht, <- !app_assoc; reflexivity|].
  split; [rewrite Hi; lia|].
  set (F := fetched h (S (w_issued w)) (queries evs)) in *.
  split; [rewrite Hn, length_app; lia|].
  destruct (rows ++ F) as [|x RF] eqn:ERF.
  { destruct rows; [congruence | discriminate]. }
  rewrite <- ERF. clear ERF x RF.
  destruct F as [|f0 F0] eqn:EF.
  - rewrite app_nil_r. exact (Hfs _ Hc).
  - rewrite Hc. f_equal.
    unfold content_or_empty at 1. rewrite Hcur.
    replace (0 <? totalRows j + Z.of_nat (length rows))%Z with true
      by (symmetry; apply Z.ltb_lt; destruct rows; [congruence | cbn [length]; lia]).
    unfold data. rewrite map_app.
    rewrite (join_app sep (map line rows) (map line (f0 :: F0)));
      [|destruct rows; [congruence | discriminate] | discriminate].
    rewrite <- !app_assoc. reflexivity.
Qed.

(** The loop, for a format that writes one text per row. *)
Lemma batch_loop_lines h fmt fp base size cap sep line :
  (forall rows j w,
     snd (write_batch h fmt fp rows j w)
     = appendFileSync fp ((if (0 <? totalRows j)%Z then sep else [])
                            ++ join sep (map line rows)) w) ->
  forall fuel j w e,
    (0 <= totalRows j)%Z ->
    batch_loop fuel h fmt fp base size cap j w = Some e ->
    lines_written h fp sep line j w e.
Proof.
  intro Hwrite. induction fuel as [|fuel IH]; intros j w e Hpos H; [discriminate|].
  cbn [batch_loop] in H. cbv zeta in H.
  destruct (effective_limit size cap j <=? 0)%Z.
  { injection H as <-. apply lines_written_refl. }
  set (q := batch_query base (effective_limit size cap j) j) in *.
  destruct (run_query h q w) as [res w1] eqn:Erun.
  assert (Hres : res = driver_query h (w_issued w) q)
    by (unfold run_query in Erun; congruence).
  assert (Hw1 : w1 = snd (run_query h q w)) by (rewrite Erun; reflexivity).
  destruct res as [rows|message].
  2:{ injection H as <-.
      apply (lines_written_no_rows h fp sep line j w q); [reflexivity|exact Hw1|].
      rewrite <- Hres. exact I. }
  destruct (Z.of_nat (length rows) =? 0)%Z eqn:E0.
  { injection H as <-.
    apply (lines_written_no_rows h fp sep line j w q); [reflexivity|exact Hw1|].
    rewrite <- Hres. apply Z.eqb_eq in E0. destruct rows; [reflexivity|].
    cbn [length] in E0. lia. }
  assert (Hne : rows <> []) by (intros ->; discriminate).
  apply (lines_written_step h fmt fp base size cap sep line rows j w e Hwrite Hpos Hne);
    [symmetry; exact Hres|].
  unfold after_batch. fold q. rewrite <- Hw1.
  destruct (write_batch h fmt fp rows j w1) as [hs w2]. cbn [fst snd].
  assert (Hpos' : (0 <= totalRows (next_job j (Z.of_nat (length rows)) hs))%Z)
    by (cbn [next_job totalRows]; lia).
  destruct (Z.of_nat (length rows) <? effective_limit size cap j)%Z.
  { injection H as <-. apply lines_written_refl. }
  destruct (cap_of cap) as [m|].
  - destruct (m <=? totalRows (next_job j (Z.of_nat (length rows)) hs))%Z.
    + injection H as <-. apply lines_written_refl.
    + exact (IH _ _ _ Hpos' H).
  - exact (IH _ _ _ Hpos' H).
Qed.

Lemma log_error_trace h m w :
  w_trace (log_error h m w)
  = w_trace w ++ (if has_logger h then [ELogError m] else []).
Proof.
  unfold log_error. destruct (has_logger h); [reflexivity|].
  symmetry. apply app_nil_r.
Qed.

Lemma file_content_log_info h m w fp :
  file_content (log_info h m w) fp = file_content w fp.
Proof. unfold file_content. rewrite log_info_fs. reflexivity. Qed.

Lemma file_content_log_error h m w fp :
  file_content (log_error h m w) fp = file_content w fp.
Proof. unfold file_content. rewrite log_error_fs. reflexivity. Qed.

Lemma log_error_queries h m :
  queries (if has_logger h then [ELogError m] else []) = [].
Proof. destruct (has_logger h); reflexivity. Qed.

Lemma closing_events_queries h fmt fp : queries (closing_events h fmt fp) = [].
Proof. unfold closing_events. destruct fmt, (has_logger h); reflexivity. Qed.

(** The two ways the tool ends once its guards are passed and the driver
    obtained: the loop finished, or a query threw. *)
Lemma dbExportBatch_outcome fuel h input w r w' :
  isInitialized h = true ->
  valid (validateQuery (sql input) ALLOWED_PREFIXES) = true ->
  test ORDER_BY (sql input) = true ->
  connect_error h = None ->
  dbExportBatch fuel h input w = Some (r, w') ->
  let fmt := format_of input in
  let fp := fst (resolve_output h input w) in
  let w1 := open_output fmt fp (snd (resolve_output h input w)) in
  exists e,
    batch_loop fuel h fmt fp (base_query (sql input)) (batchSize_of input)
      (maxRows input) initial_job w1 = Some e /\
    match e with
    | Finished j w2 =>
        r = success (export_summary h fmt fp (batchSize_of input) j) /\
        w' = log_info h (lit "Batch export completed") (close_output fmt fp w2)
    | Threw message j w2 =>
        r = tool_error (lit "Failed to export data") (Some message) /\
        w' = log_error h (lit "Batch export failed") w2
    end.
Proof.
  intros Hi Hv Ho Hc H. rewrite (dbExportBatch_run fuel h input w Hi Hv Ho Hc) in H.
  cbv zeta in *.
  destruct (batch_loop fuel h (format_of input) (fst (resolve_output h input w))
              (base_query (sql input)) (batchSize_of input) (maxRows input)
              initial_job _) as [[j w2|message j w2]|]; [| |discriminate].
  - exists (Finished j w2). split; [reflexivity|].
    injection H as <- <-. split; reflexivity.
  - exists (Threw message j w2). split; [reflexivity|].
    unfold export_failed in H. injection H as <- <-. split; reflexivity.
Qed.

(** X13.  A JSONL export writes the rows the driver answered, one text
    per row and one row per line, whatever the batches were: the text is
    appended to what the file held before, nothing is written to the
    output path (no empty file is made there either) when no row was
    fetched, and after a failure of the driver the file holds the rows
    fetched before it.  The count of
    rows reported on success is the count of the rows written. *)
Theorem dbExportBatch_jsonl_lines (fuel : nat) (h : host)
    (input : DbExportBatchInput) (w : world) (r : ToolResult) (w' : world) :
  isInitialized h = true ->
  valid (validateQuery (sql input) ALLOWED_PREFIXES) = true ->
  test ORDER_BY (sql input) = true ->
  connect_error h = None ->
  format_of input = jsonl ->
  dbExportBatch fuel h input w = Some (r, w') ->
  let fp := fst (resolve_output h input w) in
  let w0 := snd (resolve_output h input w) in
  exists evs,
    w_trace w' = w_trace w0 ++ evs /\
    let F := fetched h (w_issued w) (queries evs) in
    (isError r = false ->
     field (lit "totalRows") (data r) = Some (JNumber (Z.of_nat (length F)))) /\
    match F with
    | [] => w_fs w' fp = w_fs w0 fp
    | _ :: _ =>
        file_content w' fp
        = Some (content_or_empty w0 fp ++ join [newline] (map (JSON_stringify h) F))
    end.
Proof.
  intros Hi Hv Ho Hc Hf H. cbv zeta.
  destruct (dbExportBatch_outcome fuel h input w r w' Hi Hv Ho Hc H) as [e [Hloop He]].
  cbv zeta in Hloop, He. rewrite Hf in Hloop, He. cbn [open_output] in Hloop.
  set (fp := fst (resolve_output h input w)) in *.
  set (w0 := snd (resolve_output h input w)) in *.
  pose proof (batch_loop_lines h jsonl fp (base_query (sql input)) (batchSize_of input)
                (maxRows input) [newline] (JSON_stringify h)
                (fun _ _ _ => eq_refl) fuel initial_job w0 e (Z.le_refl 0) Hloop)
    as [evs [Ht [_ [Hn Hc']]]].
  cbv zeta in Hn, Hc'. cbn [initial_job totalRows] in Hn, Hc'.
  change (0 <? 0)%Z with false in Hc'. cbn [app] in Hc'.
  assert (Hiss : w_issued w0 = w_issued w) by apply resolve_output_issued.
  rewrite Hiss in Hn, Hc'.
  destruct e as [j w2|message j w2]; cbn [end_world end_job] in *;
    destruct He as [-> ->].
  - exists (evs ++ closing_events h jsonl fp).
    rewrite close_output_trace, Ht, <- app_assoc.
    split; [reflexivity|].
    rewrite queries_app, closing_events_queries, app_nil_r. cbv zeta.
    split.
    + intros _. cbn [data success].
      rewrite (proj1 (proj2 (export_summary_fields h jsonl fp (batchSize_of input) j))).
      rewrite Hn. reflexivity.
    + destruct (fetched h (w_issued w) (queries evs)).
      * rewrite log_info_fs. exact (f_equal (fun fs => fs fp) Hc').
      * unfold file_content. rewrite log_info_fs. exact Hc'.
  - exists (evs ++ (if has_logger h then [ELogError (lit "Batch export failed")] else [])).
    rewrite log_error_trace, Ht, <- app_assoc.
    split; [reflexivity|].
    rewrite queries_app, log_error_queries, app_nil_r. cbv zeta.
    split; [discriminate|].
    destruct (fetched h (w_issued w) (queries evs)).
    + rewrite log_error_fs. exact (f_equal (fun fs => fs fp) Hc').
    + unfold file_content. rewrite log_error_fs. exact Hc'.
Qed.

Lemma dbExportBatch_jsonl_lines_witness :
  match dbExportBatch 3 example_pages (example_export jsonl) empty_world with
  | Some (r, w') =>
      let fp := fst (resolve_output example_pages (example_export jsonl) empty_world) in
      let w0 := snd (resolve_output example_pages (example_export jsonl) empty_world) in
      exists evs,
        w_trace w' = w_trace w0 ++ evs /\
        let F := fetched example_pages (w_issued empty_world) (queries evs) in
        (isError r = false ->
         field (lit "totalRows") (data r) = Some (JNumber (Z.of_nat (length F)))) /\
        match F with
        | [] => w_fs w' fp = w_fs w0 fp
        | _ :: _ =>
            file_content w' fp
            = Some (content_or_empty w0 fp
                      ++ join [newline] (map (JSON_stringify example_pages) F))
        end
  | None => False
  end.
Proof.
  destruct (dbExportBatch 3 example_pages (example_export jsonl) empty_world)
    as [[r w']|] eqn:E.
  - exact (dbExportBatch_jsonl_lines 3 example_pages (example_export jsonl)
             empty_world r w' eq_refl eq_refl eq_refl eq_refl eq_refl E).
  - exfalso.
    assert (Hs : option_map (fun _ => tt)
                   (dbExportBatch 3 example_pages (example_export jsonl) empty_world)
                 = Some tt) by (vm_compute; reflexivity).
    rewrite E in Hs. discriminate.
Defined.

(** X14.  A JSON export writes an array of the rows the driver
    answered, whatever the batches were and whatever the file held
    before: an opening bracket, the rows indented by two spaces and
    separated by commas, and, unless the driver failed, the closing
    bracket.  The count of rows reported on success is the count of the
    rows written. *)
Theorem dbExportBatch_json_array (fuel : nat) (h : host)
    (input : DbExportBatchInput) (w : world) (r : ToolResult) (w' : world) :
  isInitialized h = true ->
  valid (validateQuery (sql input) ALLOWED_PREFIXES) = true ->
  test ORDER_BY (sql input) = true ->
  connect_error h = None ->
  format_of input = json ->
  dbExportBatch fuel h input w = Some (r, w') ->
  let fp := fst (resolve_output h input w) in
  let w0 := snd (resolve_output h input w) in
  exists evs,
    w_trace w' = w_trace w0 ++ evs /\
    let F := fetched h (w_issued w) (queries evs) in
    (isError r = false ->
     field (lit "totalRows") (data r) = Some (JNumber (Z.of_nat (length F)))) /\
    file_content w' fp
    = Some (("[" :: [newline])
              ++ join ("," :: [newline])
                      (map (fun row => lit "  " ++ JSON_stringify h row) F)
              ++ (if isError r then [] else newline :: ["]"])).
Proof.
  intros Hi Hv Ho Hc Hf H. cbv zeta.
  destruct (dbExportBatch_outcome fuel h input w r w' Hi Hv Ho Hc H) as [e [Hloop He]].
  cbv zeta in Hloop, He. rewrite Hf in Hloop, He. cbn [open_output] in Hloop.
  set (fp := fst (resolve_output h input w)) in *.
  set (w0 := snd (resolve_output h input w)) in *.
  set (w1 := writeFileSync fp ("[" :: [newline]) w0) in *.
  pose proof (batch_loop_lines h json fp (base_query (sql input)) (batchSize_of input)
                (maxRows input) ("," :: [newline])
                (fun row => lit "  " ++ JSON_stringify h row)
                (fun _ _ _ => eq_refl) fuel initial_job w1 e (Z.le_refl 0) Hloop)
    as [evs [Ht [_ [Hn Hc']]]].
  cbv zeta in Hn, Hc'. cbn [initial_job totalRows] in Hn, Hc'.
  change (0 <? 0)%Z with false in Hc'. cbn [app] in Hc'.
  assert (Hiss : w_issued w1 = w_issued w) by apply resolve_output_issued.
  rewrite Hiss in Hn, Hc'.
  assert (Hopen : content_or_empty w1 fp = "[" :: [newline]).
  { unfold content_or_empty, w1. rewrite file_content_write. reflexivity. }
  assert (Hbody : file_content (end_world e) fp
                  = Some (("[" :: [newline])
                            ++ join ("," :: [newline])
                                 (map (fun row => lit "  " ++ JSON_stringify h row)
                                      (fetched h (w_issued w) (queries evs))))).
  { destruct (fetched h (w_issued w) (queries evs)).
    - unfold file_content. rewrite Hc'.
      fold (file_content w1 fp). unfold w1. rewrite file_content_write. reflexivity.
    - rewrite Hc', Hopen. reflexivity. }
  clear Hc'.
  assert (Ht1 : w_trace w1 = w_trace w0 ++ [EWrite fp ("[" :: [newline])]) by reflexivity.
  destruct e as [j w2|message j w2]; cbn [end_world end_job] in *;
    destruct He as [-> ->].
  - exists ([EWrite fp ("[" :: [newline])] ++ evs ++ closing_events h json fp).
    rewrite close_output_trace, Ht, Ht1, <- !app_assoc.
    split; [reflexivity|].
    rewrite !queries_app, closing_events_queries, app_nil_r.
    cbn [queries flat_map app]. cbv zeta.
    split.
    + intros _. cbn [data success].
      rewrite (proj1 (proj2 (export_summary_fields h json fp (batchSize_of input) j))).
      rewrite Hn. reflexivity.
    + cbn [isError success]. unfold file_content at 1. rewrite log_info_fs.
      fold (file_content (close_output json fp w2) fp). cbn [close_output].
      rewrite file_content_append, Hbody. rewrite <- !app_assoc. reflexivity.
  - exists ([EWrite fp ("[" :: [newline])] ++ evs
              ++ (if has_logger h then [ELogError (lit "Batch export failed")] else [])).
    rewrite log_error_trace, Ht, Ht1, <- !app_assoc.
    split; [reflexivity|].
    rewrite !queries_app, log_error_queries, app_nil_r.
    cbn [queries flat_map app]. cbv zeta.
    split; [discriminate|].
    cbn [isError tool_error]. unfold file_content at 1. rewrite log_error_fs.
    fold (file_content w2 fp). rewrite Hbody, app_nil_r. reflexivity.
Qed.

Lemma dbExportBatch_json_array_witness :
  match dbExportBatch 3 example_pages (example_export json) empty_world with
  | Some (r, w') =>
      let fp := fst (resolve_output example_pages (example_export json) empty_world) in
      let w0 := snd (resolve_output example_pages (example_export json) empty_world) in
      exists evs,
        w_trace w' = w_trace w0 ++ evs /\
        let F := fetched example_pages (w_issued empty_world) (queries evs) in
        (isError r = false ->
         field (lit "totalRows") (data r) = Some (JNumber (Z.of_nat (length F)))) /\
        file_content w' fp
        = Some (("[" :: [newline])
                  ++ join ("," :: [newline])
                       (map (fun row => lit "  " ++ JSON_stringify example_pages row) F)
                  ++ (if isError r then [] else newline :: ["]"]))
  | None => False
  end.
Proof.
  destruct (dbExportBatch 3 example_pages (example_export json) empty_world)
    as [[r w']|] eqn:E.
  - exact (dbExportBatch_json_array 3 example_pages (example_export json)
             empty_world r w' eq_refl eq_refl eq_refl eq_refl eq_refl E).
  - exfalso.
    assert (Hs : option_map (fun _ => tt)
                   (dbExportBatch 3 example_pages (example_export json) empty_world)
                 = Some tt) by (vm_compute; reflexivity).
    rewrite E in Hs. discriminate.
Defined.

Lemma join_lines (f : row -> jsstring) (rows : list row) :
  rows <> [] ->
  join [newline] (map f rows) ++ [newline]
  = concat (map (fun r => f r ++ [newline]) rows).
Proof.
  induction rows as [|r rows IH]; [congruence|]. intros _.
  destruct rows as [|r' rows].
  - cbn. rewrite app_nil_r. reflexivity.
  - change (map f (r :: r' :: rows)) with (f r :: map f (r' :: rows)).
    cbn [join]. change (map f (r' :: rows)) with (f r' :: map f rows).
    cbn [map concat] in *. rewrite <- IH by discriminate.
    cbn [join]. rewrite <- !app_assoc. reflexivity.
Qed.

Lemma csv_written_refl h fp j w : csv_written h fp j w (Finished j w).
Proof.
  exists []. cbn [end_world end_job queries flat_map fetched length].
  rewrite app_nil_r, Nat.add_0_r, Z.add_0_r. repeat split.
Qed.

Lemma csv_written_no_rows h fp j w q e :
  end_job e = j ->
  end_world e = snd (run_query h q w) ->
  match driver_query h (w_issued w) q with
  | Rows rows => rows = []
  | Throws _ => True
  end ->
  csv_written h fp j w e.
Proof.
  intros Hj Hw Hq. exists [EQuery q]. rewrite Hj, Hw.
  unfold run_query; cbn [snd w_trace w_issued w_fs queries flat_map app length fetched].
  split; [reflexivity|]. split; [lia|].
  assert (HF : match driver_query h (w_issued w) q with
               | Rows rows => rows
               | Throws _ => []
               end ++ [] = []).
  { destruct (driver_query h (w_issued w) q); [subst; reflexivity | reflexivity]. }
  rewrite HF. cbn [length]. split; [lia | reflexivity].
Qed.

(** One batch of rows in the CSV format, then a run from the counters
    and the world it leaves. *)
Lemma csv_written_step h fp base size cap r0 rows0 j w e :
  driver_query h (w_issued w) (batch_query base (effective_limit size cap j) j)
  = Rows (r0 :: rows0) ->
  csv_written h fp
    (fst (after_batch h csv fp base size cap (r0 :: rows0) j w))
    (snd (after_batch h csv fp base size cap (r0 :: rows0) j w)) e ->
  csv_written h fp j w e.
Proof.
  intros Hq [evs [Ht [Hi [Hn Hc]]]].
  set (rows := r0 :: rows0) in *.
  set (q := batch_query base (effective_limit size cap j) j) in *.
  set (hs := if isFirstBatch j then map fst r0 else headers j).
  set (body := concat (map (fun r => csv_line hs r ++ [newline]) rows)).
  set (w1 := snd (run_query h q w)) in *.
  set (j3 := fst (after_batch h csv fp base size cap rows j w)) in *.
  set (w3 := snd (after_batch h csv fp base size cap rows j w)) in *.
  assert (Hj3 : isFirstBatch j3 = false /\ headers j3 = hs
                /\ totalRows j3 = (totalRows j + Z.of_nat (length rows))%Z).
  { unfold j3, after_batch, write_batch, hs. cbn [fst next_job isFirstBatch headers totalRows].
    destruct (isFirstBatch j); repeat split; reflexivity. }
  destruct Hj3 as [Hfirst [Hhs Htot]].
  assert (Hw3 : exists wevs,
            w_trace w3 = w_trace w ++ EQuery q :: wevs /\ queries wevs = [] /\
            w_issued w3 = S (w_issued w) /\
            file_content w3 fp
            = Some ((if isFirstBatch j then join (lit ",") hs ++ [newline]
                     else content_or_empty w fp) ++ body)).
  { unfold w3, after_batch, write_batch, body, hs. cbn [snd fst]. fold q. fold w1.
    destruct (isFirstBatch j); cbn [andb rows length Nat.ltb Nat.leb fst snd].
    - eexists. split; [|split; [|split]].
      + rewrite log_info_trace. unfold appendFileSync, writeFileSync, w1, run_query.
        cbn [snd w_trace]. rewrite <- !app_assoc. cbn [app]. reflexivity.
      + destruct (has_logger h); reflexivity.
      + rewrite log_info_issued. reflexivity.
      + unfold file_content at 1. rewrite log_info_fs.
        match goal with |- context [appendFileSync ?p ?d ?x] =>
          fold (file_content (appendFileSync p d x) fp) end.
        rewrite file_content_append, file_content_write.
        rewrite join_lines by discriminate. reflexivity.
    - eexists. split; [|split; [|split]].
      + rewrite log_info_trace. unfold appendFileSync, w1, run_query.
        cbn [snd w_trace]. rewrite <- !app_assoc. cbn [app]. reflexivity.
      + destruct (has_logger h); reflexivity.
      + rewrite log_info_issued. reflexivity.
      + unfold file_content at 1. rewrite log_info_fs.
        match goal with |- context [appendFileSync ?p ?d ?x] =>
          fold (file_content (appendFileSync p d x) fp) end.
        rewrite file_content_append.
        rewrite join_lines by discriminate. reflexivity. }
  destruct Hw3 as [wevs [Htr [Hqs [His Hcur]]]].
  cbv zeta in Hn, Hc. rewrite His in Hi, Hn, Hc. rewrite Htr in Ht.
  rewrite Hfirst, Hhs in Hc. rewrite Htot in Hn.
  exists (EQuery q :: wevs ++ evs).
  change (EQuery q :: wevs ++ evs) with ([EQuery q] ++ wevs ++ evs).
  rewrite !queries_app, Hqs.
  cbn [queries flat_map app length fetched]. rewrite Hq.
  split; [rewrite Ht, <- !app_assoc; reflexivity|].
  split; [rewrite Hi; lia|].
  set (F := fetched h (S (w_issued w)) (queries evs)) in *.
  split; [rewrite Hn, length_app; lia|].
  unfold rows at 1. cbn [app]. fold hs.
  destruct F as [|f0 F0] eqn:EF.
  - rewrite app_nil_r. unfold file_content. rewrite Hc. exact Hcur.
  - rewrite Hc. f_equal. unfold content_or_empty at 1. rewrite Hcur.
    change (r0 :: rows0 ++ f0 :: F0) with (rows ++ f0 :: F0).
    rewrite map_app, concat_app. unfold body. rewrite <- !app_assoc. reflexivity.
Qed.

(** The loop in the CSV format. *)
Lemma batch_loop_csv h fp base size cap :
  forall fuel j w e,
    batch_loop fuel h csv fp base size cap j w = Some e ->
    csv_written h fp j w e.
Proof.
  induction fuel as [|fuel IH]; intros j w e H; [discriminate|].
  cbn [batch_loop] in H. cbv zeta in H.
  destruct (effective_limit size cap j <=? 0)%Z.
  { injection H as <-. apply csv_written_refl. }
  set (q := batch_query base (effective_limit size cap j) j) in *.
  destruct (run_query h q w) as [res w1] eqn:Erun.
  assert (Hres : res = driver_query h (w_issued w) q)
    by (unfold run_query in Erun; congruence).
  assert (Hw1 : w1 = snd (run_query h q w)) by (rewrite Erun; reflexivity).
  destruct res as [rows|message].
  2:{ injection H as <-.
      apply (csv_written_no_rows h fp j w q); [reflexivity|exact Hw1|].
      rewrite <- Hres. exact I. }
  destruct rows as [|r0 rows0].
  { cbn [length Z.of_nat Z.eqb] in H. injection H as <-.
    apply (csv_written_no_rows h fp j w q); [reflexivity|exact Hw1|].
    rewrite <- Hres. reflexivity. }
  replace (Z.of_nat (length (r0 :: rows0)) =? 0)%Z with false in H
    by (symmetry; apply Z.eqb_neq; cbn [length]; lia).
  apply (csv_written_step h fp base size cap r0 rows0 j w e);
    [symmetry; exact Hres|].
  unfold after_batch. fold q. rewrite <- Hw1.
  destruct (write_batch h csv fp (r0 :: rows0) j w1) as [hs w2]. cbn [fst snd].
  destruct (Z.of_nat (length (r0 :: rows0)) <? effective_limit size cap j)%Z.
  { injection H as <-. apply csv_written_refl. }
  destruct (cap_of cap) as [m|].
  - destruct (m <=? totalRows (next_job j (Z.of_nat (length (r0 :: rows0))) hs))%Z.
    + injection H as <-. apply csv_written_refl.
    + exact (IH _ _ _ H).
  - exact (IH _ _ _ H).
Qed.

(** X15.  A CSV export writes a line of the keys of the first row the
    driver answered, then one line per row, each row read through those
    keys (a key a later row lacks gives an empty cell, a key it adds is
    dropped), every line ended by a line feed; what the file held before
    is replaced.  When no row was fetched nothing is written to the
    output path, and after a failure of the driver the file holds the
    rows fetched before it. *)
Theorem dbExportBatch_csv_lines (fuel : nat) (h : host)
    (input : DbExportBatchInput) (w : world) (r : ToolResult) (w' : world) :
  isInitialized h = true ->
  valid (validateQuery (sql input) ALLOWED_PREFIXES) = true ->
  test ORDER_BY (sql input) = true ->
  connect_error h = None ->
  format_of input = csv ->
  dbExportBatch fuel h input w = Some (r, w') ->
  let fp := fst (resolve_output h input w) in
  let w0 := snd (resolve_output h input w) in
  exists evs,
    w_trace w' = w_trace w0 ++ evs /\
    let F := fetched h (w_issued w) (queries evs) in
    (isError r = false ->
     field (lit "totalRows") (data r) = Some (JNumber (Z.of_nat (length F)))) /\
    match F with
    | [] => w_fs w' fp = w_fs w0 fp
    | r0 :: _ =>
        file_content w' fp
        = Some (join (lit ",") (map fst r0) ++ [newline]
                  ++ concat (map (fun row => csv_line (map fst r0) row ++ [newline]) F))
    end.
Proof.
  intros Hi Hv Ho Hc Hf H. cbv zeta.
  destruct (dbExportBatch_outcome fuel h input w r w' Hi Hv Ho Hc H) as [e [Hloop He]].
  cbv zeta in Hloop, He. rewrite Hf in Hloop, He. cbn [open_output] in Hloop.
  set (fp := fst (resolve_output h input w)) in *.
  set (w0 := snd (resolve_output h input w)) in *.
  pose proof (batch_loop_csv h fp (base_query (sql input)) (batchSize_of input)
                (maxRows input) fuel initial_job w0 e Hloop)
    as [evs [Ht [_ [Hn Hc']]]].
  cbv zeta in Hn, Hc'. cbn [initial_job totalRows isFirstBatch] in Hn, Hc'.
  assert (Hiss : w_issued w0 = w_issued w) by apply resolve_output_issued.
  rewrite Hiss in Hn, Hc'.
  destruct e as [j w2|message j w2]; cbn [end_world end_job] in *;
    destruct He as [-> ->].
  - exists (evs ++ closing_events h csv fp).
    rewrite close_output_trace, Ht, <- app_assoc.
    split; [reflexivity|].
    rewrite queries_app, closing_events_queries, app_nil_r. cbv zeta.
    split.
    + intros _. cbn [data success].
      rewrite (proj1 (proj2 (export_summary_fields h csv fp (batchSize_of input) j))).
      rewrite Hn. reflexivity.
    + destruct (fetched h (w_issued w) (queries evs)).
      * rewrite log_info_fs. exact (f_equal (fun fs => fs fp) Hc').
      * rewrite file_content_log_info. cbn [close_output].
        rewrite Hc', <- !app_assoc. reflexivity.
  - exists (evs ++ (if has_logger h then [ELogError (lit "Batch export failed")] else [])).
    rewrite log_error_trace, Ht, <- app_assoc.
    split; [reflexivity|].
    rewrite queries_app, log_error_queries, app_nil_r. cbv zeta.
    split; [discriminate|].
    destruct (fetched h (w_issued w) (queries evs)).
    + rewrite log_error_fs. exact (f_equal (fun fs => fs fp) Hc').
    + rewrite file_content_log_error, Hc', <- !app_assoc. reflexivity.
Qed.

Lemma dbExportBatch_csv_lines_witness :
  match dbExportBatch 3 example_pages (example_export csv) empty_world with
  | Some (r, w') =>
      let fp := fst (resolve_output example_pages (example_export csv) empty_world) in
      let w0 := snd (resolve_output example_pages (example_export csv) empty_world) in
      exists evs,
        w_trace w' = w_trace w0 ++ evs /\
        let F := fetched example_pages (w_issued empty_world) (queries evs) in
        (isError r = false ->
         field (lit "totalRows") (data r) = Some (JNumber (Z.of_nat (length F)))) /\
        match F with
        | [] => w_fs w' fp = w_fs w0 fp
        | r0 :: _ =>
            file_content w' fp
            = Some (join (lit ",") (map fst r0) ++ [newline]
                      ++ concat (map (fun row => csv_line (map fst r0) row ++ [newline]) F))
        end
  | None => False
  end.
Proof.
  destruct (dbExportBatch 3 example_pages (example_export csv) empty_world)
    as [[r w']|] eqn:E.
  - exact (dbExportBatch_csv_lines 3 example_pages (example_export csv)
             empty_world r w' eq_refl eq_refl eq_refl eq_refl eq_refl E).
  - exfalso.
    assert (Hs : option_map (fun _ => tt)
                   (dbExportBatch 3 example_pages (example_export csv) empty_world)
                 = Some tt) by (vm_compute; reflexivity).
    rewrite E in Hs. discriminate.
Defined.

(** ** The batch export: counters, cap and refusals *)

Lemma log_error_issued h m w : w_issued (log_error h m w) = w_issued w.
Proof. unfold log_error. destruct (has_logger h); reflexivity. Qed.

(** The counters of a run of the loop from [j] and [w] to [e]: batches
    are never empty, and each is one query; the run ends on its last
    batch, or on one more query that brought nothing. *)
Lemma batch_loop_counts h fmt fp base size cap :
  forall fuel j w e,
    batch_loop fuel h fmt fp base size cap j w = Some e ->
    let d := (batchCount (end_job e) - batchCount j)%Z in
    (0 <= d)%Z /\
    (totalRows j + d <= totalRows (end_job e))%Z /\
    (offset (end_job e) - offset j = totalRows (end_job e) - totalRows j)%Z /\
    match e with
    | Finished _ w' =>
        (Z.of_nat (w_issued w') = Z.of_nat (w_issued w) + d
         \/ Z.of_nat (w_issued w') = Z.of_nat (w_issued w) + d + 1)%Z
    | Threw _ _ w' => (Z.of_nat (w_issued w') = Z.of_nat (w_issued w) + d + 1)%Z
    end.
Proof.
  induction fuel as [|fuel IH]; intros j w e H; [discriminate|].
  cbn [batch_loop] in H. cbv zeta in H.
  destruct (effective_limit size cap j <=? 0)%Z.
  { injection H as <-. cbn [end_job]. repeat split; lia. }
  set (q := batch_query base (effective_limit size cap j) j) in *.
  unfold run_query in H.
  destruct (driver_query h (w_issued w) q) as [rows|message].
  2:{ injection H as <-. cbn [end_job w_issued]. repeat split; lia. }
  destruct (Z.of_nat (length rows) =? 0)%Z eqn:E0.
  { injection H as <-. cbn [end_job w_issued]. repeat split; lia. }
  apply Z.eqb_neq in E0.
  destruct (write_batch h fmt fp rows j _) as [hs w2] eqn:Ew.
  assert (Hiss : w_issued (log_info h (lit "Batch exported") w2) = S (w_issued w)).
  { rewrite log_info_issued.
    pose proof (write_batch_issued h fmt fp rows j
                  (mkWorld (w_fs w) (S (w_issued w)) (w_trace w ++ [EQuery q]))) as Hwi.
    rewrite Ew in Hwi. exact Hwi. }
  set (j' := next_job j (Z.of_nat (length rows)) hs) in *.
  set (w3 := log_info h (lit "Batch exported") w2) in *.
  assert (Hend : forall e', e' = Finished j' w3 \/
                   batch_loop fuel h fmt fp base size cap j' w3 = Some e' ->
            let d := (batchCount (end_job e') - batchCount j)%Z in
            (0 <= d)%Z /\
            (totalRows j + d <= totalRows (end_job e'))%Z /\
            (offset (end_job e') - offset j
             = totalRows (end_job e') - totalRows j)%Z /\
            match e' with
            | Finished _ w' =>
                (Z.of_nat (w_issued w') = Z.of_nat (w_issued w) + d
                 \/ Z.of_nat (w_issued w') = Z.of_nat (w_issued w) + d + 1)%Z
            | Threw _ _ w' =>
                (Z.of_nat (w_issued w') = Z.of_nat (w_issued w) + d + 1)%Z
            end).
  { intros e' [-> | Hl].
    - cbn [end_job]. unfold j'. cbn [next_job batchCount totalRows offset].
      rewrite Hiss. repeat split; lia.
    - destruct (IH _ _ _ Hl) as [A [B [C D]]]. cbv zeta.
      unfold j' in A, B, C, D. cbn [next_job batchCount totalRows offset] in A, B, C, D.
      rewrite Hiss in D.
      repeat split; try lia.
      destruct e'; lia. }
  destruct (Z.of_nat (length rows) <? effective_limit size cap j)%Z.
  { injection H as <-. apply Hend. left. reflexivity. }
  destruct (cap_of cap) as [m|].
  - destruct (m <=? totalRows j')%Z.
    + injection H as <-. apply Hend. left. reflexivity.
    + apply Hend. right. exact H.
  - apply Hend. right. exact H.
Qed.

(** A result that is not an error has passed every guard. *)
Lemma dbExportBatch_success fuel h input w r w' :
  dbExportBatch fuel h input w = Some (r, w') ->
  isError r = false ->
  isInitialized h = true /\
  valid (validateQuery (sql input) ALLOWED_PREFIXES) = true /\
  test ORDER_BY (sql input) = true /\
  connect_error h = None.
Proof.
  unfold dbExportBatch. cbv zeta.
  destruct (isInitialized h); cbn [negb];
    [|intros H; injection H as <- _; discriminate].
  destruct (valid (validateQuery (sql input) ALLOWED_PREFIXES)); cbn [negb];
    [|intros H; injection H as <- _; discriminate].
  destruct (test ORDER_BY (sql input)); cbn [negb];
    [|intros H; injection H as <- _; discriminate].
  destruct (connect_error h);
    [intros H; unfold export_failed in H; injection H as <- _; discriminate|].
  intros _ _. repeat split.
Qed.

(** X16.  The counters a successful export reports: every batch
    counted held at least one row, and the driver received one query per
    batch, and at most one more, which brought nothing. *)
Theorem dbExportBatch_counts (fuel : nat) (h : host) (input : DbExportBatchInput)
    (w : world) (r : ToolResult) (w' : world) :
  dbExportBatch fuel h input w = Some (r, w') ->
  isError r = false ->
  exists batches rows,
    field (lit "batchCount") (data r) = Some (JNumber batches) /\
    field (lit "totalRows") (data r) = Some (JNumber rows) /\
    (0 <= batches <= rows)%Z /\
    (Z.of_nat (w_issued w') = Z.of_nat (w_issued w) + batches
     \/ Z.of_nat (w_issued w') = Z.of_nat (w_issued w) + batches + 1)%Z.
Proof.
  intros H Hok.
  destruct (dbExportBatch_success fuel h input w r w' H Hok) as [Hi [Hv [Ho Hc]]].
  destruct (dbExportBatch_outcome fuel h input w r w' Hi Hv Ho Hc H) as [e [Hloop He]].
  cbv zeta in Hloop, He.
  pose proof (batch_loop_counts _ _ _ _ _ _ _ _ _ _ Hloop) as [A [B [_ D]]].
  destruct e as [j w2|message j w2]; destruct He as [-> ->]; [|discriminate].
  cbn [end_job initial_job batchCount totalRows] in A, B, D.
  exists (batchCount j), (totalRows j). cbn [data success].
  destruct (export_summary_fields h (format_of input) (fst (resolve_output h input w))
              (batchSize_of input) j) as [F1 [F2 _]].
  rewrite F1, F2. split; [reflexivity|]. split; [reflexivity|].
  split; [lia|].
  rewrite close_output_issued.
  rewrite open_output_issued, resolve_output_issued in D. lia.
Qed.

Lemma dbExportBatch_counts_witness :
  match dbExportBatch 3 example_pages (example_export jsonl) empty_world with
  | Some (r, w') =>
      exists batches rows,
        field (lit "batchCount") (data r) = Some (JNumber batches) /\
        field (lit "totalRows") (data r) = Some (JNumber rows) /\
        (0 <= batches <= rows)%Z /\
        (Z.of_nat (w_issued w') = Z.of_nat (w_issued empty_world) + batches
         \/ Z.of_nat (w_issued w') = Z.of_nat (w_issued empty_world) + batches + 1)%Z
  | None => False
  end.
Proof.
  destruct (dbExportBatch 3 example_pages (example_export jsonl) empty_world)
    as [[r w']|] eqn:E.
  - apply (dbExportBatch_counts 3 example_pages (example_export jsonl)
             empty_world r w' E).
    assert (Hr : option_map (fun p => isError (fst p))
                   (dbExportBatch 3 example_pages (example_export jsonl) empty_world)
                 = Some false) by (vm_compute; reflexivity).
    rewrite E in Hr. cbn [option_map fst] in Hr. congruence.
  - exfalso.
    assert (Hs : option_map (fun _ => tt)
                   (dbExportBatch 3 example_pages (example_export jsonl) empty_world)
                 = Some tt) by (vm_compute; reflexivity).
    rewrite E in Hs. discriminate.
Defined.

(** The loop under a row cap, with a driver that answers at most the
    rows a query asks for. *)
Lemma batch_loop_cap h fmt fp base size cap m :
  cap_of cap = Some m ->
  (forall i eff j rows,
     (0 < eff)%Z ->
     driver_query h i (batch_query base eff j) = Rows rows ->
     (Z.of_nat (length rows) <= eff)%Z) ->
  forall fuel j w e,
    (totalRows j <= Z.max m 0)%Z ->
    batch_loop fuel h fmt fp base size cap j w = Some e ->
    (totalRows (end_job e) <= Z.max m 0)%Z.
Proof.
  intros Hcap Hdrv. induction fuel as [|fuel IH]; intros j w e Hj H; [discriminate|].
  cbn [batch_loop] in H. cbv zeta in H.
  destruct (effective_limit size cap j <=? 0)%Z eqn:E0.
  { injection H as <-. exact Hj. }
  apply Z.leb_gt in E0.
  set (eff := effective_limit size cap j) in *.
  unfold run_query in H.
  destruct (driver_query h (w_issued w) (batch_query base eff j)) as [rows|message] eqn:Eq.
  2:{ injection H as <-. exact Hj. }
  destruct (Z.of_nat (length rows) =? 0)%Z.
  { injection H as <-. exact Hj. }
  pose proof (Hdrv _ _ _ _ E0 Eq) as Hrows.
  assert (Heff : (eff <= m - totalRows j)%Z).
  { unfold eff, effective_limit. rewrite Hcap. lia. }
  destruct (write_batch h fmt fp rows j _) as [hs w2].
  assert (Hj' : (totalRows (next_job j (Z.of_nat (length rows)) hs) <= Z.max m 0)%Z)
    by (cbn [next_job totalRows]; lia).
  destruct (Z.of_nat (length rows) <? eff)%Z.
  { injection H as <-. exact Hj'. }
  rewrite Hcap in H.
  destruct (m <=? totalRows (next_job j (Z.of_nat (length rows)) hs))%Z.
  - injection H as <-. exact Hj'.
  - exact (IH _ _ _ Hj' H).
Qed.

(** X17.  With a row cap and a driver that answers no more rows than a
    query asks for, a successful export reports at most [maxRows]
    rows. *)
Theorem dbExportBatch_respects_row_cap (fuel : nat) (h : host)
    (input : DbExportBatchInput) (w : world) (r : ToolResult) (w' : world) (m : Z) :
  maxRows input = Some m -> (0 < m)%Z ->
  (forall i eff j rows,
     (0 < eff)%Z ->
     driver_query h i (batch_query (base_query (sql input)) eff j) = Rows rows ->
     (Z.of_nat (length rows) <= eff)%Z) ->
  dbExportBatch fuel h input w = Some (r, w') ->
  isError r = false ->
  exists rows,
    field (lit "totalRows") (data r) = Some (JNumber rows) /\ (0 <= rows <= m)%Z.
Proof.
  intros Hm Hpos Hdrv H Hok.
  destruct (dbExportBatch_success fuel h input w r w' H Hok) as [Hi [Hv [Ho Hc]]].
  destruct (dbExportBatch_outcome fuel h input w r w' Hi Hv Ho Hc H) as [e [Hloop He]].
  cbv zeta in Hloop, He.
  assert (Hcap : cap_of (maxRows input) = Some m).
  { rewrite Hm. unfold cap_of.
    replace (m =? 0)%Z with false by (symmetry; apply Z.eqb_neq; lia). reflexivity. }
  assert (H0 : (totalRows initial_job <= Z.max m 0)%Z)
    by (cbn [initial_job totalRows]; lia).
  pose proof (batch_loop_cap _ _ _ _ _ _ m Hcap Hdrv _ _ _ _ H0 Hloop) as Hle.
  pose proof (batch_loop_counts _ _ _ _ _ _ _ _ _ _ Hloop) as [A [B _]].
  destruct e as [j w2|message j w2]; destruct He as [-> ->]; [|discriminate].
  cbn [end_job initial_job batchCount totalRows] in *.
  exists (totalRows j). cbn [data success].
  rewrite (proj1 (proj2 (export_summary_fields h (format_of input)
                           (fst (resolve_output h input w)) (batchSize_of input) j))).
  split; [reflexivity | lia].
Qed.

Lemma dbExportBatch_respects_row_cap_witness :
  match dbExportBatch 4 example_endless example_capped empty_world with
  | Some (r, w') =>
      exists rows,
        field (lit "totalRows") (data r) = Some (JNumber rows) /\ (0 <= rows <= 3)%Z
  | None => False
  end.
Proof.
  destruct (dbExportBatch 4 example_endless example_capped empty_world)
    as [[r w']|] eqn:E.
  - apply (dbExportBatch_respects_row_cap 4 example_endless example_capped
             empty_world r w' 3 eq_refl); [lia | | exact E |].
    + intros i eff j rows Hpos Hq. cbn in Hq. injection Hq as <-. cbn. lia.
    + assert (Hr : option_map (fun p => isError (fst p))
                     (dbExportBatch 4 example_endless example_capped empty_world)
                   = Some false) by (vm_compute; reflexivity).
      rewrite E in Hr. cbn [option_map fst] in Hr. congruence.
  - exfalso.
    assert (Hs : option_map (fun _ => tt)
                   (dbExportBatch 4 example_endless example_capped empty_world)
                 = Some tt) by (vm_compute; reflexivity).
    rewrite E in Hs. discriminate.
Defined.

(** The loop under a row cap ends. *)
Lemma batch_loop_ends h fmt fp base size cap m :
  cap_of cap = Some m ->
  forall fuel j w,
    (Z.to_nat (m - totalRows j) < fuel)%nat ->
    batch_loop fuel h fmt fp base size cap j w <> None.
Proof.
  intro Hcap. induction fuel as [|fuel IH]; intros j w Hf; [lia|].
  cbn [batch_loop]. cbv zeta.
  destruct (effective_limit size cap j <=? 0)%Z eqn:E0; [discriminate|].
  apply Z.leb_gt in E0.
  assert (Hroom : (0 < m - totalRows j)%Z).
  { unfold effective_limit in E0. rewrite Hcap in E0. lia. }
  unfold run_query.
  destruct (driver_query h (w_issued w) _) as [rows|message]; [|discriminate].
  destruct (Z.of_nat (length rows) =? 0)%Z eqn:E1; [discriminate|].
  apply Z.eqb_neq in E1.
  destruct (write_batch h fmt fp rows j _) as [hs w2].
  destruct (Z.of_nat (length rows) <? effective_limit size cap j)%Z; [discriminate|].
  rewrite Hcap.
  destruct (m <=? totalRows (next_job j (Z.of_nat (length rows)) hs))%Z;
    [discriminate|].
  apply IH. cbn [next_job totalRows]. lia.
Qed.

(** X18.  With a row cap the export always comes to an end, whatever
    the driver answers: [maxRows] turns of the loop and one more are
    enough. *)
Theorem dbExportBatch_ends_under_cap (fuel : nat) (h : host)
    (input : DbExportBatchInput) (w : world) (m : Z) :
  maxRows input = Some m -> m <> 0%Z ->
  (Z.to_nat m < fuel)%nat ->
  dbExportBatch fuel h input w <> None.
Proof.
  intros Hm Hne Hf. unfold dbExportBatch. cbv zeta.
  destruct (negb (isInitialized h)); [discriminate|].
  destruct (negb (valid _)); [discriminate|].
  destruct (negb (test ORDER_BY _)); [discriminate|].
  destruct (connect_error h); [discriminate|].
  destruct (resolve_output h input w) as [fp w0].
  assert (Hcap : cap_of (maxRows input) = Some m).
  { rewrite Hm. unfold cap_of.
    replace (m =? 0)%Z with false by (symmetry; apply Z.eqb_neq; exact Hne).
    reflexivity. }
  assert (H0 : (Z.to_nat (m - totalRows initial_job) < fuel)%nat)
    by (cbn [initial_job totalRows]; rewrite Z.sub_0_r; exact Hf).
  pose proof (batch_loop_ends h (format_of input) fp (base_query (sql input))
                (batchSize_of input) (maxRows input) m Hcap fuel initial_job
                (open_output (format_of input) fp w0) H0) as Hend.
  destruct (batch_loop fuel h (format_of input) fp (base_query (sql input))
              (batchSize_of input) (maxRows input) initial_job _) as [[j w2|msg j w2]|];
    [discriminate | discriminate | congruence].
Qed.

Lemma dbExportBatch_ends_under_cap_witness :
  dbExportBatch 4 example_endless example_capped empty_world <> None.
Proof.
  apply (dbExportBatch_ends_under_cap 4 example_endless example_capped empty_world 3).
  - reflexivity.
  - discriminate.
  - cbn. lia.
Defined.

(** X19.  A batch size of zero or less, or a negative row cap, which
    the input schema lets through, makes an export of nothing: no query
    reaches the driver, and the call reports success with no batch and no
    row.  In the JSONL and CSV formats nothing is written to the output
    path either (no file is made there), though the path is reported. *)
Theorem dbExportBatch_nothing_to_fetch (fuel : nat) (h : host)
    (input : DbExportBatchInput) (w : world) :
  isInitialized h = true ->
  valid (validateQuery (sql input) ALLOWED_PREFIXES) = true ->
  test ORDER_BY (sql input) = true ->
  connect_error h = None ->
  (batchSize_of input <= 0)%Z \/ (exists m, maxRows input = Some m /\ (m < 0)%Z) ->
  (1 <= fuel)%nat ->
  exists r w',
    dbExportBatch fuel h input w = Some (r, w') /\
    isError r = false /\
    field (lit "batchCount") (data r) = Some (JNumber 0) /\
    field (lit "totalRows") (data r) = Some (JNumber 0) /\
    field (lit "filepath") (data r) = Some (JString (fst (resolve_output h input w))) /\
    w_issued w' = w_issued w /\
    (format_of input <> json ->
     w_fs w' (fst (resolve_output h input w))
     = w_fs (snd (resolve_output h input w)) (fst (resolve_output h input w))).
Proof.
  intros Hi Hv Ho Hc Hsize Hf.
  destruct fuel as [|fuel]; [lia|].
  rewrite (dbExportBatch_run (S fuel) h input w Hi Hv Ho Hc). cbv zeta.
  cbn [batch_loop]. cbv zeta.
  assert (Heff : (effective_limit (batchSize_of input) (maxRows input) initial_job <=? 0)%Z
                 = true).
  { apply Z.leb_le. unfold effective_limit, cap_of. cbn [initial_job totalRows].
    destruct Hsize as [Hs | [m [-> Hm]]].
    - destruct (maxRows input) as [m|]; [|exact Hs].
      destruct (m =? 0)%Z; lia.
    - replace (m =? 0)%Z with false by (symmetry; apply Z.eqb_neq; lia). lia. }
  rewrite Heff.
  eexists. eexists. split; [reflexivity|].
  split; [reflexivity|].
  destruct (export_summary_fields h (format_of input) (fst (resolve_output h input w))
              (batchSize_of input) initial_job) as [F1 [F2 F3]].
  cbn [data success]. rewrite F1, F2, F3.
  do 3 (split; [reflexivity|]).
  split.
  - rewrite close_output_issued, open_output_issued. apply resolve_output_issued.
  - intro Hfmt. rewrite log_info_fs.
    destruct (format_of input); [reflexivity | congruence | reflexivity].
Qed.

Lemma dbExportBatch_nothing_to_fetch_witness :
  exists r w',
    dbExportBatch 1 example_pages (example_input "SELECT id FROM t ORDER BY id" csv 0)
      empty_world = Some (r, w') /\
    isError r = false /\
    field (lit "batchCount") (data r) = Some (JNumber 0) /\
    field (lit "totalRows") (data r) = Some (JNumber 0) /\
    field (lit "filepath") (data r)
    = Some (JString (fst (resolve_output example_pages
                            (example_input "SELECT id FROM t ORDER BY id" csv 0)
                            empty_world))) /\
    w_issued w' = w_issued empty_world /\
    (format_of (example_input "SELECT id FROM t ORDER BY id" csv 0) <> json ->
     w_fs w' (fst (resolve_output example_pages
                     (example_input "SELECT id FROM t ORDER BY id" csv 0)
                     empty_world))
     = w_fs (snd (resolve_output example_pages
                    (example_input "SELECT id FROM t ORDER BY id" csv 0)
                    empty_world))
         (fst (resolve_output example_pages
                 (example_input "SELECT id FROM t ORDER BY id" csv 0)
                 empty_world))).
Proof.
  apply (dbExportBatch_nothing_to_fetch 1 example_pages
           (example_input "SELECT id FROM t ORDER BY id" csv 0) empty_world
           eq_refl eq_refl eq_refl eq_refl).
  - left. cbn. lia.
  - lia.
Defined.

(** X20.  An export of a statement of ASCII characters that is refused
    (the project is not initialized, the statement is not accepted, or
    it has no ORDER BY) or whose driver cannot be obtained fails before
    the tool has done anything to a file: no directory is made, nothing
    is written to the output path or elsewhere by the tool, and
    [driver.query] is not called.  All that happens besides the answer
    is the entry the logger, when there is one, makes of the failure to
    obtain the driver. *)
Theorem dbExportBatch_refusal_leaves_files (fuel : nat) (h : host)
    (input : DbExportBatchInput) (w : world) :
  ascii_only (sql input) = true ->
  isInitialized h = false \/
  valid (validateQuery (sql input) ALLOWED_PREFIXES) = false \/
  test ORDER_BY (sql input) = false \/
  connect_error h <> None ->
  exists r w' evs,
    dbExportBatch fuel h input w = Some (r, w') /\
    isError r = true /\
    w_issued w' = w_issued w /\
    w_trace w' = w_trace w ++ evs /\
    (evs = [] \/
     (connect_error h <> None /\ has_logger h = true /\
      evs = [ELogError (lit "Batch export failed")])).
Proof.
  intros _ Hrefused. unfold dbExportBatch. cbv zeta.
  assert (Hguard : forall r : ToolResult,
            isError r = true ->
            exists r' w' evs,
              Some (r, w) = Some (r', w') /\ isError r' = true /\
              w_issued w' = w_issued w /\ w_trace w' = w_trace w ++ evs /\
              (evs = [] \/
               (connect_error h <> None /\ has_logger h = true /\
                evs = [ELogError (lit "Batch export failed")]))).
  { intros r Hr. exists r, w, []. split; [reflexivity|]. split; [exact Hr|].
    split; [reflexivity|]. split; [symmetry; apply app_nil_r | left; reflexivity]. }
  destruct (isInitialized h); cbn [negb]; [|apply Hguard; reflexivity].
  destruct (valid (validateQuery (sql input) ALLOWED_PREFIXES)); cbn [negb];
    [|apply Hguard; reflexivity].
  destruct (test ORDER_BY (sql input)); cbn [negb]; [|apply Hguard; reflexivity].
  destruct (connect_error h) as [message|] eqn:Hc.
  - unfold export_failed.
    eexists. eexists. exists (if has_logger h then [ELogError (lit "Batch export failed")]
                              else []).
    split; [reflexivity|]. split; [reflexivity|].
    split; [apply log_error_issued|]. split; [apply log_error_trace|].
    destruct (has_logger h); [right | left; reflexivity].
    split; [discriminate|]. split; reflexivity.
  - exfalso. destruct Hrefused as [H | [H | [H | H]]]; try discriminate.
    apply H. reflexivity.
Qed.

Lemma dbExportBatch_refusal_leaves_files_witness :
  exists r w' evs,
    dbExportBatch 3 example_unreachable (example_export json) empty_world
    = Some (r, w') /\
    isError r = true /\
    w_issued w' = w_issued empty_world /\
    w_trace w' = w_trace empty_world ++ evs /\
    (evs = [] \/
     (connect_error example_unreachable <> None /\
      has_logger example_unreachable = true /\
      evs = [ELogError (lit "Batch export failed")])).
Proof.
  apply (dbExportBatch_refusal_leaves_files 3 example_unreachable
           (example_export json) empty_world).
  - reflexivity.
  - right. right. right. discriminate.
Defined.

(** ** The table export *)

Lemma match_here_WHERE_SAFE_anchored q s : match_here WHERE_SAFE (Some q) s = None.
Proof. reflexivity. Qed.

Lemma test_WHERE_SAFE s :
  test WHERE_SAFE s = true <-> s <> [] /\ forallb is_where_char s = true.
Proof.
  assert (Hm : match_here WHERE_SAFE None s <> None
               <-> s <> [] /\ forallb is_where_char s = true).
  { unfold match_here, WHERE_SAFE; cbn [pat_re pat_icase RSeqs].
    rewrite rmatch_seq, rmatch_begin, rmatch_seq, rmatch_plus_class.
    destruct s as [|x t].
    - split; [congruence | intros [H _]; congruence].
    - cbn [forallb]. destruct (is_where_char x); cbn [andb].
      + split.
        * intro H. split; [discriminate|].
          destruct (star_class is_where_char (Some x) t None _) as [r|] eqn:E;
            [|congruence].
          apply (star_class_to_end _ _ _ _ _ _ _ (fun _ _ _ _ => eq_refl) E).
        * intros [_ H].
          rewrite (star_class_greedy _ is_where_char t (Some x) None _
                     (drop_while is_where_char t, None)); [discriminate|].
          rewrite (drop_while_all _ _ H). reflexivity.
      + split; [congruence | intros [_ H]; discriminate]. }
  unfold test, exec. destruct s as [|x t].
  - cbn [search]. split; [|intros [H _]; congruence].
    destruct (match_here WHERE_SAFE None []) eqn:E; [|discriminate].
    intros _. apply Hm. congruence.
  - cbn [search].
    destruct (match_here WHERE_SAFE None (x :: t)) as [[rest cap]|] eqn:E.
    + split; [intros _; apply Hm; congruence | reflexivity].
    + rewrite (search_anchored WHERE_SAFE match_here_WHERE_SAFE_anchored).
      split; [discriminate|]. intro H. apply Hm in H. congruence.
Qed.

Lemma trim_end_chars s :
  exists r, s = trim_end s ++ r /\ forallb is_space r = true.
Proof.
  induction s as [|c t [r [E Hr]]].
  - exists []. split; reflexivity.
  - cbn [trim_end]. destruct (trim_end t) as [|d t'] eqn:Et.
    + cbn [app] in E. subst r. destruct (is_space c) eqn:Ec.
      * exists (c :: t). split; [reflexivity|].
        cbn [forallb]. rewrite Ec. exact Hr.
      * exists t. split; [reflexivity | exact Hr].
    + exists r. cbn [app] in *. rewrite <- E. split; [reflexivity | exact Hr].
Qed.

Lemma accepted_name_clean name type :
  id_valid (validateIdentifier name type) = true -> clean_name name = true.
Proof.
  intro H. destruct (validateIdentifier_accepted name type H) as [_ Hall].
  unfold trim, trim_start in Hall.
  destruct (trim_end_chars (drop_while is_space name)) as [r [E Hr]].
  rewrite <- (take_drop_while is_space name), E.
  unfold clean_name. rewrite !forallb_app.
  apply andb_true_iff. split; [|apply andb_true_iff; split].
  - pose proof (take_while_all is_space name) as Hs.
    rewrite forallb_forall in *. intros c Hc. rewrite (Hs c Hc). apply orb_true_r.
  - rewrite forallb_forall in *. intros c Hc. rewrite (Hall c Hc). reflexivity.
  - rewrite forallb_forall in *. intros c Hc. rewrite (Hr c Hc). apply orb_true_r.
Qed.

Lemma clean_char_not_quote c :
  is_ident_char c || is_space c = true -> ascii_eqb c dquote = false.
Proof. all_chars c. Qed.

Lemma double_quotes_clean s : clean_name s = true -> double_quotes s = s.
Proof.
  unfold clean_name. induction s as [|c t IH]; [reflexivity|].
  cbn [forallb]. intro H. apply andb_true_iff in H as [Hc Ht].
  unfold double_quotes; cbn [flat_map]. fold (double_quotes t).
  rewrite (clean_char_not_quote _ Hc), (IH Ht). reflexivity.
Qed.

Lemma ensure_dir_trace d w :
  exists evs, w_trace (ensure_dir d w) = w_trace w ++ evs /\ queries evs = [].
Proof.
  unfold ensure_dir. destruct (existsSync w d).
  - exists []. rewrite app_nil_r. split; reflexivity.
  - exists [EMkdir d]. split; reflexivity.
Qed.

Lemma export_rows_trace eh table_name fmt sql w :
  exists evs,
    w_trace (snd (export_rows eh table_name fmt sql w))
    = w_trace w ++ EQuery sql :: evs /\
    queries evs = [].
Proof.
  unfold export_rows, run_query. cbv zeta.
  destruct (driver_query (e_host eh) (w_issued w) sql) as [rows|message].
  - cbn [snd].
    destruct (ensure_dir_trace
                (path_join (e_host eh) (dbMcpPath (e_host eh)) (lit "exports"))
                (mkWorld (w_fs w) (S (w_issued w)) (w_trace w ++ [EQuery sql])))
      as [evs [Hevs Hq]].
    eexists. split.
    + rewrite log_info_trace. unfold writeFileSync. cbn [w_trace].
      rewrite Hevs. cbn [w_trace]. rewrite <- !app_assoc. cbn [app]. reflexivity.
    + rewrite queries_app, Hq. cbn [queries flat_map app].
      destruct (has_logger (e_host eh)); reflexivity.
  - unfold table_export_failed. cbn [snd]. eexists. split.
    + rewrite log_error_trace. cbn [w_trace]. rewrite <- !app_assoc. reflexivity.
    + apply log_error_queries.
Qed.

Lemma no_query_refl (w : world) :
  exists evs, w_trace w = w_trace w ++ evs /\ queries evs = [].
Proof. exists []. split; [symmetry; apply app_nil_r | reflexivity]. Qed.

Lemma no_query_log_error h m w :
  exists evs, w_trace (log_error h m w) = w_trace w ++ evs /\ queries evs = [].
Proof. eexists. split; [apply log_error_trace | apply log_error_queries]. Qed.

(** The two courses of a table export: the call fails without a call of
    [driver.query], or the guards are passed and one statement is
    sent. *)
Lemma dbExport_sent eh input w :
  (w_issued (snd (dbExport eh input w)) = w_issued w
   /\ isError (fst (dbExport eh input w)) = true
   /\ exists evs,
        w_trace (snd (dbExport eh input w)) = w_trace w ++ evs /\ queries evs = [])
  \/ (exists sql evs,
        id_valid (validateIdentifier (export_table input) table) = true /\
        match export_columns input with
        | Some (c :: cs) => id_valid (validateIdentifiers (c :: cs) column) = true
        | _ => True
        end /\
        export_statement (e_schema eh) (export_table input) (export_columns input)
          (export_where input)
          match export_limit input with
          | Some l => l
          | None => QArith_base.inject_Z 1000
          end = Some sql /\
        w_trace (snd (dbExport eh input w)) = w_trace w ++ EQuery sql :: evs /\
        queries evs = []).
Proof.
  unfold dbExport. cbv zeta.
  assert (Hrefused : forall r : ToolResult,
            isError r = true ->
            w_issued (snd (r, w)) = w_issued w /\ isError (fst (r, w)) = true
            /\ exists evs, w_trace (snd (r, w)) = w_trace w ++ evs /\ queries evs = [])
    by (intros r Hr; split; [reflexivity | split; [exact Hr | apply no_query_refl]]).
  assert (Hfailed : forall message,
            w_issued (snd (table_export_failed (e_host eh) message w)) = w_issued w
            /\ isError (fst (table_export_failed (e_host eh) message w)) = true
            /\ exists evs,
                 w_trace (snd (table_export_failed (e_host eh) message w))
                 = w_trace w ++ evs /\ queries evs = [])
    by (intro message; unfold table_export_failed; cbn [fst snd];
        split; [apply log_error_issued | split; [reflexivity | apply no_query_log_error]]).
  destruct (isInitialized (e_host eh)); cbn [negb];
    [|left; apply Hrefused; reflexivity].
  destruct (id_valid (validateIdentifier (export_table input) table)) eqn:Ht;
    cbn [negb]; [|left; apply Hrefused; reflexivity].
  set (colValidation := match export_columns input with
                        | Some (c :: cs) => validateIdentifiers (c :: cs) column
                        | _ => mkIdentifier true None None
                        end).
  destruct (id_valid colValidation) eqn:Hcol; cbn [negb];
    [|left; apply Hrefused; reflexivity].
  assert (Hcols : match export_columns input with
                  | Some (c :: cs) => id_valid (validateIdentifiers (c :: cs) column) = true
                  | _ => True
                  end).
  { unfold colValidation in Hcol. destruct (export_columns input) as [[|c cs]|];
      [exact I | exact Hcol | exact I]. }
  clearbody colValidation.
  destruct (connect_error (e_host eh)); [left; apply Hfailed|].
  destruct (e_tableExists eh (export_table input) (e_schema eh)) as [message|[|]];
    [left; apply Hfailed | | left; apply Hrefused; reflexivity].
  destruct (export_statement _ _ _ _ _) as [sql|] eqn:Es;
    [|left; apply Hrefused; reflexivity].
  right.
  destruct (export_rows_trace eh (export_table input)
              match export_fmt input with Some f => f | None => as_json end sql w)
    as [evs [A B]].
  exists sql, evs. repeat split; assumption.
Qed.

Lemma export_statement_some schema table_name columns where_ limit sql :
  export_statement schema table_name columns where_ limit = Some sql ->
  match where_ with
  | Some (c :: cond) => forallb is_where_char (c :: cond) = true
  | _ => True
  end /\
  sql = lit "SELECT " ++ column_list columns ++ lit " FROM " ++ [dquote]
          ++ schema ++ [dquote] ++ lit "." ++ [dquote] ++ table_name ++ [dquote]
          ++ match where_ with
             | Some (c :: cond) => lit " WHERE " ++ c :: cond
             | _ => []
             end
          ++ lit " LIMIT " ++ Number_toString (safe_limit limit 10000).
Proof.
  unfold export_statement. cbv zeta.
  assert (Hsome : forall a b : jsstring, Some a = Some b -> b = a)
    by (intros a b H; congruence).
  destruct where_ as [[|c cond]|].
  - intro H. apply Hsome in H. rewrite H. split; [exact I|].
    rewrite <- !app_assoc. reflexivity.
  - destruct (test WHERE_SAFE (c :: cond)) eqn:Et; cbn [negb]; [|discriminate].
    intro H. apply Hsome in H. rewrite H.
    split; [exact (proj2 (proj1 (test_WHERE_SAFE _) Et))|].
    rewrite <- !app_assoc. reflexivity.
  - intro H. apply Hsome in H. rewrite H. split; [exact I|].
    rewrite <- !app_assoc. reflexivity.
Qed.

(** X21.  A WHERE clause with an ASCII character that is not a letter,
    a digit, an underscore, white space, a quote or one of the signs
    [= < > ! . , ( ) -] (a semicolon, for one) is never sent: the export
    fails and [driver.query] is not called, with the statement built
    from the clause or with any other.  (The check comes after the
    driver was asked whether the table exists: that lookup, which the
    clause has no part in, may have been made.) *)
Theorem dbExport_refuses_unsafe_where (eh : export_host) (input : DbExportInput)
    (w : world) (cond : jsstring) (c : ascii) :
  export_where input = Some cond ->
  In c cond -> (code c < 128)%N -> is_where_char c = false ->
  isError (fst (dbExport eh input w)) = true /\
  exists evs,
    w_trace (snd (dbExport eh input w)) = w_trace w ++ evs /\ queries evs = [].
Proof.
  intros Hw Hin _ Hc.
  destruct (dbExport_sent eh input w) as [[_ [A B]] | [sql [evs [_ [_ [Es _]]]]]];
    [split; assumption|].
  exfalso. apply export_statement_some in Es as [Hall _].
  rewrite Hw in Hall. destruct cond as [|x cond]; [contradiction|].
  rewrite forallb_forall in Hall. rewrite (Hall c Hin) in Hc. discriminate.
Qed.

Lemma dbExport_refuses_unsafe_where_witness :
  isError (fst (dbExport example_export_host
                  (mkExportInput (lit "/project") (lit "users") None None
                                 (Some (lit "id = 1; DROP TABLE users")) None)
                  empty_world)) = true /\
  exists evs,
    w_trace (snd (dbExport example_export_host
                    (mkExportInput (lit "/project") (lit "users") None None
                                   (Some (lit "id = 1; DROP TABLE users")) None)
                    empty_world)) = w_trace empty_world ++ evs /\
    queries evs = [].
Proof.
  apply (dbExport_refuses_unsafe_where example_export_host
           (mkExportInput (lit "/project") (lit "users") None None
                          (Some (lit "id = 1; DROP TABLE users")) None)
           empty_world (lit "id = 1; DROP TABLE users") ";").
  - reflexivity.
  - cbn. tauto.
  - reflexivity.
  - reflexivity.
Defined.

Lemma accepted_names_clean ids type :
  id_valid (validateIdentifiers ids type) = true -> forallb clean_name ids = true.
Proof.
  intro H. unfold validateIdentifiers in H.
  destruct (validateIdentifiers_loop ids type) as [r|] eqn:E.
  - rewrite (validateIdentifiers_loop_some _ _ _ E) in H. discriminate.
  - apply validateIdentifiers_loop_none in E.
    apply forallb_forall. intros i Hi.
    apply (accepted_name_clean i type).
    exact (proj1 (Forall_forall _ _) E i Hi).
Qed.

Lemma column_list_clean c cs :
  forallb clean_name (c :: cs) = true ->
  column_list (Some (c :: cs))
  = join (lit ", ") (map (fun c => [dquote] ++ c ++ [dquote]) (c :: cs)).
Proof.
  intro H. unfold column_list. f_equal. apply map_ext_in. intros x Hx.
  rewrite replace_all_DOUBLE_QUOTE, double_quotes_clean; [reflexivity|].
  rewrite forallb_forall in H. exact (H x Hx).
Qed.

Lemma safe_limit_bounds limit cap :
  (1 <= cap)%Z -> (1 <= safe_limit limit cap <= cap)%Z.
Proof. unfold safe_limit. lia. Qed.

(** X22.  A statement that [dbExport] sends to the driver is built from
    checked parts only: the columns (each between double quotes, or a
    star) and the table between double quotes hold letters, digits,
    underscores and white space and so no quote of their own, the WHERE
    clause has characters of the allowed set only, and the statement ends
    with a limit between 1 and 10000, whatever limit was asked for.  It
    is the only statement sent. *)
Theorem dbExport_statement_shape (eh : export_host) (input : DbExportInput)
    (w : world) :
  w_issued (snd (dbExport eh input w)) <> w_issued w ->
  exists cols cond n evs,
    w_trace (snd (dbExport eh input w))
    = w_trace w
        ++ EQuery (lit "SELECT " ++ cols ++ lit " FROM " ++ [dquote] ++ e_schema eh
                     ++ [dquote] ++ lit "." ++ [dquote] ++ export_table input ++ [dquote]
                     ++ cond ++ lit " LIMIT " ++ Number_toString n) :: evs /\
    queries evs = [] /\
    (1 <= n <= 10000)%Z /\
    clean_name (export_table input) = true /\
    match export_columns input with
    | Some (c :: cs) =>
        forallb clean_name (c :: cs) = true /\
        cols = join (lit ", ") (map (fun c => [dquote] ++ c ++ [dquote]) (c :: cs))
    | _ => cols = lit "*"
    end /\
    match export_where input with
    | Some (c :: wh) =>
        forallb is_where_char (c :: wh) = true /\ cond = lit " WHERE " ++ c :: wh
    | _ => cond = []
    end.
Proof.
  intro Hsent.
  destruct (dbExport_sent eh input w) as [[A _] | [sql [evs [Ht [Hc [Es [Htr Hq]]]]]]];
    [congruence|].
  apply export_statement_some in Es as [Hwh ->].
  exists (column_list (export_columns input)),
         match export_where input with
         | Some (c :: cond) => lit " WHERE " ++ c :: cond
         | _ => []
         end,
         (safe_limit match export_limit input with
                     | Some l => l
                     | None => QArith_base.inject_Z 1000
                     end 10000),
         evs.
  split; [exact Htr|]. split; [exact Hq|].
  split; [apply safe_limit_bounds; lia|].
  split; [exact (accepted_name_clean _ _ Ht)|].
  split.
  - destruct (export_columns input) as [[|c cs]|]; try reflexivity.
    pose proof (accepted_names_clean _ _ Hc) as Hclean.
    split; [exact Hclean | apply column_list_clean, Hclean].
  - destruct (export_where input) as [[|c wh]|]; try reflexivity.
    split; [exact Hwh | reflexivity].
Qed.

Lemma dbExport_statement_shape_witness :
  exists cols cond n evs,
    w_trace (snd (dbExport example_export_host
                    (mkExportInput (lit "/project") (lit "users") (Some as_csv)
                       (Some [lit "id"; lit "email"]) (Some (lit "id > 10"))
                       (Some (QArith_base.Qmake 250005 10)))
                    empty_world))
    = w_trace empty_world
        ++ EQuery (lit "SELECT " ++ cols ++ lit " FROM " ++ [dquote]
                     ++ e_schema example_export_host
                     ++ [dquote] ++ lit "." ++ [dquote] ++ lit "users" ++ [dquote]
                     ++ cond ++ lit " LIMIT " ++ Number_toString n) :: evs /\
    queries evs = [] /\
    (1 <= n <= 10000)%Z /\
    clean_name (lit "users") = true /\
    (forallb clean_name [lit "id"; lit "email"] = true /\
     cols = join (lit ", ")
              (map (fun c => [dquote] ++ c ++ [dquote]) [lit "id"; lit "email"])) /\
    (forallb is_where_char (lit "id > 10") = true /\
     cond = lit " WHERE " ++ lit "id > 10").
Proof.
  apply (dbExport_statement_shape example_export_host
           (mkExportInput (lit "/project") (lit "users") (Some as_csv)
              (Some [lit "id"; lit "email"]) (Some (lit "id > 10"))
              (Some (QArith_base.Qmake 250005 10)))
           empty_world).
  vm_compute. discriminate.
Defined.

(** ** Sampling a table *)

Lemma sample_log_sent sh level message : sent (sample_log sh level message) = [].
Proof. unfold sample_log. destruct (s_has_logger sh); reflexivity. Qed.

Lemma safe_limit_again limit :
  safe_limit (QArith_base.inject_Z (safe_limit limit 1000)) 10000
  = safe_limit limit 1000.
Proof. unfold safe_limit. rewrite Qround.Qfloor_Z. lia. Qed.

(** X23.  The statement [dbSample] has the driver run, through
    [getSampleData], is [SELECT * FROM] the schema and the table, each
    between double quotes and with letters, digits, underscores and white
    space only, followed by a limit between 1 and 1000 (the second clamp,
    to 10000, of [getSampleData] changes nothing); it is the only
    statement sent, and none is sent when a name is refused. *)
Theorem dbSample_statement (sh : sample_host) (input : DbSampleInput) (q : jsstring) :
  In q (sent (snd (dbSample sh input))) ->
  let table_name := sample_table input in
  let schema_name := match sample_schema input with
                     | Some s => s
                     | None => lit "public"
                     end in
  exists n,
    q = lit "SELECT * FROM " ++ [dquote] ++ schema_name ++ [dquote] ++ lit "."
          ++ [dquote] ++ table_name ++ [dquote] ++ lit " LIMIT " ++ Number_toString n /\
    (1 <= n <= 1000)%Z /\
    n = safe_limit match sample_limit input with
                   | Some l => l
                   | None => QArith_base.inject_Z 10
                   end 1000 /\
    clean_name table_name = true /\ clean_name schema_name = true /\
    sent (snd (dbSample sh input)) = [q].
Proof.
  unfold dbSample. cbv zeta.
  set (schema_name := match sample_schema input with
                      | Some s => s
                      | None => lit "public"
                      end).
  destruct (q_initialized (s_host sh)); cbn [negb]; [|intros []].
  destruct (id_valid (validateIdentifier (sample_table input) table)) eqn:Ht;
    cbn [negb]; [|intros []].
  destruct (id_valid (validateIdentifier schema_name schema)) eqn:Hs;
    cbn [negb]; [|intros []].
  pose proof (accepted_name_clean _ _ Ht) as Ct.
  pose proof (accepted_name_clean _ _ Hs) as Cs.
  destruct (q_load (s_host sh)) as [message|config];
    [cbn [snd app]; rewrite sample_log_sent; intros []|].
  destruct (q_connect (s_host sh)) as [message|];
    [cbn [snd app]; rewrite sample_log_sent; intros []|].
  destruct (s_tableExists sh (sample_table input) schema_name) as [message|[|]];
    [cbn [snd app]; rewrite sample_log_sent; intros [] | | intros []].
  unfold getSampleData. cbv zeta.
  rewrite safe_limit_again, !replace_all_DOUBLE_QUOTE.
  rewrite (double_quotes_clean _ Ct), (double_quotes_clean _ Cs).
  set (n := safe_limit _ 1000).
  set (statement := lit "SELECT * FROM " ++ _).
  assert (Hsent : sent (snd (match q_query (s_host sh) statement with
                             | inl message =>
                                 (tool_error (lit "Failed to sample table") (Some message),
                                  [QSent statement]
                                    ++ sample_log sh level_error
                                         (lit "Failed to sample table"))
                             | inr result =>
                                 (success
                                    [ (lit "success", JBool true);
                                      (lit "table", JString (sample_table input));
                                      (lit "rowCount", JNumber (qr_rowCount result));
                                      (lit "duration",
                                       JString (Number_toString (qr_duration result)
                                                  ++ lit "ms"));
                                      (lit "rows", qr_rows result) ],
                                  QSent statement
                                    :: sample_log sh level_info (lit "Sampled table"))
                             end)) = [statement]).
  { destruct (q_query (s_host sh) statement); cbn [snd sent flat_map app];
      fold (sent (sample_log sh level_error (lit "Failed to sample table")));
      fold (sent (sample_log sh level_info (lit "Sampled table")));
      rewrite sample_log_sent; reflexivity. }
  rewrite Hsent. intros [<- | []].
  exists n. split.
  { unfold statement. rewrite <- !app_assoc. reflexivity. }
  split; [apply safe_limit_bounds; lia|].
  repeat split; assumption.
Qed.

Lemma dbSample_statement_witness :
  exists n,
    lit "SELECT * FROM " ++ [dquote] ++ lit "public" ++ [dquote] ++ lit "."
      ++ [dquote] ++ lit "users" ++ [dquote] ++ lit " LIMIT 1000"
    = lit "SELECT * FROM " ++ [dquote] ++ lit "public" ++ [dquote] ++ lit "."
        ++ [dquote] ++ lit "users" ++ [dquote] ++ lit " LIMIT " ++ Number_toString n /\
    (1 <= n <= 1000)%Z /\
    n = safe_limit (QArith_base.inject_Z 50000) 1000 /\
    clean_name (lit "users") = true /\ clean_name (lit "public") = true /\
    sent (snd (dbSample example_sample_host
                 (mkSampleInput (lit "/project") (lit "users")
                                (Some (QArith_base.inject_Z 50000)) None)))
    = [lit "SELECT * FROM " ++ [dquote] ++ lit "public" ++ [dquote] ++ lit "."
         ++ [dquote] ++ lit "users" ++ [dquote] ++ lit " LIMIT 1000"].
Proof.
  apply (dbSample_statement example_sample_host
           (mkSampleInput (lit "/project") (lit "users")
                          (Some (QArith_base.inject_Z 50000)) None)
           (lit "SELECT * FROM " ++ [dquote] ++ lit "public" ++ [dquote] ++ lit "."
              ++ [dquote] ++ lit "users" ++ [dquote] ++ lit " LIMIT 1000")).
  left. reflexivity.
Defined.

(** ** The parser of environment files *)

Lemma split_lines_nonempty s : split_lines s <> [].
Proof.
  destruct s as [|c t]; [discriminate|]. cbn [split_lines].
  destruct (ascii_eqb c newline); [discriminate|].
  destruct (split_lines t); discriminate.
Qed.

Lemma split_lines_line line :
  existsb (ascii_eqb newline) line = false -> split_lines line = [line].
Proof.
  induction line as [|c t IH]; [reflexivity|].
  cbn [existsb]. intro H. apply orb_false_iff in H as [Hc Ht].
  cbn [split_lines]. rewrite ascii_eqb_sym, Hc, (IH Ht). reflexivity.
Qed.

Lemma split_lines_app b line :
  existsb (ascii_eqb newline) line = false ->
  split_lines (b ++ newline :: line) = split_lines b ++ [line].
Proof.
  intro H. induction b as [|c t IH].
  - cbn [app split_lines]. rewrite ascii_eqb_refl, (split_lines_line _ H). reflexivity.
  - cbn [app split_lines]. destruct (ascii_eqb c newline).
    + rewrite IH. reflexivity.
    + rewrite IH. destruct (split_lines t) as [|l ls] eqn:E.
      * exfalso. exact (split_lines_nonempty t E).
      * reflexivity.
Qed.

Lemma parse_env_last b line :
  existsb (ascii_eqb newline) line = false ->
  parse_env (b ++ newline :: line) = parse_line (parse_env b) line.
Proof.
  intro H. unfold parse_env. rewrite (split_lines_app b line H), fold_left_app.
  reflexivity.
Qed.

Lemma string_eqb_eq a b : string_eqb a b = true <-> a = b.
Proof.
  unfold string_eqb. split.
  - intro H. apply andb_true_iff in H as [Hl Hs].
    apply Nat.eqb_eq in Hl. apply startsWith_spec in Hs as [r ->].
    rewrite length_app in Hl. destruct r; [apply app_nil_r | simpl in Hl; lia].
  - intros ->. apply string_eqb_refl.
Qed.

Lemma map_get_set {V : Type} (m : jsmap V) key value :
  map_get (map_set m key value) key = Some value.
Proof.
  induction m as [|[k v] rest IH]; cbn [map_set map_get].
  - rewrite string_eqb_refl. reflexivity.
  - destruct (string_eqb k key) eqn:E; cbn [map_get]; rewrite E; [reflexivity|exact IH].
Qed.

Lemma indexOf_app key c rest :
  existsb (fun x => ascii_eqb x c) key = false ->
  indexOf c (key ++ c :: rest) = Some (length key).
Proof.
  induction key as [|x t IH]; cbn [existsb app indexOf length].
  - intros _. rewrite ascii_eqb_refl. reflexivity.
  - intro H. apply orb_false_iff in H as [Hx Ht]. rewrite Hx, (IH Ht). reflexivity.
Qed.

Lemma no_trailing_app_char a c : is_space c = false -> no_trailing (a ++ [c]) = true.
Proof.
  intro Hc. induction a as [|x t IH]; cbn [app no_trailing].
  - rewrite Hc. reflexivity.
  - destruct (t ++ [c]) eqn:E; [destruct t; discriminate | exact IH].
Qed.

(** X24.  The last line of an environment file, when it is a key, an
    equals sign and a value between double quotes, gives the key that
    value exactly as written between the quotes (inner spaces, quotes,
    equals and number signs kept), whatever the earlier lines were. *)
Theorem parseEnvFile_reads_quoted_value (w : world) (filePath before key value : jsstring) :
  file_content w filePath = Some (before ++ key ++ lit "=" ++ [dquote] ++ value ++ [dquote]) ->
  before = [] \/ (exists b, before = b ++ [newline]) ->
  key <> [] -> trim key = key ->
  existsb (fun x => ascii_eqb x "=") key = false ->
  existsb (ascii_eqb newline) key = false ->
  startsWith key (lit "#") = false ->
  key <> lit "__proto__" ->
  existsb (ascii_eqb newline) value = false ->
  exists result,
    parseEnvFile w filePath = Some result /\ map_get result key = Some value.
Proof.
  intros Hfile Hbefore Hne Htrim Heq Hnl Hhash Hproto Hval.
  set (line := key ++ lit "=" ++ [dquote] ++ value ++ [dquote]) in *.
  assert (Hline : existsb (ascii_eqb newline) line = false).
  { unfold line. rewrite !existsb_app, Hnl, Hval. reflexivity. }
  assert (Hparse : forall result,
            map_get (parse_line result line) key = Some value).
  { intro result. unfold parse_line. cbv zeta.
    destruct (trim_inv key Htrim) as [Hhead Htail].
    assert (Htl : trim line = line).
    { apply trim_fixed.
      - unfold line. destruct key; [congruence | exact Hhead].
      - unfold line. rewrite !app_assoc. apply no_trailing_app_char. reflexivity. }
    rewrite Htl.
    assert (Hlen : (jslength line =? 0)%Z = false).
    { apply Z.eqb_neq. unfold jslength, line.
      destruct key; [congruence | cbn [app length]; lia]. }
    rewrite Hlen. cbn [orb].
    assert (Hh : startsWith line (lit "#") = false).
    { unfold line. destruct key; [congruence | exact Hhash]. }
    rewrite Hh.
    assert (Hidx : indexOf "=" line = Some (length key))
      by (apply (indexOf_app key "=" _ Heq)).
    rewrite Hidx.
    assert (Hk : firstn (length key) line = key) by apply firstn_length_app.
    assert (Hv : skipn (S (length key)) line = dquote :: value ++ [dquote]).
    { unfold line. change (S (length key)) with (1 + length key)%nat.
      rewrite <- skipn_skipn, skipn_app, skipn_all, Nat.sub_diag.
      reflexivity. }
    rewrite Hk, Hv, Htrim.
    assert (Hq : trim (dquote :: value ++ [dquote]) = dquote :: value ++ [dquote]).
    { apply trim_fixed; [reflexivity|].
      change (dquote :: value ++ [dquote]) with ((dquote :: value) ++ [dquote]).
      apply no_trailing_app_char. reflexivity. }
    rewrite Hq.
    assert (Hs : strip_quotes (dquote :: value ++ [dquote]) = value).
    { unfold strip_quotes.
      assert (He : endsWith (dquote :: value ++ [dquote]) [dquote] = true).
      { apply endsWith_spec. exists (dquote :: value). reflexivity. }
      rewrite He. cbn [startsWith]. rewrite ascii_eqb_refl. cbn [andb orb skipn].
      cbn [length]. rewrite length_app. cbn [length].
      replace (S (length value + 1) - 2)%nat with (length value) by lia.
      apply firstn_length_app. }
    rewrite Hs.
    destruct (string_eqb key (lit "__proto__")) eqn:Ep.
    - apply string_eqb_eq in Ep. congruence.
    - apply map_get_set. }
  unfold parseEnvFile, existsSync. unfold file_content in Hfile.
  destruct (w_fs w filePath) as [[content|]|] eqn:Efs; try discriminate.
  injection Hfile as ->. cbn [negb]. unfold file_content. rewrite Efs.
  cbn [option_map]. eexists. split; [reflexivity|].
  destruct Hbefore as [-> | [b ->]].
  - cbn [app]. unfold parse_env. rewrite (split_lines_line _ Hline). apply Hparse.
  - rewrite <- app_assoc. cbn [app]. fold line.
    rewrite (parse_env_last b line Hline). apply Hparse.
Qed.

Lemma parseEnvFile_reads_quoted_value_witness :
  exists result,
    parseEnvFile example_env_world (lit "/project/.env") = Some result /\
    map_get result (lit "DATABASE_URL") = Some (lit "postgres://u:p@h/db?x=1 # main").
Proof.
  apply (parseEnvFile_reads_quoted_value example_env_world (lit "/project/.env")
           (lit "# database" ++ [newline] ++ lit "PORT = 5432" ++ [newline])
           (lit "DATABASE_URL") (lit "postgres://u:p@h/db?x=1 # main")).
  - reflexivity.
  - right. exists (lit "# database" ++ [newline] ++ lit "PORT = 5432"). reflexivity.
  - discriminate.
  - reflexivity.
  - reflexivity.
  - reflexivity.
  - reflexivity.
  - discriminate.
  - reflexivity.
Defined.

Lemma split_lines_cat a c :
  split_lines (a ++ newline :: c) = split_lines a ++ split_lines c.
Proof.
  induction a as [|x t IH].
  - cbn [app split_lines]. rewrite ascii_eqb_refl. reflexivity.
  - cbn [app split_lines]. destruct (ascii_eqb x newline).
    + rewrite IH. reflexivity.
    + rewrite IH. destruct (split_lines t) as [|l ls] eqn:E.
      * exfalso. exact (split_lines_nonempty t E).
      * reflexivity.
Qed.

Lemma trim_subset s c : In c (trim s) -> In c s.
Proof.
  unfold trim, trim_start. intro H.
  destruct (trim_end_chars (drop_while is_space s)) as [r [E _]].
  rewrite <- (take_drop_while is_space s), E.
  apply in_or_app. right. apply in_or_app. left. exact H.
Qed.

Lemma indexOf_none c s :
  existsb (fun x => ascii_eqb x c) s = false -> indexOf c s = None.
Proof.
  induction s as [|x t IH]; [reflexivity|]. cbn [existsb indexOf].
  intro H. apply orb_false_iff in H as [Hx Ht]. rewrite Hx, (IH Ht). reflexivity.
Qed.

Lemma parse_line_skip result line :
  trim line = [] \/ startsWith (trim line) (lit "#") = true
  \/ existsb (fun x => ascii_eqb x "=") line = false ->
  parse_line result line = result.
Proof.
  intros [H | [H | H]]; unfold parse_line; cbv zeta.
  - rewrite H. reflexivity.
  - rewrite H, orb_true_r. reflexivity.
  - destruct ((jslength (trim line) =? 0)%Z || startsWith (trim line) (lit "#"));
      [reflexivity|].
    rewrite indexOf_none; [reflexivity|].
    destruct (existsb (fun x => ascii_eqb x "=") (trim line)) eqn:E; [|reflexivity].
    apply existsb_exists in E as [x [Hin Hx]].
    assert (Hex : existsb (fun x => ascii_eqb x "=") line = true)
      by (apply existsb_exists; exists x; split; [apply trim_subset, Hin | exact Hx]).
    congruence.
Qed.

(** X25.  A line that is blank, that begins (after white space) with a
    number sign, or that has no equals sign changes nothing, wherever it
    stands between two other lines: the file reads as if the line were
    not there. *)
Theorem parse_env_skips_line (b line rest : jsstring) :
  existsb (ascii_eqb newline) line = false ->
  trim line = [] \/ startsWith (trim line) (lit "#") = true
  \/ existsb (fun x => ascii_eqb x "=") line = false ->
  parse_env (b ++ newline :: line ++ newline :: rest) = parse_env (b ++ newline :: rest).
Proof.
  intros Hnl Hskip. unfold parse_env.
  rewrite !split_lines_cat, (split_lines_line _ Hnl), !fold_left_app.
  cbn [fold_left]. rewrite (parse_line_skip _ _ Hskip). reflexivity.
Qed.

Lemma parse_env_skips_line_witness :
  parse_env (lit "A=1" ++ newline :: lit "  # B=2" ++ newline :: lit "C=3")
  = parse_env (lit "A=1" ++ newline :: lit "C=3").
Proof.
  apply (parse_env_skips_line (lit "A=1") (lit "  # B=2") (lit "C=3")).
  - reflexivity.
  - right. left. reflexivity.
Defined.

(** ** Comparing two snapshots *)

Lemma map_get_set_other {V : Type} (m : jsmap V) key key' value :
  string_eqb key key' = false ->
  map_get (map_set m key value) key' = map_get m key'.
Proof.
  intro Hne. induction m as [|[k v] rest IH]; cbn [map_set map_get].
  - rewrite Hne. reflexivity.
  - destruct (string_eqb k key) eqn:E; cbn [map_get].
    + apply string_eqb_eq in E. subst k. rewrite Hne. reflexivity.
    + rewrite IH. reflexivity.
Qed.

Lemma map_set_keys {V : Type} (m : jsmap V) key value k :
  In k (map fst (map_set m key value)) <-> k = key \/ In k (map fst m).
Proof.
  induction m as [|[k0 v0] rest IH]; cbn [map_set map fst In].
  - split; [intros [H | []]; left; congruence | intros [H | []]; left; congruence].
  - destruct (string_eqb k0 key) eqn:E; cbn [map fst In].
    + apply string_eqb_eq in E. subst k0. intuition congruence.
    + rewrite IH. intuition congruence.
Qed.

Lemma map_set_nodup {V : Type} (m : jsmap V) key value :
  NoDup (map fst m) -> NoDup (map fst (map_set m key value)).
Proof.
  induction m as [|[k0 v0] rest IH]; cbn [map_set map fst]; intro H.
  - constructor; [intros [] | constructor].
  - inversion H as [|? ? Hnin Hnd]; subst.
    destruct (string_eqb k0 key) eqn:E; cbn [map fst].
    + constructor; assumption.
    + constructor; [|apply IH, Hnd].
      rewrite map_set_keys. intros [-> | Hin]; [|contradiction].
      rewrite string_eqb_refl in E. discriminate.
Qed.

Lemma map_of_acc {V : Type} (entries : list (jsstring * V)) : forall m,
  NoDup (map fst m) ->
  let r := fold_left (fun m e => map_set m (fst e) (snd e)) entries m in
  NoDup (map fst r) /\
  forall k, In k (map fst r) <-> In k (map fst m) \/ In k (map fst entries).
Proof.
  induction entries as [|[k0 v0] rest IH]; intros m Hm; cbn [fold_left map fst In].
  - split; [exact Hm | intro k; tauto].
  - destruct (IH (map_set m k0 v0) (map_set_nodup m k0 v0 Hm)) as [A B].
    split; [exact A|]. intro k. cbv zeta in B. rewrite B, map_set_keys. cbn [fst].
    intuition congruence.
Qed.

Lemma map_of_nodup {V : Type} (entries : list (jsstring * V)) :
  NoDup (map fst (map_of entries)).
Proof. exact (proj1 (map_of_acc entries [] (NoDup_nil _))). Qed.

Lemma map_of_keys {V : Type} (entries : list (jsstring * V)) k :
  In k (map fst (map_of entries)) <-> In k (map fst entries).
Proof.
  pose proof (proj2 (map_of_acc entries [] (NoDup_nil _)) k) as H.
  cbv zeta in H. unfold map_of. rewrite H. cbn [map In]. tauto.
Qed.

Lemma map_get_in {V : Type} (m : jsmap V) k v :
  NoDup (map fst m) -> In (k, v) m -> map_get m k = Some v.
Proof.
  induction m as [|[k0 v0] rest IH]; intros Hnd Hin; [contradiction|].
  cbn [map fst] in Hnd. inversion Hnd as [|? ? Hnin Hnd']; subst.
  cbn [map_get]. destruct Hin as [E | Hin].
  - injection E as -> ->. rewrite string_eqb_refl. reflexivity.
  - destruct (string_eqb k0 k) eqn:E.
    + apply string_eqb_eq in E. subst k0. exfalso. apply Hnin.
      apply (in_map fst) in Hin. exact Hin.
    + exact (IH Hnd' Hin).
Qed.

Lemma map_has_keys {V : Type} (m : jsmap V) k :
  map_has m k = true <-> In k (map fst m).
Proof.
  unfold map_has. induction m as [|[k0 v0] rest IH]; cbn [map_get map fst In].
  - split; [discriminate | contradiction].
  - destruct (string_eqb k0 k) eqn:E.
    + apply string_eqb_eq in E. subst k0. split; [left; reflexivity | reflexivity].
    + rewrite IH. split; [right; assumption|].
      intros [-> | H]; [|exact H]. rewrite string_eqb_refl in E. discriminate.
Qed.

Lemma flat_map_nil {A B : Type} (f : A -> list B) (l : list A) :
  (forall x, In x l -> f x = []) -> flat_map f l = [].
Proof.
  induction l as [|a l IH]; intro H; [reflexivity|]. cbn [flat_map].
  rewrite (H a (or_introl eq_refl)), IH; [reflexivity|].
  intros x Hx. apply H. right. exact Hx.
Qed.

Lemma map_has_own {V : Type} (m : jsmap V) (e : jsstring * V) :
  In e m -> map_has m (fst e) = true.
Proof. intro H. apply map_has_keys, in_map, H. Qed.

Lemma column_differences_same name t : column_differences name t t = [].
Proof.
  unfold column_differences. cbv zeta.
  set (cols := map_of (map (fun c => (col_name c, c)) (tbl_columns t))).
  rewrite !flat_map_nil; [reflexivity | |].
  - intros e He. rewrite (map_has_own cols e He). reflexivity.
  - intros [k c] He. cbn [fst snd].
    rewrite (map_get_in cols k c (map_of_nodup _) He).
    rewrite string_eqb_refl, Bool.eqb_reflx. reflexivity.
Qed.

Lemma index_differences_same name t : index_differences name t t = [].
Proof.
  unfold index_differences. cbv zeta.
  set (idxs := map_of (map (fun i => (idx_name i, i)) (tbl_indexes t))).
  rewrite !flat_map_nil; [reflexivity | |];
    intros e He; rewrite (map_has_own idxs e He); reflexivity.
Qed.

Lemma compare_snapshots_same s : compare_snapshots s s = [].
Proof.
  unfold compare_snapshots. cbv zeta.
  set (tables := map_of (map (fun t => (tbl_name t, t)) (snap_tables s))).
  rewrite !flat_map_nil; [reflexivity | | |].
  - intros [k t] He. cbn [fst snd].
    rewrite (map_get_in tables k t (map_of_nodup _) He).
    rewrite column_differences_same, index_differences_same. reflexivity.
  - intros e He. rewrite (map_has_own tables e He). reflexivity.
  - intros e He. rewrite (map_has_own tables e He). reflexivity.
Qed.

(** X26.  Comparing the current snapshot with a file that holds the
    same snapshot reports no difference at all, whatever the snapshot is
    (tables, columns or indexes of the same name included): the count is
    zero, the list is empty, and so are the three counts of the
    summary. *)
Theorem dbCompare_same_snapshot (ch : compare_host) (snapshotPath : jsstring)
    (s : SchemaSnapshot) :
  cmp_initialized ch = true ->
  cmp_current ch = inr (Some s) ->
  cmp_file ch snapshotPath = Some (inr s) ->
  exists report,
    fst (dbCompare ch snapshotPath) = Compared report /\
    rep_differenceCount report = 0%Z /\ rep_differences report = [] /\
    rep_added report = 0%Z /\ rep_removed report = 0%Z /\ rep_modified report = 0%Z.
Proof.
  intros Hi Hc Hf. unfold dbCompare. rewrite Hi, Hc, Hf. cbn [negb]. cbv zeta.
  rewrite compare_snapshots_same. eexists. split; [reflexivity|].
  repeat split.
Qed.

Lemma dbCompare_same_snapshot_witness :
  exists report,
    fst (dbCompare (example_compare_host example_snapshot_new example_snapshot_new)
           (lit "/tmp/snapshot.json")) = Compared report /\
    rep_differenceCount report = 0%Z /\ rep_differences report = [] /\
    rep_added report = 0%Z /\ rep_removed report = 0%Z /\ rep_modified report = 0%Z.
Proof.
  apply (dbCompare_same_snapshot
           (example_compare_host example_snapshot_new example_snapshot_new)
           (lit "/tmp/snapshot.json") example_snapshot_new); reflexivity.
Defined.

Lemma column_differences_entity name t t' d :
  In d (column_differences name t t') -> diff_entity d = entity_column.
Proof.
  unfold column_differences. cbv zeta. intro H.
  apply in_app_or in H as [H | H]; apply in_flat_map in H as [e [_ H]].
  - destruct (map_get _ (fst e)) as [c|].
    + destruct (negb _ || negb _); [destruct H as [<- | []]; reflexivity | contradiction].
    + destruct H as [<- | []]. reflexivity.
  - destruct (negb _); [destruct H as [<- | []]; reflexivity | contradiction].
Qed.

Lemma index_differences_entity name t t' d :
  In d (index_differences name t t') -> diff_entity d = entity_index.
Proof.
  unfold index_differences. cbv zeta. intro H.
  apply in_app_or in H as [H | H]; apply in_flat_map in H as [e [_ H]];
    (destruct (negb _); [destruct H as [<- | []]; reflexivity | contradiction]).
Qed.

Lemma map_keys_in {V : Type} (m : jsmap V) k :
  In k (map fst m) -> exists v, In (k, v) m.
Proof.
  intro H. apply in_map_iff in H as [[k' v] [E H]]. cbn [fst] in E. subst k'.
  exists v. exact H.
Qed.

Lemma table_keys tables name :
  In name (map fst (map_of (map (fun t => (tbl_name t, t)) tables)))
  <-> In name (map tbl_name tables).
Proof. rewrite map_of_keys, map_map. cbn [fst]. reflexivity. Qed.

Lemma map_has_false {V : Type} (m : jsmap V) k :
  map_has m k = false <-> ~ In k (map fst m).
Proof.
  rewrite <- map_has_keys. destruct (map_has m k); split; intro H;
    congruence || (exfalso; apply H; reflexivity) || discriminate.
Qed.

(** X27.  A table is reported as added exactly when its name is among
    the tables of the current snapshot and not among those of the
    compared one, and as removed exactly in the opposite case. *)
Theorem compare_snapshots_tables (currentSnapshot compareSnapshot : SchemaSnapshot)
    (name : jsstring) :
  ((exists d, In d (compare_snapshots currentSnapshot compareSnapshot) /\
              diff_entity d = entity_table /\ diff_type d = diff_added /\
              diff_table d = name)
   <-> In name (map tbl_name (snap_tables currentSnapshot)) /\
       ~ In name (map tbl_name (snap_tables compareSnapshot))) /\
  ((exists d, In d (compare_snapshots currentSnapshot compareSnapshot) /\
              diff_entity d = entity_table /\ diff_type d = diff_removed /\
              diff_table d = name)
   <-> In name (map tbl_name (snap_tables compareSnapshot)) /\
       ~ In name (map tbl_name (snap_tables currentSnapshot))).
Proof.
  unfold compare_snapshots. cbv zeta.
  set (cur := map_of (map (fun t => (tbl_name t, t)) (snap_tables currentSnapshot))).
  set (cmp := map_of (map (fun t => (tbl_name t, t)) (snap_tables compareSnapshot))).
  assert (Hcur : forall k, In k (map fst cur)
                           <-> In k (map tbl_name (snap_tables currentSnapshot)))
    by (intro k; apply table_keys).
  assert (Hcmp : forall k, In k (map fst cmp)
                           <-> In k (map tbl_name (snap_tables compareSnapshot)))
    by (intro k; apply table_keys).
  assert (Hthird : forall d,
            In d (flat_map
                    (fun entry =>
                       match map_get cmp (fst entry) with
                       | None => []
                       | Some compareTable =>
                           column_differences (fst entry) (snd entry) compareTable
                           ++ index_differences (fst entry) (snd entry) compareTable
                       end) cur) ->
            diff_entity d <> entity_table).
  { intros d H. apply in_flat_map in H as [e [_ H]].
    destruct (map_get cmp (fst e)) as [t|]; [|contradiction].
    apply in_app_or in H as [H | H].
    - rewrite (column_differences_entity _ _ _ _ H). discriminate.
    - rewrite (index_differences_entity _ _ _ _ H). discriminate. }
  split; split.
  - intros [d [Hin [He [Ht Hn]]]].
    apply in_app_or in Hin as [Hin | Hin]; [|apply in_app_or in Hin as [Hin | Hin]].
    + apply in_flat_map in Hin as [e [Hein Hd]].
      destruct (map_has cmp (fst e)) eqn:Eh; cbn [negb] in Hd; [contradiction|].
      destruct Hd as [<- | []]. cbn [diff_table] in Hn. subst name.
      split; [apply Hcur, in_map, Hein|].
      rewrite <- Hcmp. apply map_has_false, Eh.
    + apply in_flat_map in Hin as [e [_ Hd]].
      destruct (negb _); [|contradiction].
      destruct Hd as [<- | []]. discriminate.
    + exfalso. exact (Hthird d Hin He).
  - intros [Hin Hnin]. apply Hcur, map_keys_in in Hin as [t Hin].
    eexists. split.
    + apply in_or_app. left. apply in_flat_map. exists (name, t).
      split; [exact Hin|]. cbn [fst snd].
      rewrite (proj2 (map_has_false cmp name)); [left; reflexivity|].
      rewrite Hcmp. exact Hnin.
    + repeat split.
  - intros [d [Hin [He [Ht Hn]]]].
    apply in_app_or in Hin as [Hin | Hin]; [|apply in_app_or in Hin as [Hin | Hin]].
    + apply in_flat_map in Hin as [e [_ Hd]].
      destruct (negb _); [|contradiction].
      destruct Hd as [<- | []]. discriminate.
    + apply in_flat_map in Hin as [e [Hein Hd]].
      destruct (map_has cur (fst e)) eqn:Eh; cbn [negb] in Hd; [contradiction|].
      destruct Hd as [<- | []]. cbn [diff_table] in Hn. subst name.
      split; [apply Hcmp, in_map, Hein|].
      rewrite <- Hcur. apply map_has_false, Eh.
    + exfalso. exact (Hthird d Hin He).
  - intros [Hin Hnin]. apply Hcmp, map_keys_in in Hin as [t Hin].
    eexists. split.
    + apply in_or_app. right. apply in_or_app. left.
      apply in_flat_map. exists (name, t).
      split; [exact Hin|]. cbn [fst snd].
      rewrite (proj2 (map_has_false cur name)); [left; reflexivity|].
      rewrite Hcur. exact Hnin.
    + repeat split.
Qed.

(** ** Running a file *)

Lemma set_of_acc items : forall seen x,
  In x (fold_left (fun seen x => if existsb (string_eqb x) seen then seen else seen ++ [x])
          items seen) ->
  In x seen \/ In x items.
Proof.
  induction items as [|i rest IH]; intros seen x H; cbn [fold_left] in H.
  - left. exact H.
  - apply IH in H as [H | H]; [|right; right; exact H].
    destruct (existsb (string_eqb i) seen); [left; exact H|].
    apply in_app_or in H as [H | [<- | []]]; [left; exact H | right; left; reflexivity].
Qed.

Lemma set_of_subset items x : In x (set_of items) -> In x items.
Proof. intro H. apply set_of_acc in H as [[] | H]. exact H. Qed.

(** A prefix without white space of the normal form is a prefix of the
    statement, letter case ignored. *)
Lemma collapse_prefix p : forall s,
  forallb (fun c => negb (is_space c)) p = true ->
  startsWith (toUpperCase (collapse false s)) p = true ->
  startsWith (toUpperCase s) p = true.
Proof.
  induction p as [|a p IH]; intros s Hp H; [reflexivity|].
  cbn [forallb] in Hp. apply andb_true_iff in Hp as [Ha Hp].
  destruct s as [|c t]; [discriminate|].
  cbn [collapse] in H. destruct (is_space c) eqn:Ec.
  - exfalso. cbn [toUpperCase map startsWith] in H.
    apply andb_true_iff in H as [H _]. apply ascii_eqb_eq in H. subst a.
    discriminate.
  - cbn [toUpperCase map startsWith] in *.
    apply andb_true_iff in H as [H1 H2]. rewrite H1. cbn [andb].
    exact (IH t Hp H2).
Qed.

Lemma trim_start_upper_trim content :
  trim_start (toUpperCase (trim content)) = toUpperCase (trim content).
Proof.
  destruct (trim content) as [|c r] eqn:E; [reflexivity|].
  pose proof (trim_head _ _ _ E) as Hc.
  unfold trim_start. cbn [toUpperCase map drop_while].
  rewrite is_space_upper, Hc. reflexivity.
Qed.

(** The course of [dbRunFile] up to the statement of the file. *)
Lemma dbRunFile_reads fh input :
  (sent (snd (dbRunFile fh input)) = [] /\ explained (snd (dbRunFile fh input)) = [])
  \/ exists config content,
       q_load (f_host fh) = inr config /\
       f_read fh (f_resolve fh (run_filePath input)) = Some (inr content) /\
       trim content <> [] /\
       if startsWith (toUpperCase (trim content)) (lit "EXPLAIN")
       then
         sent (snd (dbRunFile fh input)) = [] /\
         (explained (snd (dbRunFile fh input)) = []
          \/ valid (validateQuery (inner_statement (trim content)) EXPLAINABLE) = true /\
             explained (snd (dbRunFile fh input))
             = [normalized_or (validateQuery (inner_statement (trim content)) EXPLAINABLE)
                  (inner_statement (trim content))])
       else
         explained (snd (dbRunFile fh input)) = [] /\
         (sent (snd (dbRunFile fh input)) = []
          \/ let validation :=
               validateQuery (trim content)
                 (set_of (allowedStatements config ++ [lit "EXPLAIN"])) in
             valid validation = true /\
             sent (snd (dbRunFile fh input))
             = [enforceLimit (normalized_or validation (trim content))
                  (Z.min (match run_limit input with Some l => l | None => 1000%Z end)
                         (maxRowLimit config))]).
Proof.
  unfold dbRunFile. cbv zeta.
  destruct (q_initialized (f_host fh)); cbn [negb]; [|left; split; reflexivity].
  destruct (q_load (f_host fh)) as [message|config]; [left; split; reflexivity|].
  destruct (negb _ && negb _); [left; split; reflexivity|].
  destruct (f_read fh (f_resolve fh (run_filePath input))) as [[message|content]|];
    [left; split; reflexivity | | left; split; reflexivity].
  destruct (trim content) as [|c0 raw0] eqn:Eraw; [left; split; reflexivity|].
  right. exists config, content. split; [reflexivity|]. split; [reflexivity|].
  rewrite Eraw. split; [discriminate|].
  rewrite <- Eraw, trim_start_upper_trim.
  destruct (startsWith (toUpperCase (trim content)) (lit "EXPLAIN")).
  - destruct (valid (validateQuery (inner_statement (trim content)) EXPLAINABLE));
      cbn [negb]; [|split; [reflexivity | left; reflexivity]].
    destruct (q_connect (f_host fh)); [split; [reflexivity | left; reflexivity]|].
    destruct (q_explain (f_host fh) _);
      (split; [reflexivity | right; split; reflexivity]).
  - cbv zeta.
    destruct (valid (validateQuery (trim content) _));
      cbn [negb]; [|split; [reflexivity | left; reflexivity]].
    destruct (q_connect (f_host fh)); [split; [reflexivity | left; reflexivity]|].
    destruct (q_query (f_host fh) _);
      (split; [reflexivity | right; split; reflexivity]).
Qed.

(** X28.  From a file that begins with EXPLAIN, [dbRunFile] hands the
    driver's [explain] the statement left once the keyword, its options
    and ANALYZE are removed, and only when that statement is accepted
    under the prefixes SELECT and WITH; nothing goes to the driver's
    [query]. *)
Theorem dbRunFile_explains_select_or_with (fh : file_host) (input : DbRunFileInput)
    (q : jsstring) :
  In q (explained (snd (dbRunFile fh input))) ->
  exists content,
    f_read fh (f_resolve fh (run_filePath input)) = Some (inr content) /\
    startsWith (toUpperCase (trim content)) (lit "EXPLAIN") = true /\
    validateQuery (inner_statement (trim content)) EXPLAINABLE
    = mkValidation true None (Some q) /\
    (startsWith (toUpperCase q) (lit "SELECT") = true
     \/ startsWith (toUpperCase q) (lit "WITH") = true) /\
    explained (snd (dbRunFile fh input)) = [q] /\
    sent (snd (dbRunFile fh input)) = [].
Proof.
  intro Hin.
  destruct (dbRunFile_reads fh input) as [[_ He] | [config [content [_ [Hr [_ H]]]]]].
  { rewrite He in Hin. contradiction. }
  exists content. split; [exact Hr|].
  destruct (startsWith (toUpperCase (trim content)) (lit "EXPLAIN")).
  - split; [reflexivity|]. destruct H as [Hs [He | [Hv He]]].
    { rewrite He in Hin. contradiction. }
    destruct (normalized_or_accepted _ _ Hv) as [n [E [Hor [_ Hex]]]].
    rewrite Hor in He. rewrite He in Hin. destruct Hin as [<- | []].
    split; [exact E|]. split.
    + unfold EXPLAINABLE in Hex. cbn [map existsb] in Hex.
      rewrite orb_false_r in Hex. apply orb_true_iff in Hex. exact Hex.
    + split; assumption.
  - destruct H as [He _]. rewrite He in Hin. contradiction.
Qed.

Lemma dbRunFile_explains_select_or_with_witness :
  exists content,
    f_read example_file_host (lit "/q/plan.sql") = Some (inr content) /\
    startsWith (toUpperCase (trim content)) (lit "EXPLAIN") = true /\
    validateQuery (inner_statement (trim content)) EXPLAINABLE
    = mkValidation true None (Some (lit "select id from users")) /\
    (startsWith (toUpperCase (lit "select id from users")) (lit "SELECT") = true
     \/ startsWith (toUpperCase (lit "select id from users")) (lit "WITH") = true) /\
    explained (snd (dbRunFile example_file_host
                      (mkRunFileInput (lit "/project") (lit "/q/plan.sql") None None None)))
    = [lit "select id from users"] /\
    sent (snd (dbRunFile example_file_host
                 (mkRunFileInput (lit "/project") (lit "/q/plan.sql") None None None)))
    = [].
Proof.
  apply (dbRunFile_explains_select_or_with example_file_host
           (mkRunFileInput (lit "/project") (lit "/q/plan.sql") None None None)
           (lit "select id from users")).
  left. reflexivity.
Defined.

(** X29.  From any other file, [dbRunFile] hands the driver's [query]
    one statement at most: the normal form of the file's statement,
    accepted by the validator and rewritten by [enforceLimit] with the
    smaller of the requested limit (1000 when none is given) and the
    configured row limit.  That normal form does not begin with EXPLAIN
    and begins with one of the configured prefixes: the EXPLAIN prefix
    the tool adds to them never lets a statement through. *)
Theorem dbRunFile_sends_accepted_only (fh : file_host) (input : DbRunFileInput)
    (q : jsstring) :
  In q (sent (snd (dbRunFile fh input))) ->
  exists config content n,
    q_load (f_host fh) = inr config /\
    f_read fh (f_resolve fh (run_filePath input)) = Some (inr content) /\
    validateQuery (trim content) (set_of (allowedStatements config ++ [lit "EXPLAIN"]))
    = mkValidation true None (Some n) /\
    startsWith (toUpperCase n) (lit "EXPLAIN") = false /\
    (exists prefix,
       In prefix (allowedStatements config) /\
       startsWith (toUpperCase n) prefix = true) /\
    q = enforceLimit n
          (Z.min (match run_limit input with Some l => l | None => 1000%Z end)
                 (maxRowLimit config)) /\
    sent (snd (dbRunFile fh input)) = [q] /\
    explained (snd (dbRunFile fh input)) = [].
Proof.
  intro Hin.
  destruct (dbRunFile_reads fh input) as [[Hs _] | [config [content [Hl [Hr [Hne H]]]]]].
  { rewrite Hs in Hin. contradiction. }
  destruct (startsWith (toUpperCase (trim content)) (lit "EXPLAIN")) eqn:Ex.
  { destruct H as [Hs _]. rewrite Hs in Hin. contradiction. }
  destruct H as [He [Hs | H]]; [rewrite Hs in Hin; contradiction|].
  cbv zeta in H. destruct H as [Hv Hs].
  destruct (normalized_or_accepted _ _ Hv) as [n [E [Hor [_ Hex]]]].
  rewrite Hor in Hs. rewrite Hs in Hin. destruct Hin as [<- | []].
  assert (Hn : n = collapse false (trim content)).
  { destruct (validateQuery_accepted _ _ Hv) as [E' _]. cbv zeta in E'.
    rewrite E in E'. rewrite trim_idem, replace_all_WHITESPACE_RUN in E'. congruence. }
  assert (Hnx : startsWith (toUpperCase n) (lit "EXPLAIN") = false).
  { destruct (startsWith (toUpperCase n) (lit "EXPLAIN")) eqn:En; [|reflexivity].
    rewrite Hn in En. apply collapse_prefix in En; [congruence | reflexivity]. }
  exists config, content, n.
  split; [exact Hl|]. split; [exact Hr|]. split; [exact E|]. split; [exact Hnx|].
  split.
  - apply existsb_exists in Hex as [prefix [Hp Hst]].
    apply set_of_subset, in_app_or in Hp as [Hp | [<- | []]].
    + exists prefix. split; assumption.
    + congruence.
  - repeat split; assumption.
Qed.

Lemma dbRunFile_sends_accepted_only_witness :
  exists config content n,
    q_load (f_host example_file_host) = inr config /\
    f_read example_file_host (lit "/q/report.sql") = Some (inr content) /\
    validateQuery (trim content) (set_of (allowedStatements config ++ [lit "EXPLAIN"]))
    = mkValidation true None (Some n) /\
    startsWith (toUpperCase n) (lit "EXPLAIN") = false /\
    (exists prefix,
       In prefix (allowedStatements config) /\
       startsWith (toUpperCase n) prefix = true) /\
    lit "select id from users LIMIT 1000"
    = enforceLimit n (Z.min 1000 (maxRowLimit config)) /\
    sent (snd (dbRunFile example_file_host
                 (mkRunFileInput (lit "/project") (lit "/q/report.sql") None None None)))
    = [lit "select id from users LIMIT 1000"] /\
    explained (snd (dbRunFile example_file_host
                      (mkRunFileInput (lit "/project") (lit "/q/report.sql")
                                      None None None)))
    = [].
Proof.
  apply (dbRunFile_sends_accepted_only example_file_host
           (mkRunFileInput (lit "/project") (lit "/q/report.sql") None None None)
           (lit "select id from users LIMIT 1000")).
  left. reflexivity.
Defined.

(** ** The batch export: pagination *)

Lemma write_batch_trace h fmt fp rows j w :
  exists evs,
    w_trace (snd (write_batch h fmt fp rows j w)) = w_trace w ++ evs /\
    queries evs = [].
Proof.
  unfold write_batch. destruct fmt; cbn [snd].
  - eexists. split; [reflexivity | reflexivity].
  - eexists. split; [reflexivity | reflexivity].
  - destruct (isFirstBatch j && (0 <? length rows)%nat); cbn [fst snd].
    + eexists. split.
      * unfold appendFileSync, writeFileSync. cbn [w_trace].
        rewrite <- app_assoc. reflexivity.
      * reflexivity.
    + eexists. split; [reflexivity | reflexivity].
Qed.

Lemma effective_limit_le size cap j : (effective_limit size cap j <= size)%Z.
Proof. unfold effective_limit. destruct (cap_of cap); lia. Qed.

Lemma pages_asked_refl h base size j w : pages_asked h base size j w (Finished j w).
Proof.
  exists []. split; [symmetry; apply app_nil_r|].
  intros qs1 q qs2 H. destruct qs1; discriminate.
Qed.

Lemma pages_asked_last h base size cap j w e :
  (0 < effective_limit size cap j)%Z ->
  w_trace (end_world e)
  = w_trace w ++ [EQuery (batch_query base (effective_limit size cap j) j)] ->
  pages_asked h base size j w e.
Proof.
  intros Hpos Ht. eexists. split; [exact Ht|].
  intros qs1 q qs2 H. cbn [queries flat_map app] in H.
  destruct qs1 as [|q1 qs1]; [|destruct qs1; discriminate].
  cbn [app] in H. injection H as <- _.
  exists (effective_limit size cap j).
  split; [split; [exact Hpos | apply effective_limit_le]|].
  cbn [fetched length Z.of_nat]. rewrite Z.add_0_r. reflexivity.
Qed.

Lemma pages_asked_step h fmt fp base size cap rows j w e :
  (0 < effective_limit size cap j)%Z ->
  driver_query h (w_issued w) (batch_query base (effective_limit size cap j) j)
  = Rows rows ->
  pages_asked h base size
    (fst (after_batch h fmt fp base size cap rows j w))
    (snd (after_batch h fmt fp base size cap rows j w)) e ->
  pages_asked h base size j w e.
Proof.
  intros Hpos Hq [evs [Ht Hall]].
  set (q0 := batch_query base (effective_limit size cap j) j) in *.
  set (w1 := snd (run_query h q0 w)).
  destruct (write_batch_trace h fmt fp rows j w1) as [wevs [Hw Hwq]].
  assert (Htr : w_trace (snd (after_batch h fmt fp base size cap rows j w))
                = w_trace w ++ EQuery q0 :: wevs
                    ++ (if has_logger h then [ELogInfo (lit "Batch exported")] else [])).
  { unfold after_batch. cbn [snd]. fold q0. fold w1.
    rewrite log_info_trace, Hw. unfold w1, run_query. cbn [snd w_trace].
    rewrite <- !app_assoc. reflexivity. }
  assert (His : w_issued (snd (after_batch h fmt fp base size cap rows j w))
                = S (w_issued w)) by apply after_batch_issued.
  assert (Hoff : offset (fst (after_batch h fmt fp base size cap rows j w))
                 = (offset j + Z.of_nat (length rows))%Z) by reflexivity.
  rewrite Htr in Ht. rewrite His, Hoff in Hall.
  exists (EQuery q0 :: wevs
            ++ (if has_logger h then [ELogInfo (lit "Batch exported")] else [])
            ++ evs).
  split; [rewrite Ht, <- app_assoc, <- app_comm_cons, <- app_assoc; reflexivity|].
  intros qs1 q qs2 H.
  change (EQuery q0 :: wevs
            ++ (if has_logger h then [ELogInfo (lit "Batch exported")] else []) ++ evs)
    with ([EQuery q0] ++ wevs
            ++ (if has_logger h then [ELogInfo (lit "Batch exported")] else []) ++ evs)
    in H.
  rewrite !queries_app, Hwq, log_info_queries in H. cbn [queries flat_map app] in H.
  destruct qs1 as [|q1 qs1].
  - cbn [app] in H. injection H as <- _.
    exists (effective_limit size cap j).
    split; [split; [exact Hpos | apply effective_limit_le]|].
    cbn [fetched length Z.of_nat]. rewrite Z.add_0_r. reflexivity.
  - cbn [app] in H. injection H as <- H.
    destruct (Hall qs1 q qs2 H) as [eff [Heff Hq']].
    exists eff. split; [exact Heff|].
    cbn [fetched]. rewrite Hq, length_app, Nat2Z.inj_add, Hq'.
    rewrite Z.add_assoc. reflexivity.
Qed.

Lemma batch_loop_pages h fmt fp base size cap :
  forall fuel j w e,
    batch_loop fuel h fmt fp base size cap j w = Some e ->
    pages_asked h base size j w e.
Proof.
  induction fuel as [|fuel IH]; intros j w e H; [discriminate|].
  cbn [batch_loop] in H. cbv zeta in H.
  destruct (effective_limit size cap j <=? 0)%Z eqn:E0.
  { injection H as <-. apply pages_asked_refl. }
  apply Z.leb_gt in E0.
  set (q := batch_query base (effective_limit size cap j) j) in *.
  destruct (run_query h q w) as [res w1] eqn:Erun.
  assert (Hres : res = driver_query h (w_issued w) q)
    by (unfold run_query in Erun; congruence).
  assert (Hw1 : w1 = snd (run_query h q w)) by (rewrite Erun; reflexivity).
  destruct res as [rows|message].
  2:{ injection H as <-. apply (pages_asked_last h base size cap j w _ E0).
      cbn [end_world]. rewrite Hw1. reflexivity. }
  destruct (Z.of_nat (length rows) =? 0)%Z.
  { injection H as <-. apply (pages_asked_last h base size cap j w _ E0).
    cbn [end_world]. rewrite Hw1. reflexivity. }
  apply (pages_asked_step h fmt fp base size cap rows j w e E0);
    [symmetry; exact Hres|].
  unfold after_batch. fold q. rewrite <- Hw1.
  destruct (write_batch h fmt fp rows j w1) as [hs w2]. cbn [fst snd].
  destruct (Z.of_nat (length rows) <? effective_limit size cap j)%Z.
  { injection H as <-. apply pages_asked_refl. }
  destruct (cap_of cap) as [m|].
  - destruct (m <=? totalRows (next_job j (Z.of_nat (length rows)) hs))%Z.
    + injection H as <-. apply pages_asked_refl.
    + exact (IH _ _ _ H).
  - exact (IH _ _ _ H).
Qed.

Lemma open_output_trace fmt fp w :
  exists evs, w_trace (open_output fmt fp w) = w_trace w ++ evs /\ queries evs = [].
Proof.
  destruct fmt; cbn [open_output].
  - exists []. split; [symmetry; apply app_nil_r | reflexivity].
  - eexists. split; [reflexivity | reflexivity].
  - exists []. split; [symmetry; apply app_nil_r | reflexivity].
Qed.

(** X30.  Every query of a batch export is the base query (the
    statement without its own LIMIT, OFFSET and final semicolon) followed
    by a limit and an offset: the limit is positive and at most the
    batch size, and the offset is the number of rows the driver answered
    to the queries before it, so that the first query starts at 0 and no
    row is asked for twice or skipped. *)
Theorem dbExportBatch_pagination (fuel : nat) (h : host)
    (input : DbExportBatchInput) (w : world) (r : ToolResult) (w' : world) :
  isInitialized h = true ->
  valid (validateQuery (sql input) ALLOWED_PREFIXES) = true ->
  test ORDER_BY (sql input) = true ->
  connect_error h = None ->
  dbExportBatch fuel h input w = Some (r, w') ->
  exists evs,
    w_trace w' = w_trace (snd (resolve_output h input w)) ++ evs /\
    forall qs1 q qs2,
      queries evs = qs1 ++ q :: qs2 ->
      exists eff,
        (0 < eff <= batchSize_of input)%Z /\
        q = base_query (sql input) ++ lit " LIMIT " ++ Number_toString eff
              ++ lit " OFFSET "
              ++ Number_toString (Z.of_nat (length (fetched h (w_issued w) qs1))).
Proof.
  intros Hi Hv Ho Hc H.
  destruct (dbExportBatch_outcome fuel h input w r w' Hi Hv Ho Hc H) as [e [Hloop He]].
  cbv zeta in Hloop, He.
  set (fp := fst (resolve_output h input w)) in *.
  set (w0 := snd (resolve_output h input w)) in *.
  destruct (batch_loop_pages _ _ _ _ _ _ _ _ _ _ Hloop) as [evs [Ht Hall]].
  destruct (open_output_trace (format_of input) fp w0) as [oevs [Hot Hoq]].
  rewrite open_output_issued in Hall.
  assert (Hiss : w_issued w0 = w_issued w) by apply resolve_output_issued.
  rewrite Hiss in Hall. cbn [initial_job offset] in Hall. rewrite Hot in Ht.
  assert (Hfinal : exists tail, w_trace w' = w_trace (end_world e) ++ tail
                                /\ queries tail = []).
  { destruct e as [j w2|message j w2]; destruct He as [_ ->]; cbn [end_world].
    - rewrite close_output_trace. eexists. split; [reflexivity|].
      apply closing_events_queries.
    - rewrite log_error_trace. eexists. split; [reflexivity|].
      apply log_error_queries. }
  destruct Hfinal as [tail [Hw' Htq]].
  exists (oevs ++ evs ++ tail).
  split; [rewrite Hw', Ht, <- !app_assoc; reflexivity|].
  intros qs1 q qs2 Hq.
  rewrite !queries_app, Hoq, Htq, app_nil_r in Hq. cbn [app] in Hq.
  exact (Hall qs1 q qs2 Hq).
Qed.

Lemma dbExportBatch_pagination_witness :
  match dbExportBatch 3 example_pages (example_export jsonl) empty_world with
  | Some (r, w') =>
      exists evs,
        w_trace w'
        = w_trace (snd (resolve_output example_pages (example_export jsonl) empty_world))
            ++ evs /\
        forall qs1 q qs2,
          queries evs = qs1 ++ q :: qs2 ->
          exists eff,
            (0 < eff <= batchSize_of (example_export jsonl))%Z /\
            q = base_query (sql (example_export jsonl)) ++ lit " LIMIT "
                  ++ Number_toString eff ++ lit " OFFSET "
                  ++ Number_toString
                       (Z.of_nat (length (fetched example_pages
                                            (w_issued empty_world) qs1)))
  | None => False
  end.
Proof.
  destruct (dbExportBatch 3 example_pages (example_export jsonl) empty_world)
    as [[r w']|] eqn:E.
  - exact (dbExportBatch_pagination 3 example_pages (example_export jsonl)
             empty_world r w' eq_refl eq_refl eq_refl eq_refl E).
  - exfalso.
    assert (Hs : option_map (fun _ => tt)
                   (dbExportBatch 3 example_pages (example_export jsonl) empty_world)
                 = Some tt) by (vm_compute; reflexivity).
    rewrite E in Hs. discriminate.
Defined.
